(** * The flame-graph pipeline of umd (package [flamegraph])

    A shallow embedding of [pkg/flamegraph/collapse.go] (the stack folders
    [CollapsePerf], [CollapseDtrace] and [writeCollapsed]) and of the SVG
    renderer of the same package ([GenerateSVG], [renderFrame], [frameColor],
    [getMaxDepth]), followed by the properties of the design document that
    concern them and by further properties of the same functions: what the
    folders keep of a line and how they count, what the tree and the
    rectangles of the image are, and how the two halves of the pipeline
    compose.

    Conventions of the embedding.
    - A Go [string] is a sequence of bytes: Rocq's [string].
    - A Go [int] is a 64-bit two's complement integer: a [Z] kept in range by
      [GoInt.wrap] after every arithmetic operation.
    - A Go [float64] is an IEEE 754 binary64 number: [spec_float] with the
      operations of [SpecFloat] at precision 53 and maximal exponent 1024.
    - A Go [map] is a [gmap]; the order in which [range] visits its keys is
      unspecified and is supplied by a [map_order].
    - An [io.Writer] that is only appended to is the text written to it.
    - An [io.Reader] read through [bufio.Scanner] is the text it delivers;
      the reader is taken to deliver the whole text without an I/O error
      and to report its end on a read of its own, as a file, a pipe and the
      readers of [strings] and [bytes] do.
      The scanner has its default buffer: it yields the lines of the text
      up to the first line of [bufio.MaxScanTokenSize] bytes or more, where
      it stops; the source does not look at its error, so that the rest of
      the text is left unread without notice. *)

From Stdlib Require Import ZArith Ascii String DecimalString SpecFloat.
From Stdlib Require DecimalPos DecimalZ.
From stdpp Require Import gmap strings list fin_maps sorting.

Local Open Scope Z_scope.

(** ** Go's [int] *)

Module GoInt.

Definition min_int : Z := - 2 ^ 63.
Definition max_int : Z := 2 ^ 63 - 1.

(** Reduction to the two's complement range. *)
Definition wrap (z : Z) : Z := (z + 2 ^ 63) mod 2 ^ 64 - 2 ^ 63.

Definition in_range (z : Z) : Prop := min_int <= z <= max_int.

Definition add (a b : Z) : Z := wrap (a + b).
Definition sub (a b : Z) : Z := wrap (a - b).
Definition mul (a b : Z) : Z := wrap (a * b).
(** Integer division truncates toward zero. *)
Definition quot (a b : Z) : Z := wrap (Z.quot a b).
(** The remainder has the sign of the dividend. *)
Definition rem (a b : Z) : Z := Z.rem a b.

End GoInt.

Infix "+i" := GoInt.add (at level 50, left associativity).
Infix "-i" := GoInt.sub (at level 50, left associativity).
Infix "*i" := GoInt.mul (at level 40, left associativity).
Infix "/i" := GoInt.quot (at level 40, left associativity).
Infix "%i" := GoInt.rem (at level 40, left associativity).

(** ** Strings: the functions of [strings], [bufio], [fmt], [html], [sort] *)

Module GoStr.

Definition byte (n : nat) : ascii := ascii_of_nat n.
Definition bytes (l : list nat) : string :=
  string_of_list_ascii (map byte l).

Definition newline : ascii := byte 10.
Definition tab : string := bytes [9%nat].
Definition dquote : string := bytes [34%nat].

(** [len(s)] *)
Definition len (s : string) : Z := Z.of_nat (String.length s).

(** The bytes of [s] in reverse order. *)
Abbreviation rev := String.rev.

(** [s[n:]] and [s[:n]] *)
Fixpoint drop (n : nat) (s : string) : string :=
  match n, s with
  | S k, String _ s' => drop k s'
  | _, _ => s
  end.
Fixpoint take (n : nat) (s : string) : string :=
  match n, s with
  | S k, String c s' => String c (take k s')
  | _, _ => EmptyString
  end.

(** [strings.HasPrefix(s, p)] *)
Definition HasPrefix (s p : string) : bool := String.prefix p s.

(** The UTF-8 encodings of the white space runes, those of [unicode.IsSpace]
    and of the scanner of [fmt]: U+0009..U+000D, U+0020, U+0085, U+00A0,
    U+1680, U+2000..U+200A, U+2028, U+2029, U+202F, U+205F, U+3000; first
    those other than the newline. *)
Definition line_space_runes : list string :=
  map bytes
    [ [9]; [11]; [12]; [13]; [32];
      [194; 133]; [194; 160];
      [225; 154; 128];
      [226; 128; 128]; [226; 128; 129]; [226; 128; 130]; [226; 128; 131];
      [226; 128; 132]; [226; 128; 133]; [226; 128; 134]; [226; 128; 135];
      [226; 128; 136]; [226; 128; 137]; [226; 128; 138];
      [226; 128; 168]; [226; 128; 169]; [226; 128; 175];
      [226; 129; 159];
      [227; 128; 128] ]%nat.
Definition space_runes : list string := bytes [10%nat] :: line_space_runes.

(** Length in bytes of the first pattern that [s] starts with, [0] if none. *)
Fixpoint match_len (pats : list string) (s : string) : nat :=
  match pats with
  | [] => 0%nat
  | p :: ps => if String.prefix p s then String.length p else match_len ps s
  end.

(** Byte length of the white space rune [s] starts with ([0]: none). *)
Definition space_len (s : string) : nat := match_len space_runes s.
(** The same for the last rune of a string given reversed. *)
Definition space_len_rev (r : string) : nat :=
  match_len (map rev space_runes) r.

(** Drops the runes recognised by [sl] from the front; [skip] bytes of the
    rune being dropped remain. *)
Fixpoint trim_front (sl : string -> nat) (skip : nat) (s : string) : string :=
  match s with
  | EmptyString => EmptyString
  | String _ s' =>
    match skip with
    | S k => trim_front sl k s'
    | O => match sl s with
           | O => s
           | S k => trim_front sl k s'
           end
    end
  end.

(** [strings.TrimSpace(s)] *)
Definition TrimSpace (s : string) : string :=
  rev (trim_front space_len_rev 0 (rev (trim_front space_len 0 s))).

(** [strings.Fields(s)]: the maximal runs of bytes free of white space
    runes. [cur] is the field being read, reversed; [skip] counts the
    remaining bytes of a white space rune. *)
Fixpoint fields_from (cur : string) (skip : nat) (s : string) : list string :=
  let flush := match cur with EmptyString => [] | _ => [rev cur] end in
  match s with
  | EmptyString => flush
  | String c s' =>
    match skip with
    | S k => fields_from EmptyString k s'
    | O => match space_len s with
           | O => fields_from (String c cur) 0 s'
           | S k => flush ++ fields_from EmptyString k s'
           end
    end
  end.
Definition Fields (s : string) : list string := fields_from EmptyString 0 s.

(** [strings.IndexByte(s, c)]; [-1] when [c] does not occur. The source
    calls [strings.Index] with one-byte separators only. *)
Fixpoint index_from (i : Z) (c : ascii) (s : string) : Z :=
  match s with
  | EmptyString => -1
  | String d s' => if Ascii.eqb c d then i else index_from (i + 1) c s'
  end.
Definition Index (s : string) (c : ascii) : Z := index_from 0 c s.

(** [strings.Join(l, sep)] *)
Definition Join (l : list string) (sep : string) : string :=
  String.concat sep l.

(** [strings.Split(s, sep)] for a one-byte separator: always at least one
    piece. [cur] is the piece being read, reversed. *)
Fixpoint split_from (cur : string) (c : ascii) (s : string) : list string :=
  match s with
  | EmptyString => [rev cur]
  | String d s' =>
    if Ascii.eqb c d then rev cur :: split_from EmptyString c s'
    else split_from (String d cur) c s'
  end.
Definition Split (s : string) (c : ascii) : list string :=
  split_from EmptyString c s.

(** [strings.SplitN(s, sep, 2)] for a one-byte separator: the text before
    and after the first separator, or [s] alone. *)
Definition SplitN2 (s : string) (c : ascii) : list string :=
  let i := Index s c in
  if i <? 0 then [s]
  else [take (Z.to_nat i) s; drop (S (Z.to_nat i)) s].

(** The lines [bufio.Scanner] yields with its default split function
    [bufio.ScanLines] and its default buffer: the text is cut at every
    newline, one trailing carriage return is dropped from each line, and a
    last line without newline is yielded when it is not empty. A line is a
    token only if it fits the buffer together with its newline, or, for
    the last line, without filling it: at the first line of
    [MaxScanTokenSize] bytes or more [Scan] returns [false], and the loops
    of the source end there as at the end of the text. [cur] is the line
    being read, reversed, and [n] the number of its bytes. *)
Definition MaxScanTokenSize : Z := 64 * 1024.
Definition dropCR (r : string) : string :=
  match r with
  | String c r' => if Ascii.eqb c (byte 13) then r' else r
  | EmptyString => r
  end.
Fixpoint lines_from (cur : string) (n : Z) (s : string) : list string :=
  match s with
  | EmptyString =>
    match cur with EmptyString => [] | _ => [rev (dropCR cur)] end
  | String c s' =>
    if Ascii.eqb c newline then rev (dropCR cur) :: lines_from EmptyString 0 s'
    else if n + 1 <? MaxScanTokenSize then lines_from (String c cur) (n + 1) s'
    else []
  end.
Definition scan_lines (s : string) : list string := lines_from EmptyString 0 s.

(** The verb [%d] of [fmt.Fprintf]. *)
Definition fmt_d (z : Z) : string := NilZero.string_of_int (Z.to_int z).

Definition is_digit (c : ascii) : bool :=
  let n := nat_of_ascii c in (48 <=? n)%nat && (n <=? 57)%nat.
Definition digit_val (c : ascii) : Z := Z.of_nat (nat_of_ascii c) - 48.

(** The decimal digits [s] starts with, as a number, and how many. *)
Fixpoint scan_digits (acc : Z) (n : nat) (s : string) : Z * nat :=
  match s with
  | String c s' =>
    if is_digit c then scan_digits (10 * acc + digit_val c) (S n) s'
    else (acc, n)
  | EmptyString => (acc, n)
  end.

(** [fmt.Sscanf(s, "%d", &v)]: white space is skipped, up to a newline,
    then an optional sign and at least one decimal digit are read, as many
    as there are. [Some v] is the value stored, [None] means that the scan
    failed (a newline or no digit where the number is expected, or a
    number that does not fit 64 bits) and nothing was stored. *)
Definition Sscanf_d (s : string) : option Z :=
  let t := trim_front (match_len line_space_runes) 0 s in
  let '(neg, u) :=
    match t with
    | String c t' =>
      if Ascii.eqb c "-" then (true, t')
      else if Ascii.eqb c "+" then (false, t')
      else (false, t)
    | EmptyString => (false, t)
    end in
  let '(v, n) := scan_digits 0 0 u in
  match n with
  | O => None
  | S _ =>
    let z := if neg : bool then - v else v in
    if (GoInt.min_int <=? z) && (z <=? GoInt.max_int) then Some z else None
  end.

(** [html.EscapeString(s)] *)
Fixpoint EscapeString (s : string) : string :=
  match s with
  | EmptyString => EmptyString
  | String c s' =>
    (if Ascii.eqb c "&" then "&amp;"
     else if Ascii.eqb c "'" then "&#39;"
     else if Ascii.eqb c "<" then "&lt;"
     else if Ascii.eqb c ">" then "&gt;"
     else if Ascii.eqb c (byte 34) then "&#34;"
     else String c EmptyString) +:+ EscapeString s'
  end.

(** [sort.Strings(l)]: increasing in the order of Go's [<] on strings,
    which compares byte by byte ([String.le]). *)
Definition sort_Strings (l : list string) : list string :=
  merge_sort String.le l.

End GoStr.

Import GoStr.

Definition nl : string := String newline EmptyString.

(** The text written by a sequence of writes. *)
Definition write_all (l : list string) : string := foldr String.append "" l.

(** ** Iterating over a map

    Go leaves the order in which [range] visits the keys of a map
    unspecified. A [map_order] is one way of ordering them: [range] over a
    map [m] visits [map_keys o m]. *)

Record map_order := MapOrder {
  range_order : list string -> list string;
  range_order_perm : forall l, range_order l ≡ₚ l
}.

Definition map_keys {V} (o : map_order) (m : gmap string V) : list string :=
  range_order o (map_to_list m).*1.

(** The order in which [gmap] lists its keys, and its reverse. *)
Definition order_id : map_order := MapOrder (fun l => l) (fun l => reflexivity l).
Definition order_rev : map_order := MapOrder reverse (@reverse_Permutation string).

(** ** collapse.go *)

Section Collapse.
Variable o : map_order.

(** [stacks[key] += n] *)
Definition bump (stacks : gmap string Z) (key : string) (n : Z) : gmap string Z :=
  <[key := default 0 (stacks !! key) +i n]> stacks.

(** [writeCollapsed] *)
Definition writeCollapsed (stacks : gmap string Z) : string :=
  let keys := sort_Strings (map_keys o stacks) in
  write_all
    (map (fun k => k +:+ " " +:+ fmt_d (default 0 (stacks !! k)) +:+ nl) keys).

(** The state of the scanning loops: the [stacks] counted so far and the
    frames of the record being read. *)
Record folder := Folder {
  stacks : gmap string Z;
  currentStack : list string
}.

(** Removes an offset such as [+0xa]. *)
Definition strip_offset (funcName : string) : string :=
  let idx := Index funcName "+" in
  if 0 <? idx then take (Z.to_nat idx) funcName else funcName.

(** The end of a perf record: the frames, leaf first, are reversed,
    joined and counted once. *)
Definition perf_flush (st : folder) : folder :=
  if 0 <? Z.of_nat (length (currentStack st)) then
    let key := Join (reverse (currentStack st)) ";" in
    Folder (bump (stacks st) key 1) []
  else st.

(** The body of the loop of [CollapsePerf]. *)
Definition perf_line (st : folder) (line : string) : folder :=
  let trimmed := TrimSpace line in
  if String.eqb trimmed "" then perf_flush st
  else if HasPrefix line tab || HasPrefix line "  " then
    match Fields trimmed with
    | _ :: funcName :: _ =>
      Folder (stacks st) (currentStack st ++ [strip_offset funcName])
    | _ => st
    end
  else st.

(** [CollapsePerf]: the loop, the last stack, [writeCollapsed]. *)
Definition CollapsePerf (r : string) : string :=
  let st := foldl perf_line (Folder ∅ []) (scan_lines r) in
  let st := perf_flush st in
  writeCollapsed (stacks st).

(** [isCountLine]. The source ranges over the runes of [s]; a rune is
    between '0' and '9' exactly when it is encoded by one such byte. *)
Fixpoint all_digits (s : string) : bool :=
  match s with
  | EmptyString => true
  | String c s' => if is_digit c then all_digits s' else false
  end.
Definition isCountLine (s : string) : bool :=
  all_digits s && (0 <? len s).

(** Removes module information such as [module`] and the offset. *)
Definition dtrace_func (trimmed : string) : string :=
  let idx := Index trimmed "`" in
  let funcName :=
    if 0 <=? idx then drop (Z.to_nat (idx +i 1)) trimmed else trimmed in
  strip_offset funcName.

(** The body of the loop of [CollapseDtrace]. *)
Definition dtrace_line (st : folder) (line : string) : folder :=
  let trimmed := TrimSpace line in
  if String.eqb trimmed "" then
    if 0 <? Z.of_nat (length (currentStack st)) then
      let key := Join (currentStack st) ";" in
      Folder (bump (stacks st) key 1) []
    else st
  else if isCountLine trimmed then
    if 0 <? Z.of_nat (length (currentStack st)) then
      let key := Join (currentStack st) ";" in
      let count := default 1 (Sscanf_d trimmed) in
      Folder (bump (stacks st) key count) []
    else st
  else
    Folder (stacks st) (currentStack st ++ [dtrace_func trimmed]).

(** [CollapseDtrace]: the loop, then [writeCollapsed]. *)
Definition CollapseDtrace (r : string) : string :=
  let st := foldl dtrace_line (Folder ∅ []) (scan_lines r) in
  writeCollapsed (stacks st).

End Collapse.

(** ** Go's [float64] *)

Module F64.

Definition prec : Z := 53.
Definition emax : Z := 1024.

(** [float64(n)] for an [int]: the nearest binary64 number. *)
Definition of_int (n : Z) : spec_float := binary_normalize prec emax n 0 false.

Definition mul : spec_float -> spec_float -> spec_float := SFmul prec emax.
Definition div : spec_float -> spec_float -> spec_float := SFdiv prec emax.

(** The integer part of a finite number. *)
Definition trunc (x : spec_float) : Z :=
  match x with
  | S754_finite s m e =>
    let a := if 0 <=? e then Z.pos m * 2 ^ e else Z.pos m / 2 ^ (- e) in
    if s then - a else a
  | _ => 0
  end.

Definition is_finite (x : spec_float) : bool :=
  match x with
  | S754_finite _ _ _ | S754_zero _ => true
  | _ => false
  end.

(** [int(x)]: the fraction is discarded. Go leaves the conversion of a
    value that does not fit (or of a NaN) to the implementation; as on
    amd64, it is taken to give the least [int]. *)
Definition to_int (x : spec_float) : Z :=
  let z := trunc x in
  if is_finite x && (GoInt.min_int <=? z) && (z <=? GoInt.max_int) then z
  else GoInt.min_int.

(** The verb [%.1f]: the decimal expansion with one digit after the point,
    rounded to nearest, ties to even. *)
Definition round_tenths (m : positive) (e : Z) : Z :=
  let n := 10 * Z.pos m in
  if 0 <=? e then n * 2 ^ e
  else
    let d := 2 ^ (- e) in
    let q := n / d in
    let r := n mod d in
    match 2 * r ?= d with
    | Lt => q
    | Gt => q + 1
    | Eq => if Z.even q then q else q + 1
    end.

Definition fmt_f1 (x : spec_float) : string :=
  match x with
  | S754_nan => "NaN"
  | S754_infinity s => if s then "-Inf" else "+Inf"
  | S754_zero s => (if s then "-" else "") +:+ "0.0"
  | S754_finite s m e =>
    let t := round_tenths m e in
    (if s then "-" else "") +:+ fmt_d (t / 10) +:+ "." +:+ fmt_d (t mod 10)
  end.

End F64.

(** ** The renderer *)

(** [SVGOptions] *)
Record SVGOptions := {
  Title : string;
  Width : Z;
  Height : Z;
  ColorScheme : string
}.

(** [DefaultSVGOptions] *)
Definition DefaultSVGOptions : SVGOptions :=
  {| Title := "Flame Graph"; Width := 1200; Height := 0; ColorScheme := "hot" |}.

(** [frame]: a node of the flame graph tree. Every node owns its children,
    so the pointers of the source are the nodes themselves. *)
#[local] Unset Elimination Schemes.
Inductive frame := Frame {
  name : string;
  value : Z;
  children : gmap string frame
}.
#[local] Set Elimination Schemes.

(** [newFrame] *)
Definition newFrame (name : string) : frame := Frame name 0 ∅.

(** [frameColor] *)
Definition frameColor (depth : Z) (scheme : string) : Z * Z * Z :=
  if String.eqb scheme "cold" then
    let g := 50 +i (depth *i 30) %i 150 in
    let b := 150 +i (depth *i 20) %i 100 in
    (30, g, b)
  else if String.eqb scheme "mem" then
    let g := 190 +i (depth *i 15) %i 60 in
    (30, g, 30)
  else
    let r := 200 +i (depth *i 15) %i 55 in
    let g := 50 +i (depth *i 40) %i 150 in
    (r, g, 30).

Section Render.
Variable o : map_order.

(** [getMaxDepth]. The recursive calls are taken on all the children at
    once ([sub]), and the loop picks them up in the order of [range]. *)
Fixpoint getMaxDepth (f : frame) : Z -> Z := fun depth =>
  let sub := (fun child => getMaxDepth child) <$> children f in
  foldl
    (fun max k =>
       match sub !! k with
       | Some depth_of_child =>
         let d := depth_of_child (depth +i 1) in
         if max <? d then d else max
       | None => max
       end)
    depth (map_keys o (children f)).

(** The width of a child: the share of [width] in proportion to the
    values, computed in [float64], at least one pixel. *)
Definition childWidth (width child_value f_value : Z) : Z :=
  let childWidth :=
    F64.to_int
      (F64.div (F64.mul (F64.of_int width) (F64.of_int child_value))
               (F64.of_int f_value)) in
  if childWidth <? 1 then 1 else childWidth.

(** The label of a frame of the given width ([""]: no label). *)
Definition frame_label (name : string) (width : Z) : string :=
  let maxChars := (width -i 4) /i 7 in
  if maxChars <? len name then
    if 3 <? maxChars then take (Z.to_nat (maxChars -i 2)) name +:+ ".."
    else ""
  else name.

Definition quoted (s : string) : string := dquote +:+ s +:+ dquote.

(** What [renderFrame] writes for the frame itself. *)
Definition frame_text (f_name : string) (f_value : Z)
    (x y width frameHeight totalSamples depth : Z) (scheme : string) : string :=
  let '(r, g, b) := frameColor depth scheme in
  let rect :=
    "<g class=" +:+ quoted "func" +:+ ">" +:+ nl +:+
    "<rect x=" +:+ quoted (fmt_d x) +:+
    " y=" +:+ quoted (fmt_d (y -i frameHeight)) +:+
    " width=" +:+ quoted (fmt_d width) +:+
    " height=" +:+ quoted (fmt_d (frameHeight -i 1)) +:+
    " fill=" +:+ quoted ("rgb(" +:+ fmt_d r +:+ "," +:+ fmt_d g +:+ "," +:+
                         fmt_d b +:+ ")") +:+
    " rx=" +:+ quoted "1" +:+ "/>" +:+ nl in
  let text :=
    if 40 <? width then
      let label := frame_label f_name width in
      if negb (String.eqb label "") then
        "<text x=" +:+ quoted (fmt_d (x +i 2)) +:+
        " y=" +:+ quoted (fmt_d (y -i 4)) +:+
        " fill=" +:+ quoted "black" +:+ ">" +:+
        EscapeString label +:+ "</text>" +:+ nl
      else ""
    else "" in
  let pctStr :=
    F64.fmt_f1
      (F64.mul (F64.div (F64.of_int f_value) (F64.of_int totalSamples))
               (F64.of_int 100)) +:+ "%" in
  let title :=
    "<title>" +:+ EscapeString f_name +:+ " (" +:+ fmt_d f_value +:+
    " samples, " +:+ pctStr +:+ ")</title>" +:+ nl +:+ "</g>" +:+ nl in
  rect +:+ text +:+ title.

(** [renderFrame], as the text it writes. The recursive calls are taken on
    all the children at once ([sub]); the loop over the sorted names picks
    each child and its call up by name. The loop carries the text written
    and [childX]. *)
Fixpoint renderFrame (f : frame)
    : Z -> Z -> Z -> Z -> Z -> Z -> Z -> string -> string :=
  fun x baseY width frameHeight fontSize totalSamples depth scheme =>
  if (width <? 1) || (value f =? 0) then ""
  else
    let y := baseY -i (depth *i frameHeight) in
    let own :=
      frame_text (name f) (value f) x y width frameHeight totalSamples depth scheme in
    let sub := (fun child => (child, renderFrame child)) <$> children f in
    let childNames := sort_Strings (map_keys o (children f)) in
    fst
      (foldl
         (fun '(out, childX) name =>
            match sub !! name with
            | Some (child, render_child) =>
              let childWidth := childWidth width (value child) (value f) in
              (out +:+ render_child childX baseY childWidth frameHeight fontSize
                                    totalSamples (depth +i 1) scheme,
               childX +i childWidth)
            | None => (out, childX)
            end)
         (own, x) childNames).

(** [child.value += count] *)
Definition add_value (f : frame) (count : Z) : frame :=
  Frame (name f) (value f +i count) (children f).

(** The loop over [frames]: from [node] downwards, the child of each name
    is looked up or created, and counted. *)
Fixpoint add_frames (frames : list string) (count : Z) (node : frame) : frame :=
  match frames with
  | [] => node
  | fname :: frames' =>
    let child :=
      match children node !! fname with
      | Some child => child
      | None => newFrame fname
      end in
    let child := add_value child count in
    Frame (name node) (value node)
          (<[fname := add_frames frames' count child]> (children node))
  end.

(** The count of a record: what [fmt.Sscanf] stored in [count], which was
    [0] before, and [1] in place of [0]. *)
Definition record_count (field : string) : Z :=
  let count := default 0 (Sscanf_d field) in
  if count =? 0 then 1 else count.

(** The body of the loop over the lines, on [(root, totalSamples)]. *)
Definition svg_line (st : frame * Z) (line : string) : frame * Z :=
  let '(root, totalSamples) := st in
  match SplitN2 line " " with
  | [stack; field] =>
    let count := record_count field in
    let totalSamples := totalSamples +i count in
    let frames := Split stack ";" in
    let root := add_frames frames count root in
    (add_value root count, totalSamples)
  | _ => st
  end.

(** The tree and the number of samples of a text of collapsed stacks. *)
Definition parse_collapsed (collapsed : string) : frame * Z :=
  foldl svg_line (newFrame "root", 0) (scan_lines collapsed).

(** The height of the image when none is given. *)
Definition default_height (root : frame) : Z :=
  let frameHeight := 16 in
  let maxDepth := getMaxDepth root 0 in
  let chartHeight := (maxDepth +i 2) *i frameHeight in
  let headerHeight := 40 in
  chartHeight +i headerHeight +i 20.

(** The header of the image. *)
Definition svg_header (width height fontSize : Z) (title : string)
    (totalSamples : Z) : string :=
  "<?xml version=" +:+ quoted "1.0" +:+ " standalone=" +:+ quoted "no" +:+ "?>" +:+ nl +:+
  "<!DOCTYPE svg PUBLIC " +:+ quoted "-//W3C//DTD SVG 1.1//EN" +:+ " " +:+
    quoted "http://www.w3.org/Graphics/SVG/1.1/DTD/svg1.1.dtd" +:+ ">" +:+ nl +:+
  "<svg version=" +:+ quoted "1.1" +:+ " width=" +:+ quoted (fmt_d width) +:+
    " height=" +:+ quoted (fmt_d height) +:+
    " xmlns=" +:+ quoted "http://www.w3.org/2000/svg" +:+ ">" +:+ nl +:+
  "<style>" +:+ nl +:+
  "  .func:hover { stroke:black; stroke-width:0.5; cursor:pointer; }" +:+ nl +:+
  "  text { font-family: monospace; font-size: " +:+ fmt_d fontSize +:+ "px; }" +:+ nl +:+
  "</style>" +:+ nl +:+
  "<rect x=" +:+ quoted "0" +:+ " y=" +:+ quoted "0" +:+
    " width=" +:+ quoted (fmt_d width) +:+ " height=" +:+ quoted (fmt_d height) +:+
    " fill=" +:+ quoted "white" +:+ "/>" +:+ nl +:+
  "<text x=" +:+ quoted (fmt_d (width /i 2)) +:+ " y=" +:+ quoted "20" +:+
    " text-anchor=" +:+ quoted "middle" +:+
    " style=" +:+ quoted "font-size:16px; font-weight:bold;" +:+ ">" +:+
    EscapeString title +:+ "</text>" +:+ nl +:+
  "<text x=" +:+ quoted (fmt_d (width /i 2)) +:+ " y=" +:+ quoted "35" +:+
    " text-anchor=" +:+ quoted "middle" +:+
    " style=" +:+ quoted "font-size:12px; fill:#666;" +:+ ">(" +:+
    fmt_d totalSamples +:+ " samples)</text>" +:+ nl.

(** The width and the height [GenerateSVG] works with. *)
Definition svg_width (opts : SVGOptions) : Z :=
  if Width opts =? 0 then 1200 else Width opts.
Definition svg_height (opts : SVGOptions) (root : frame) : Z :=
  if Height opts =? 0 then default_height root else Height opts.

(** [GenerateSVG]: the text written to [svg] and the error returned
    ([None] for [nil]). *)
Definition GenerateSVG (collapsed : string) (opts : SVGOptions)
    : string * option string :=
  let width := svg_width opts in
  let '(root, totalSamples) := parse_collapsed collapsed in
  if totalSamples =? 0 then
    ("", Some "no samples found in collapsed stacks")
  else
    let frameHeight := 16 in
    let fontSize := 12 in
    let height := svg_height opts root in
    let header := svg_header width height fontSize (Title opts) totalSamples in
    let margin := 10 in
    let chartWidth := width -i 2 *i margin in
    let baseY := height -i 20 in
    let frames :=
      renderFrame root margin baseY chartWidth frameHeight fontSize
                  totalSamples 0 (ColorScheme opts) in
    (header +:+ frames +:+ "</svg>" +:+ nl, None).

End Render.

(** ** Notions used by the properties *)

(** *** Raw profiler texts as sequences of records *)

Fixpoint has_byte (c : ascii) (s : string) : bool :=
  match s with
  | EmptyString => false
  | String d s' => Ascii.eqb c d || has_byte c s'
  end.

(** The text made of the given lines, each ended by a newline. *)
Definition text_of_lines (ls : list string) : string :=
  write_all (map (fun l => l +:+ nl) ls).

(** What the scanner yields for a line of the text. *)
Definition scanned (l : string) : string := rev (dropCR (rev l)).

(** A line that fits the buffer of the scanner, and the lines of a text
    that the scanner reaches: those before the first line that does not
    fit. *)
Definition short_line (l : string) : bool := len l <? MaxScanTokenSize.
Fixpoint short_prefix (ls : list string) : list string :=
  match ls with
  | [] => []
  | l :: ls' => if short_line l then l :: short_prefix ls' else []
  end.

(** A line that [TrimSpace] empties: it ends a record. *)
Definition blank (l : string) : bool := String.eqb (TrimSpace (scanned l)) "".

(** A line that consists of a count. *)
Definition count_line (l : string) : bool := isCountLine (TrimSpace (scanned l)).

(** A record of the leaf-first format: lines none of which is blank. In the
    text it is followed by an empty line. *)
Definition perf_record (r : list string) : bool :=
  forallb (fun l => negb (has_byte newline l) && negb (blank l)) r.
Definition perf_text (rs : list (list string)) : string :=
  write_all (map (fun r => text_of_lines (r ++ [""])) rs).

(** A record of the root-first format: frame lines, then the line that ends
    the record, blank or a count. *)
Definition dtrace_record (r : list string * string) : bool :=
  forallb (fun l => negb (has_byte newline l) && negb (blank l) && negb (count_line l)) r.1
  && negb (has_byte newline r.2) && (blank r.2 || count_line r.2).
Definition dtrace_text (rs : list (list string * string)) : string :=
  write_all (map (fun r => text_of_lines (r.1 ++ [r.2])) rs).

(** Records every line of which fits the buffer of the scanner. *)
Definition perf_short (rs : list (list string)) : bool :=
  forallb (forallb short_line) rs.
Definition dtrace_short (rs : list (list string * string)) : bool :=
  forallb (fun r => forallb short_line r.1 && short_line r.2) rs.


(** The round-trip example of the design document: three frames, leaf first. *)
Definition perf_example_record : string :=
  tab +:+ " 0 funcC+0x10 (mod)" +:+ nl +:+
  tab +:+ " 0 funcB+0x4 (mod)" +:+ nl +:+
  tab +:+ " 0 funcA+0x0 (mod)" +:+ nl +:+ nl.
Definition perf_example : string :=
  perf_example_record +:+ perf_example_record +:+ perf_example_record.


(** Texts that end within a record: two frames of the root-first format
    that no blank line or count follows, and one frame of the leaf-first
    format that no blank line follows. *)
Definition dtrace_unterminated : string := "funcX" +:+ nl +:+ "funcY" +:+ nl.
Definition perf_unterminated : string := tab +:+ " 0 funcA+0x0 (mod)" +:+ nl.

(** *** Trees *)

(** The number of levels of a tree. *)
Fixpoint frame_levels (f : frame) : nat :=
  S (map_fold (fun _ child acc => Nat.max (frame_levels child) acc) 0%nat (children f)).

(** The node reached from [f] along a path of names. *)
Fixpoint node_at (f : frame) (path : list string) : option frame :=
  match path with
  | [] => Some f
  | k :: path' =>
    match children f !! k with
    | Some child => node_at child path'
    | None => None
    end
  end.

(** The sum of the values of the children of a node. *)
Definition children_sum (f : frame) : Z :=
  map_fold (fun _ child acc => value child + acc) 0 (children f).

(** A colour whose components fit a byte. *)
Definition valid_rgb (c : Z * Z * Z) : Prop :=
  let '(r, g, b) := c in 0 <= r <= 255 /\ 0 <= g <= 255 /\ 0 <= b <= 255.

(** *** Lines of a folded text *)

(** The two parts of a line around its first space. *)
Definition line_stack (line : string) : string :=
  take (Z.to_nat (Index line " ")) line.
Definition line_field (line : string) : string :=
  drop (S (Z.to_nat (Index line " "))) line.

(** The error [GenerateSVG] returns for a text without samples. *)
Definition no_samples : string := "no samples found in collapsed stacks".


(** The example of the design document: two stacks below one frame. *)
Definition tree_example : string := "a;b 2" +:+ nl +:+ "a;c 1" +:+ nl.

(** *** Records of a folded text *)

(** The record a line of the folded text stands for: its frames and its
    count; [None] for a line without a space, which is skipped. *)
Definition svg_record (line : string) : option (list string * Z) :=
  if Index line " " <? 0 then None
  else Some (Split (line_stack line) ";", record_count (line_field line)).

Definition svg_records (collapsed : string) : list (list string * Z) :=
  omap svg_record (scan_lines collapsed).

(** The sum of the counts of records. *)
Definition count_sum (rs : list (list string * Z)) : Z :=
  foldr (fun r acc => r.2 + acc) 0 rs.

(** The sum of the counts of the records whose stack is exactly [path]. *)
Definition ending (rs : list (list string * Z)) (path : list string) : Z :=
  count_sum (filter (fun r => r.1 = path) rs).


(** *** The layout of the children of a frame *)

(** The loop of [renderFrame] over the sorted names, as the list of the
    children drawn, each with the [childX] and the [childWidth] it is drawn
    with. *)
Fixpoint place_children (cs : gmap string frame) (width f_value : Z)
    (names : list string) (childX : Z) : list (frame * Z * Z) :=
  match names with
  | [] => []
  | name :: names' =>
    match cs !! name with
    | Some child =>
      let cw := childWidth width (value child) f_value in
      (child, childX, cw) :: place_children cs width f_value names' (childX +i cw)
    | None => place_children cs width f_value names' childX
    end
  end.

Definition child_slots (o : map_order) (f : frame) (x width : Z)
    : list (frame * Z * Z) :=
  place_children (children f) width (value f)
                 (sort_Strings (map_keys o (children f))) x.

(** The sum of a list of widths. *)
Definition total_width (l : list Z) : Z := foldr Z.add 0 l.

(** Two stacks of one frame each, of equal counts. *)
Definition siblings_example : string := "a 1" +:+ nl +:+ "b 1" +:+ nl.

(** *** Auxiliary notions of the proofs *)

(** The frame a line of the leaf-first format contributes, if any. *)
Definition perf_frame (line : string) : list string :=
  currentStack (perf_line (Folder ∅ []) line).

(** What a record of the leaf-first format does to the counts. *)
Definition perf_effect (m : gmap string Z) (r : list string) : gmap string Z :=
  stacks (perf_flush (Folder m (concat (map perf_frame (map scanned r))))).

(** The frame a line of the root-first format contributes. *)
Definition dtrace_frame (l : string) : string :=
  dtrace_func (TrimSpace (scanned l)).

(** What a record of the root-first format does to the counts. *)
Definition dtrace_effect (m : gmap string Z) (r : list string * string)
    : gmap string Z :=
  stacks (dtrace_line (Folder m (map dtrace_frame r.1)) (scanned r.2)).

(** The body of the loop of [getMaxDepth]. *)
Definition max_step (sub : gmap string (Z -> Z)) (depth : Z) (max : Z) (k : string) : Z :=
  match sub !! k with
  | Some depth_of_child =>
    let d := depth_of_child (depth +i 1) in
    if max <? d then d else max
  | None => max
  end.

(** The body of the loop of [renderFrame] over the names of the children. *)
Definition render_step (p : map_order) (cs : gmap string frame)
    (width f_value baseY frameHeight fontSize totalSamples depth : Z)
    (scheme : string) : string * Z -> string -> string * Z :=
  fun '(out, childX) name =>
  match ((fun child => (child, renderFrame p child)) <$> cs) !! name with
  | Some (child, render_child) =>
    let childWidth := childWidth width (value child) f_value in
    (out +:+ render_child childX baseY childWidth frameHeight fontSize
                          totalSamples (depth +i 1) scheme,
     childX +i childWidth)
  | None => (out, childX)
  end.

(** A record counted into a node: its frames below the node, and the node
    itself. *)
Definition add_path (frames : list string) (count : Z) (node : frame) : frame :=
  add_value (add_frames frames count node) count.

(** The child of a name, as the loop over the frames finds or creates it. *)
Definition child_or_new (node : frame) (fname : string) : frame :=
  match children node !! fname with
  | Some child => child
  | None => newFrame fname
  end.

(** The invariant of the loop over the lines: with [self path] the sum of
    the counts of the records that end at [path], the value of every node
    is the sum of the values of its children and of [self], in the
    arithmetic of [int]; and no record ends outside the tree. *)
Definition conserved (self : list string -> Z) (nd : frame) : Prop :=
  (forall path node, node_at nd path = Some node ->
     value node = GoInt.wrap (children_sum node + self path)) /\
  (forall path, node_at nd path = None -> self path = 0).

(** The sum of the values of a list of frames. *)
Definition sum_values (l : list frame) : Z :=
  foldr (fun c acc => value c + acc) 0 l.

(** The binary64 number of a positive integer [n] below [2 ^ 53]: a
    mantissa of 53 digits, [n] shifted to the left. *)
Definition normal53 (n : Z) (x : spec_float) : Prop :=
  exists m, x = S754_finite false m (Zdigits2 n - 53) /\
            Z.pos m = n * 2 ^ (53 - Zdigits2 n).

(** The same invariant for positive counts that add up to at most [B],
    below the range of [int]: the sums are plain sums, every value lies
    between [0] and [B], and every node below the top has a positive
    value. *)
Definition conserved_plain (B : Z) (self : list string -> Z) (nd : frame) : Prop :=
  (forall path node, node_at nd path = Some node ->
     0 <= value node <= B /\ (path <> [] -> 0 < value node) /\
     0 <= self path /\ value node = children_sum node + self path) /\
  (forall path, node_at nd path = None -> self path = 0).

(** The greatest number of levels among a list of trees. *)
Definition max_levels (l : list frame) : nat :=
  foldr (fun c acc => Nat.max (frame_levels c) acc) 0%nat l.

(** *** Notions used by the further properties *)

(** The options [GenerateSVG] works with: the width [1200] for [0], and
    the scheme [hot] for any scheme other than [cold] and [mem]. *)
Definition effective_options (opts : SVGOptions) : SVGOptions :=
  {| Title := Title opts;
     Width := if Width opts =? 0 then 1200 else Width opts;
     Height := Height opts;
     ColorScheme :=
       if String.eqb (ColorScheme opts) "cold" then "cold"
       else if String.eqb (ColorScheme opts) "mem" then "mem"
       else "hot" |}.

(** The sum of the counts of the records whose stack passes through
    [path], that is, begins with it. *)
Definition passing (rs : list (list string * Z)) (path : list string) : Z :=
  count_sum (filter (fun r => path `prefix_of` r.1) rs).

(** A path some record passes through; the empty path is the root. *)
Definition on_stack (rs : list (list string * Z)) (path : list string) : Prop :=
  path = [] \/ Exists (fun r => path `prefix_of` r.1) rs.

(** The invariant of the loop over the lines, by paths: the paths in
    [present] are those of the tree, and [pass path] is the value of the
    node at [path]. *)
Definition counted (pass : list string -> Z) (present : list string -> Prop)
    (nd : frame) : Prop :=
  forall path,
    match node_at nd path with
    | Some node => present path /\ value node = GoInt.wrap (pass path)
    | None => ~ present path /\ pass path = 0
    end.

(** Every node below [nd] has the name it is filed under. *)
Definition named (nd : frame) : Prop :=
  forall path node k c,
    node_at nd path = Some node -> children node !! k = Some c -> name c = k.

(** The length of the longest stack. *)
Definition longest_stack (rs : list (list string * Z)) : nat :=
  foldr (fun r acc => Nat.max (length r.1) acc) 0%nat rs.

(** *** What the folders count *)

(** The key under which a record of the leaf-first format is counted: its
    frames, root first; [None] for a record without a frame. *)
Definition perf_key (r : list string) : option string :=
  let fs := concat (map perf_frame (map scanned r)) in
  if 0 <? Z.of_nat (length fs) then Some (Join (reverse fs) ";") else None.

(** The key and the count of a record of the root-first format: the count
    is [1] when a blank line ends the record, and when the count line does
    not fit an [int]. *)
Definition dtrace_key (r : list string * string) : option string :=
  if 0 <? Z.of_nat (length r.1) then Some (Join (map dtrace_frame r.1) ";")
  else None.
Definition dtrace_count (r : list string * string) : Z :=
  if blank r.2 then 1 else default 1 (Sscanf_d (TrimSpace (scanned r.2))).

(** The sum of the counts of the keyed records of key [k], and what
    counting one of them does to the map. *)
Definition tally (recs : list (option string * Z)) (k : string) : Z :=
  foldr (fun r acc => r.2 + acc) 0 (filter (fun r => r.1 = Some k) recs).
Definition tally_effect (m : gmap string Z) (r : option string * Z)
    : gmap string Z :=
  match r.1 with
  | Some k => bump m k r.2
  | None => m
  end.

(** The number of records of a key. *)
Definition occurrences (rs : list (list string)) (k : string) : nat :=
  length (filter (fun r => perf_key r = Some k) rs).

(** *** Bytes and white space *)

(** A byte that begins one of the given patterns. *)
Definition begins (pats : list string) (c : ascii) : bool :=
  existsb (fun p => match p with
                    | String d _ => Ascii.eqb d c
                    | EmptyString => true
                    end) pats.

(** A string none of whose bytes begins a white space rune: what
    [strings.Fields] keeps in one piece. *)
Fixpoint plain (s : string) : bool :=
  match s with
  | EmptyString => true
  | String c s' => negb (begins space_runes c) && plain s'
  end.

(** *** Decimal numbers *)

(** The number a sequence of decimal digits stands for, read from the
    left after [acc]. *)
Fixpoint uint_val (acc : Z) (d : Decimal.uint) : Z :=
  match d with
  | Decimal.Nil => acc
  | Decimal.D0 d => uint_val (10 * acc + 0) d
  | Decimal.D1 d => uint_val (10 * acc + 1) d
  | Decimal.D2 d => uint_val (10 * acc + 2) d
  | Decimal.D3 d => uint_val (10 * acc + 3) d
  | Decimal.D4 d => uint_val (10 * acc + 4) d
  | Decimal.D5 d => uint_val (10 * acc + 5) d
  | Decimal.D6 d => uint_val (10 * acc + 6) d
  | Decimal.D7 d => uint_val (10 * acc + 7) d
  | Decimal.D8 d => uint_val (10 * acc + 8) d
  | Decimal.D9 d => uint_val (10 * acc + 9) d
  end.

(** *** Folded texts as maps *)

(** The sum of the counts of a map of stacks. *)
Definition stacks_sum (m : gmap string Z) : Z :=
  map_fold (fun _ v acc => v + acc) 0 m.

(** The longest key whose line [key count] fits the buffer of the scanner
    whatever the count: the space and the count take up to 21 bytes. *)
Definition max_key : Z := MaxScanTokenSize - 22.

(** A stack and a count that the loop of [GenerateSVG] reads back as they
    were written: no space and no newline in the stack, which is short
    enough for its line to fit the buffer of the scanner, and a count that
    is not zero. *)
Definition readable (k : string) (v : Z) : Prop :=
  has_byte " " k = false /\ has_byte newline k = false /\
  len k <= max_key /\ GoInt.in_range v /\ v <> 0.

(** Records of the leaf-first format whose keys are short enough. *)
Definition perf_keys_short (rs : list (list string)) : bool :=
  forallb (fun r => match perf_key r with
                    | Some k => len k <=? max_key
                    | None => true
                    end) rs.

(** The sum of the counts of the keyed records that have a key. *)
Definition keyed_sum (recs : list (option string * Z)) : Z :=
  foldr (fun r acc => match r.1 with Some _ => r.2 + acc | None => acc end) 0 recs.

(** The number of the records of the leaf-first format that have a frame. *)
Definition perf_samples (rs : list (list string)) : Z :=
  Z.of_nat (length (filter (fun r => is_Some (perf_key r)) rs)).

(** *** Frame lines of the leaf-first format *)

(** A printable byte of ASCII, other than the space. *)
Definition printable (c : ascii) : bool :=
  let n := nat_of_ascii c in (33 <=? n)%nat && (n <=? 126)%nat.
Fixpoint printable_all (s : string) : bool :=
  match s with
  | EmptyString => true
  | String c s' => printable c && printable_all s'
  end.

(** A word: printable bytes, at least one. *)
Definition word (s : string) : bool :=
  negb (String.eqb s "") && printable_all s.

Fixpoint spaces (n : nat) : string :=
  match n with
  | O => EmptyString
  | S k => String " " (spaces k)
  end.

(** A frame line as [perf script] prints it: a tab and spaces, then the
    address, the symbol with its offset, and the object in brackets. *)
Record perf_frame_desc := PerfFrame {
  pf_pad : nat;
  pf_addr : string;
  pf_sym : string;
  pf_off : string;
  pf_dso : string
}.
Definition perf_frame_ok (fr : perf_frame_desc) : bool :=
  word (pf_addr fr) && word (pf_sym fr) && negb (has_byte "+" (pf_sym fr))
  && printable_all (pf_off fr) && word (pf_dso fr).
Definition perf_frame_line (fr : perf_frame_desc) : string :=
  tab +:+ spaces (pf_pad fr) +:+ pf_addr fr +:+ " " +:+
  pf_sym fr +:+ "+" +:+ pf_off fr +:+ " " +:+ pf_dso fr.

(** *** The flame graph of a profile *)

(** The stack of a record of [perf script]: its symbols, root first. *)
Definition perf_stack (r : list perf_frame_desc) : list string :=
  reverse (map pf_sym r).

(** The number of the records with a frame whose stack passes through
    [path]. *)
Definition through (recs : list (list perf_frame_desc)) (path : list string) : nat :=
  length (filter (fun r => perf_stack r <> [] /\ path `prefix_of` perf_stack r) recs).

(** The number of the records whose key satisfies [p]. *)
Definition keyed_count (p : string -> bool) (rs : list (list string)) : nat :=
  length (filter (fun r => from_option p false (perf_key r) = true) rs).

(** *** Lines that the leaf-first folder passes over *)

(** A line that is not blank and that is not a frame line: it is not
    indented, as the header of a sample is not, or it has fewer than two
    fields. *)
Definition perf_ignored (l : string) : bool :=
  negb (blank l) &&
  (negb (HasPrefix (scanned l) tab || HasPrefix (scanned l) "  ")
   || (length (Fields (TrimSpace (scanned l))) <? 2)%nat).

(** *** The rectangles of the image *)

(** What [renderFrame] draws: every frame drawn, with its [x], its width
    and its depth, in the order of the text, a frame before its children
    and these from left to right. The recursion of [renderFrame] ends with
    the tree; here it is counted down from a number of levels. *)
Fixpoint rects_upto (n : nat) (o : map_order) (f : frame) (x width depth : Z)
    : list (frame * Z * Z * Z) :=
  match n with
  | O => []
  | S n' =>
    if (width <? 1) || (value f =? 0) then []
    else
      (f, x, width, depth)
      :: concat (map (fun s : frame * Z * Z =>
                        rects_upto n' o s.1.1 s.1.2 s.2 (depth +i 1))
                     (child_slots o f x width))
  end.
Definition frame_rects (o : map_order) (f : frame) (x width depth : Z)
    : list (frame * Z * Z * Z) :=
  rects_upto (frame_levels f) o f x width depth.

(** The text of a rectangle. *)
Definition rect_text (baseY frameHeight totalSamples : Z) (scheme : string)
    (r : frame * Z * Z * Z) : string :=
  frame_text (name r.1.1.1) (value r.1.1.1) r.1.1.2
             (baseY -i (r.2 *i frameHeight)) r.1.2 frameHeight totalSamples
             r.2 scheme.

(** *** Records of the root-first format, as [dtrace] prints them *)

(** A frame line: spaces, then [module`function+offset]. *)
Record dtrace_frame_desc := DtraceFrame {
  df_pad : nat;
  df_module : string;
  df_func : string;
  df_off : string
}.
Definition dtrace_frame_ok (fr : dtrace_frame_desc) : bool :=
  word (df_module fr) && negb (has_byte "`" (df_module fr))
  && (len (df_module fr) <? GoInt.max_int)
  && word (df_func fr) && negb (has_byte "+" (df_func fr))
  && printable_all (df_off fr).
Definition dtrace_frame_text (fr : dtrace_frame_desc) : string :=
  spaces (df_pad fr) +:+ df_module fr +:+ "`" +:+ df_func fr +:+ "+" +:+ df_off fr.

(** The line of the count, which ends the record. *)
Definition dtrace_count_text (pad : nat) (n : Z) : string :=
  spaces pad +:+ fmt_d n.

(** * Properties *)

(** ** The order of strings and [sort.Strings] *)

Module GoStrFacts.

(** The sorted list depends on the elements only. *)
Lemma sort_Strings_perm l1 l2 : l1 ≡ₚ l2 -> sort_Strings l1 = sort_Strings l2.
Proof.
  intros E. apply (Sorted_unique String.le); [apply Sorted_merge_sort, _..|].
  unfold sort_Strings. by rewrite !merge_sort_Permutation.
Qed.

Lemma sort_Strings_sorted l : StronglySorted String.le (sort_Strings l).
Proof. apply StronglySorted_merge_sort; apply _. Qed.

Lemma append_assoc (a b c : string) : (a +:+ b) +:+ c = a +:+ (b +:+ c).
Proof.
  induction a as [|x a IH]; [done|].
  change (String x ((a +:+ b) +:+ c) = String x (a +:+ (b +:+ c))).
  by rewrite IH.
Qed.

Lemma sort_Strings_elems l : sort_Strings l ≡ₚ l.
Proof. apply merge_sort_Permutation. Qed.

Lemma map_keys_perm {V} (o : map_order) (m : gmap string V) :
  map_keys o m ≡ₚ (map_to_list m).*1.
Proof. apply range_order_perm. Qed.

Lemma sorted_keys_order {V} (o o' : map_order) (m : gmap string V) :
  sort_Strings (map_keys o m) = sort_Strings (map_keys o' m).
Proof. apply sort_Strings_perm. by rewrite !map_keys_perm. Qed.

Lemma elem_of_map_keys {V} (o : map_order) (m : gmap string V) k :
  k ∈ map_keys o m <-> is_Some (m !! k).
Proof.
  rewrite map_keys_perm, list_elem_of_fmap. split.
  - intros [[k' v] [-> H]]. apply elem_of_map_to_list in H. eauto.
  - intros [v H]. exists (k, v). split; [done|]. by apply elem_of_map_to_list.
Qed.

Lemma NoDup_map_keys {V} (o : map_order) (m : gmap string V) :
  NoDup (map_keys o m).
Proof. rewrite map_keys_perm. apply NoDup_fst_map_to_list. Qed.

End GoStrFacts.
Import GoStrFacts.

(** ** Arithmetic of [int] *)

Module GoIntFacts.
Import GoInt.

Lemma wrap_in_range z : in_range (wrap z).
Proof.
  unfold in_range, wrap, min_int, max_int.
  pose proof (Z.mod_pos_bound (z + 2 ^ 63) (2 ^ 64)). lia.
Qed.

Lemma wrap_small z : in_range z -> wrap z = z.
Proof.
  unfold in_range, wrap, min_int, max_int. intros H.
  rewrite Z.mod_small; lia.
Qed.

Lemma wrap_wrap_add a b : wrap (wrap a + b) = wrap (a + b).
Proof.
  unfold wrap.
  replace ((a + 2 ^ 63) mod 2 ^ 64 - 2 ^ 63 + b + 2 ^ 63)
    with ((a + 2 ^ 63) mod 2 ^ 64 + b) by lia.
  rewrite Zplus_mod_idemp_l. f_equal. f_equal. lia.
Qed.

Lemma wrap_add_wrap a b : wrap (a + wrap b) = wrap (a + b).
Proof. rewrite (Z.add_comm a), wrap_wrap_add. f_equal. lia. Qed.

Lemma wrap_idemp a : wrap (wrap a) = wrap a.
Proof. apply wrap_small, wrap_in_range. Qed.

Lemma add_comm a b : a +i b = b +i a.
Proof. unfold add. f_equal. lia. Qed.

Lemma add_assoc a b c : (a +i b) +i c = a +i (b +i c).
Proof. unfold add. rewrite wrap_wrap_add, wrap_add_wrap. f_equal. lia. Qed.

Lemma add_swap a b c : (a +i b) +i c = (a +i c) +i b.
Proof. rewrite !add_assoc. f_equal. apply add_comm. Qed.

End GoIntFacts.

(** ** The stack folders *)

Section CollapseFacts.

Lemma writeCollapsed_order o o' m : writeCollapsed o m = writeCollapsed o' m.
Proof. unfold writeCollapsed. by rewrite (sorted_keys_order o o'). Qed.

Lemma CollapsePerf_order o o' r : CollapsePerf o r = CollapsePerf o' r.
Proof. apply writeCollapsed_order. Qed.

Lemma CollapseDtrace_order o o' r : CollapseDtrace o r = CollapseDtrace o' r.
Proof. apply writeCollapsed_order. Qed.


End CollapseFacts.

(** C6. [CollapsePerf] folds the leaf-first example, three times the same
    three frames, into the one record [funcA;funcB;funcC 3]: the second
    token of each line is the symbol, its offset is removed, the frames are
    reversed to root first, and the three equal paths are counted
    together. *)
Theorem CollapsePerf_example (o : map_order) :
  CollapsePerf o perf_example = "funcA;funcB;funcC 3" +:+ nl.
Proof. rewrite (CollapsePerf_order o order_id). by vm_compute. Qed.

Section Records.

#[local] Arguments Ascii.eqb : simpl never.

Lemma write_all_app l1 l2 : write_all (l1 ++ l2) = write_all l1 +:+ write_all l2.
Proof.
  induction l1 as [|x l1 IH]; simpl; [done|].
  by rewrite IH, append_assoc.
Qed.

Lemma text_of_lines_app l1 l2 :
  text_of_lines (l1 ++ l2) = text_of_lines l1 +:+ text_of_lines l2.
Proof. unfold text_of_lines. by rewrite map_app, write_all_app. Qed.

Lemma text_of_records {A} (f : A -> list string) rs :
  write_all (map (fun r => text_of_lines (f r)) rs)
  = text_of_lines (concat (map f rs)).
Proof.
  induction rs as [|r rs IH]; simpl; [done|].
  by rewrite text_of_lines_app, IH.
Qed.

Lemma lines_from_line cur n l rest :
  has_byte newline l = false -> 0 <= n -> n + len l < MaxScanTokenSize ->
  lines_from cur n (l +:+ nl +:+ rest)
  = rev (dropCR (String.rev_app l cur)) :: lines_from EmptyString 0 rest.
Proof.
  revert cur n. induction l as [|c l IH]; intros cur n Hl Hn Hlen.
  - reflexivity.
  - cbn [has_byte] in Hl. apply orb_false_iff in Hl as [Hc Hl].
    change (String c l +:+ nl +:+ rest) with (String c (l +:+ nl +:+ rest)).
    cbn [lines_from]. rewrite Ascii.eqb_sym, Hc.
    unfold len in *. cbn [String.length] in Hlen.
    replace (n + 1 <? MaxScanTokenSize) with true
      by (symmetry; apply Z.ltb_lt; lia).
    apply IH; [done|lia|lia].
Qed.

(** At a line that does not fit the buffer the scanner stops. *)
Lemma lines_from_long cur n l rest :
  has_byte newline l = false -> n < MaxScanTokenSize ->
  MaxScanTokenSize <= n + len l ->
  lines_from cur n (l +:+ nl +:+ rest) = [].
Proof.
  revert cur n. induction l as [|c l IH]; intros cur n Hl Hn Hlen.
  - unfold len in Hlen. simpl in Hlen. lia.
  - cbn [has_byte] in Hl. apply orb_false_iff in Hl as [Hc Hl].
    change (String c l +:+ nl +:+ rest) with (String c (l +:+ nl +:+ rest)).
    cbn [lines_from]. rewrite Ascii.eqb_sym, Hc.
    destruct (Z.ltb_spec (n + 1) MaxScanTokenSize) as [Hlt|Hge]; [|done].
    unfold len in *. cbn [String.length] in Hlen.
    apply IH; [done|lia|lia].
Qed.

Lemma text_of_lines_cons l ls :
  text_of_lines (l :: ls) = l +:+ nl +:+ text_of_lines ls.
Proof. apply append_assoc. Qed.

(** The lines the scanner yields for a text given by its lines: those
    before the first line that does not fit its buffer. *)
Lemma scan_text_of_lines_prefix ls :
  forallb (fun l => negb (has_byte newline l)) ls = true ->
  scan_lines (text_of_lines ls) = map scanned (short_prefix ls).
Proof.
  unfold scan_lines. induction ls as [|l ls IH]; [done|]. cbn [forallb].
  intros [Hl Hls]%andb_prop. apply negb_true_iff in Hl.
  rewrite text_of_lines_cons. cbn [short_prefix]. unfold short_line.
  destruct (Z.ltb_spec (len l) MaxScanTokenSize) as [Hlt|Hge].
  - rewrite lines_from_line by (done || lia). cbn [map]. by rewrite IH.
  - by rewrite lines_from_long.
Qed.

Lemma short_prefix_all ls : forallb short_line ls = true -> short_prefix ls = ls.
Proof.
  induction ls as [|l ls IH]; [done|]. cbn [forallb short_prefix].
  intros [-> Hls]%andb_prop. by rewrite IH.
Qed.

Lemma short_prefix_app a b :
  short_prefix (a ++ b)
  = if forallb short_line a then a ++ short_prefix b else short_prefix a.
Proof.
  induction a as [|l a IH]; [done|]. cbn [app forallb short_prefix].
  destruct (short_line l); [|done]. cbn [andb]. rewrite IH.
  by destruct (forallb short_line a).
Qed.

Lemma short_prefix_forallb (p : string -> bool) ls :
  forallb p ls = true -> forallb p (short_prefix ls) = true.
Proof.
  induction ls as [|l ls IH]; [done|]. cbn [forallb short_prefix].
  intros [Hl Hls]%andb_prop. destruct (short_line l); [|done].
  cbn [forallb]. by rewrite Hl, IH.
Qed.

Lemma scan_text_of_lines ls :
  forallb (fun l => negb (has_byte newline l)) ls = true ->
  forallb short_line ls = true ->
  scan_lines (text_of_lines ls) = map scanned ls.
Proof.
  intros Hnl Hs. by rewrite scan_text_of_lines_prefix, short_prefix_all.
Qed.

Lemma foldl_permutation_comm {A B} (f : B -> A -> B) (l1 l2 : list A) :
  (forall b x y, f (f b x) y = f (f b y) x) ->
  l1 ≡ₚ l2 -> forall b, foldl f b l1 = foldl f b l2.
Proof.
  intros Hf. induction 1 as [|x l1 l2 _ IH|x y l|l1 l2 l3 _ IH1 _ IH2];
    intros b; simpl.
  - done.
  - apply IH.
  - by rewrite Hf.
  - by rewrite IH1.
Qed.


(** *** Records of the leaf-first format *)

Lemma perf_line_frame m cs l :
  blank l = false ->
  perf_line (Folder m cs) (scanned l) = Folder m (cs ++ perf_frame (scanned l)).
Proof.
  unfold blank, perf_frame, perf_line. intros ->. simpl.
  destruct (HasPrefix _ _ || HasPrefix _ _); simpl; [|by rewrite app_nil_r].
  destruct (Fields _) as [|? [|??]]; simpl; by rewrite ?app_nil_r.
Qed.

Lemma perf_lines_frames m r cs :
  perf_record r = true ->
  foldl perf_line (Folder m cs) (map scanned r)
  = Folder m (cs ++ concat (map perf_frame (map scanned r))).
Proof.
  revert cs. induction r as [|l r IH]; intros cs Hr; simpl.
  - by rewrite app_nil_r.
  - simpl in Hr. apply andb_prop in Hr as [[_ Hl]%andb_prop Hr].
    apply negb_true_iff in Hl.
    rewrite perf_line_frame by done. rewrite IH by done.
    by rewrite <-app_assoc.
Qed.

Lemma perf_flush_done m cs :
  currentStack (perf_flush (Folder m cs)) = [].
Proof. unfold perf_flush. simpl. by destruct cs. Qed.

Lemma perf_records_effect rs m :
  forallb perf_record rs = true ->
  foldl perf_line (Folder m [])
        (map scanned (concat (map (fun r => (r ++ [""])%list) rs)))
  = Folder (foldl perf_effect m rs) [].
Proof.
  revert m. induction rs as [|r rs IH]; intros m Hrs; simpl; [done|].
  simpl in Hrs. apply andb_prop in Hrs as [Hr Hrs].
  rewrite !map_app, foldl_app, foldl_app. simpl.
  rewrite perf_lines_frames by done. simpl.
  change (perf_line ?st (scanned "")) with (perf_flush st).
  rewrite <-IH by done. f_equal.
  unfold perf_effect.
  destruct (perf_flush _) as [m' cs'] eqn:E. simpl.
  pose proof (perf_flush_done m (concat (map perf_frame (map scanned r)))) as H.
  rewrite E in H. simpl in H. by subst.
Qed.


Lemma no_newline_concat (rs : list (list string)) :
  forallb perf_record rs = true ->
  forallb (fun l => negb (has_byte newline l))
          (concat (map (fun r => (r ++ [""])%list) rs)) = true.
Proof.
  induction rs as [|r rs IH]; simpl; [done|].
  intros [Hr Hrs]%andb_prop. rewrite forallb_app, forallb_app. simpl.
  rewrite IH by done. rewrite !andb_true_r.
  unfold perf_record in Hr. rewrite forallb_forall in *.
  intros l Hl. specialize (Hr l Hl). by apply andb_prop in Hr as [? _].
Qed.

Lemma short_concat_perf (rs : list (list string)) :
  perf_short rs = true ->
  forallb short_line (concat (map (fun r => (r ++ [""])%list) rs)) = true.
Proof.
  unfold perf_short. induction rs as [|r rs IH]; [done|]. cbn [forallb map concat].
  intros [Hr Hrs]%andb_prop. rewrite !forallb_app. cbn [forallb].
  by rewrite Hr, IH.
Qed.

Lemma CollapsePerf_records o rs :
  forallb perf_record rs = true -> perf_short rs = true ->
  CollapsePerf o (perf_text rs) = writeCollapsed o (foldl perf_effect ∅ rs).
Proof.
  intros Hrs Hshort. unfold CollapsePerf, perf_text.
  rewrite text_of_records, scan_text_of_lines
    by (by apply no_newline_concat || by apply short_concat_perf).
  by rewrite perf_records_effect.
Qed.

(** *** Records of the root-first format *)

Lemma dtrace_lines_frames m fs cs :
  forallb (fun l => negb (has_byte newline l) && negb (blank l) && negb (count_line l))
          fs = true ->
  foldl dtrace_line (Folder m cs) (map scanned fs)
  = Folder m (cs ++ map dtrace_frame fs).
Proof.
  revert cs. induction fs as [|l fs IH]; intros cs Hfs.
  - by rewrite app_nil_r.
  - cbn [forallb] in Hfs.
    apply andb_prop in Hfs as [[[_ Hb]%andb_prop Hc]%andb_prop Hfs].
    apply negb_true_iff in Hb, Hc. cbn [map foldl].
    assert (dtrace_line (Folder m cs) (scanned l)
            = Folder m (cs ++ [dtrace_frame l])) as ->.
    { unfold dtrace_line. unfold blank in Hb. unfold count_line in Hc.
      by rewrite Hb, Hc. }
    rewrite IH by done. by rewrite <-app_assoc.
Qed.

Lemma dtrace_end_done m cs t :
  blank t || count_line t = true ->
  currentStack (dtrace_line (Folder m cs) (scanned t)) = [].
Proof.
  unfold dtrace_line, blank, count_line. intros H.
  destruct (String.eqb _ _); [by destruct cs|].
  cbn [orb] in H. rewrite H. by destruct cs.
Qed.

Lemma dtrace_records_effect rs m :
  forallb dtrace_record rs = true ->
  foldl dtrace_line (Folder m [])
        (map scanned (concat (map (fun r => (r.1 ++ [r.2])%list) rs)))
  = Folder (foldl dtrace_effect m rs) [].
Proof.
  revert m. induction rs as [|r rs IH]; intros m Hrs; [done|].
  cbn [forallb] in Hrs. apply andb_prop in Hrs as [Hr Hrs].
  unfold dtrace_record in Hr.
  apply andb_prop in Hr as [[Hfs _]%andb_prop Ht].
  cbn [map concat foldl]. rewrite !map_app, !foldl_app.
  rewrite dtrace_lines_frames by done. cbn [map foldl app].
  rewrite <-IH by done. f_equal. unfold dtrace_effect.
  pose proof (dtrace_end_done m (map dtrace_frame r.1) r.2 Ht) as H.
  destruct (dtrace_line _ _) as [m' cs']. simpl in *. by subst.
Qed.


Lemma dtrace_no_newline (rs : list (list string * string)) :
  forallb dtrace_record rs = true ->
  forallb (fun l => negb (has_byte newline l))
          (concat (map (fun r => (r.1 ++ [r.2])%list) rs)) = true.
Proof.
  induction rs as [|r rs IH]; [done|]. cbn [forallb map concat].
  intros [Hr Hrs]%andb_prop. rewrite !forallb_app. cbn [forallb].
  rewrite IH by done. rewrite !andb_true_r.
  unfold dtrace_record in Hr.
  apply andb_prop in Hr as [[Hfs Hn]%andb_prop _]. rewrite Hn, andb_true_r.
  rewrite forallb_forall in *. intros l Hl. specialize (Hfs l Hl).
  by apply andb_prop in Hfs as [[? _]%andb_prop _].
Qed.

Lemma short_concat_dtrace (rs : list (list string * string)) :
  dtrace_short rs = true ->
  forallb short_line (concat (map (fun r => (r.1 ++ [r.2])%list) rs)) = true.
Proof.
  unfold dtrace_short. induction rs as [|r rs IH]; [done|]. cbn [forallb map concat].
  intros [[Hr Ht]%andb_prop Hrs]%andb_prop. rewrite !forallb_app. cbn [forallb].
  by rewrite Hr, Ht, IH.
Qed.

Lemma CollapseDtrace_records o rs :
  forallb dtrace_record rs = true -> dtrace_short rs = true ->
  CollapseDtrace o (dtrace_text rs) = writeCollapsed o (foldl dtrace_effect ∅ rs).
Proof.
  intros Hrs Hshort. unfold CollapseDtrace, dtrace_text.
  rewrite text_of_records, scan_text_of_lines
    by (by apply dtrace_no_newline || by apply short_concat_dtrace).
  by rewrite dtrace_records_effect.
Qed.

Lemma perf_flush_idemp st : perf_flush (perf_flush st) = perf_flush st.
Proof. unfold perf_flush. destruct st as [m [|c cs]]; done. Qed.

Lemma perf_no_newline r :
  perf_record r = true -> forallb (fun l => negb (has_byte newline l)) r = true.
Proof.
  unfold perf_record. rewrite !forallb_forall. intros H l Hl.
  specialize (H l Hl). by apply andb_prop in H as [? _].
Qed.

(** A last record that no blank line follows is counted by [CollapsePerf] as
    if one did. *)
Lemma CollapsePerf_last_record o rs last :
  forallb perf_record rs = true -> perf_record last = true ->
  CollapsePerf o (perf_text rs +:+ text_of_lines last)
  = CollapsePerf o (perf_text (rs ++ [last])).
Proof.
  intros Hrs Hlast.
  pose proof (no_newline_concat rs Hrs) as Hnl.
  pose proof (perf_no_newline last Hlast) as Hnl'.
  set (L := concat (map (fun r => (r ++ [""])%list) rs)) in *.
  unfold CollapsePerf, perf_text.
  rewrite !text_of_records, <-text_of_lines_app. fold L.
  rewrite map_app, concat_app. fold L. cbn [map concat]. rewrite app_nil_r.
  rewrite (app_assoc L last [""]).
  rewrite !scan_text_of_lines_prefix
    by (rewrite ?forallb_app; by rewrite Hnl, Hnl').
  rewrite (short_prefix_app (L ++ last) [""]).
  destruct (forallb short_line (L ++ last)) eqn:E; [|done].
  rewrite (short_prefix_all _ E). cbn [short_prefix].
  change (short_line "") with true. cbv iota.
  rewrite !map_app, !foldl_app. cbn [map foldl].
  change (perf_line ?st (scanned "")) with (perf_flush st).
  by rewrite perf_flush_idemp.
Qed.

(** Frames that neither a blank line nor a count follows are lost by
    [CollapseDtrace]. *)
Lemma CollapseDtrace_last_record o rs frames :
  forallb dtrace_record rs = true ->
  forallb (fun l => negb (has_byte newline l) && negb (blank l) && negb (count_line l))
          frames = true ->
  CollapseDtrace o (dtrace_text rs +:+ text_of_lines frames)
  = CollapseDtrace o (dtrace_text rs).
Proof.
  intros Hrs Hfs.
  pose proof (dtrace_no_newline rs Hrs) as Hnl.
  assert (forallb (fun l => negb (has_byte newline l)) frames = true) as Hnl'.
  { rewrite forallb_forall in Hfs. apply forallb_forall.
    intros l Hl. specialize (Hfs l Hl).
    by apply andb_prop in Hfs as [[? _]%andb_prop _]. }
  set (L := concat (map (fun r => (r.1 ++ [r.2])%list) rs)) in *.
  unfold CollapseDtrace, dtrace_text.
  rewrite !text_of_records, <-text_of_lines_app. fold L.
  rewrite !scan_text_of_lines_prefix
    by (rewrite ?forallb_app; by rewrite ?Hnl, ?Hnl').
  rewrite short_prefix_app.
  destruct (forallb short_line L) eqn:E; [|done].
  rewrite (short_prefix_all _ E).
  rewrite map_app, foldl_app. unfold L. rewrite dtrace_records_effect by done.
  by rewrite dtrace_lines_frames by by apply short_prefix_forallb.
Qed.

Lemma forallb_perm {A} (p : A -> bool) (l l' : list A) :
  l ≡ₚ l' -> forallb p l = true -> forallb p l' = true.
Proof.
  intros E. rewrite !forallb_forall. intros H x Hx. apply H.
  apply list_elem_of_In. rewrite E. by apply list_elem_of_In.
Qed.

End Records.




(** C3. The folder of the root-first format loses the last record of a text
    that ends without a blank line or a count: [CollapseDtrace] writes
    nothing for the two frames [funcX], [funcY], although it counts them when
    a count line follows, and although [CollapsePerf] counts the last record
    of a text that ends without a blank line. In general, frames at the end
    of the text change nothing to what [CollapseDtrace] writes, whereas
    [CollapsePerf] counts them as a record. *)
Theorem CollapseDtrace_drops_last_record (o : map_order) :
  CollapseDtrace o dtrace_unterminated = "" /\
  CollapseDtrace o (dtrace_unterminated +:+ "2" +:+ nl) = "funcX;funcY 2" +:+ nl /\
  CollapsePerf o perf_unterminated = "funcA 1" +:+ nl /\
  (forall rs frames,
     forallb dtrace_record rs = true ->
     forallb (fun l => negb (has_byte newline l) && negb (blank l)
                       && negb (count_line l)) frames = true ->
     CollapseDtrace o (dtrace_text rs +:+ text_of_lines frames)
     = CollapseDtrace o (dtrace_text rs)) /\
  (forall rs last,
     forallb perf_record rs = true -> perf_record last = true ->
     CollapsePerf o (perf_text rs +:+ text_of_lines last)
     = CollapsePerf o (perf_text (rs ++ [last]))).
Proof.
  split_and!.
  - rewrite (CollapseDtrace_order o order_id). by vm_compute.
  - rewrite (CollapseDtrace_order o order_id). by vm_compute.
  - rewrite (CollapsePerf_order o order_id). by vm_compute.
  - apply CollapseDtrace_last_record.
  - apply CollapsePerf_last_record.
Qed.

(** ** Induction on trees of frames *)

Section FrameInduction.

Lemma map_fold_max_ge {V} (g : V -> nat) (m : gmap string V) k c :
  m !! k = Some c ->
  (g c <= map_fold (fun _ x acc => Nat.max (g x) acc) 0 m)%nat.
Proof.
  revert k c.
  apply (map_fold_weak_ind
           (fun r (m : gmap string V) => forall k c, m !! k = Some c -> (g c <= r)%nat)).
  - intros k c. by rewrite lookup_empty.
  - intros i x m' r Hi IH k c. rewrite lookup_insert.
    case_decide; intros Hl; simplify_eq.
    + lia.
    + specialize (IH _ _ Hl). lia.
Qed.

Lemma frame_levels_child f k c :
  children f !! k = Some c -> (frame_levels c < frame_levels f)%nat.
Proof.
  intros H. destruct f as [n v cs]. simpl in *.
  pose proof (map_fold_max_ge frame_levels cs k c H). lia.
Qed.

(** Induction on trees: a property that holds of a node whenever it holds of
    its children holds of every tree. *)
Lemma frame_ind (P : frame -> Prop) :
  (forall f, (forall k c, children f !! k = Some c -> P c) -> P f) ->
  forall f, P f.
Proof.
  intros IH f.
  remember (frame_levels f) as n eqn:Hn. revert f Hn.
  induction n as [n IHn] using lt_wf_ind. intros f ->.
  apply IH. intros k c Hc. eapply IHn; [|done].
  by eapply frame_levels_child.
Qed.

End FrameInduction.

(** ** The order of [range] does not show *)

Section OrderIndependence.
Variables o o' : map_order.

Lemma getMaxDepth_unfold p f depth :
  getMaxDepth p f depth
  = foldl (max_step ((fun child => getMaxDepth p child) <$> children f) depth)
          depth (map_keys p (children f)).
Proof. by destruct f. Qed.

Lemma max_step_comm sub depth b x y :
  max_step sub depth (max_step sub depth b x) y
  = max_step sub depth (max_step sub depth b y) x.
Proof.
  unfold max_step. destruct (sub !! x), (sub !! y); simpl; try done.
  repeat case_match; lia.
Qed.

Lemma foldl_ext_in {A B} (f g : B -> A -> B) (l : list A) b :
  (forall b x, x ∈ l -> f b x = g b x) -> foldl f b l = foldl g b l.
Proof.
  revert b. induction l as [|x l IH]; intros b H; [done|]. simpl.
  rewrite H by left. apply IH. intros. apply H. by right.
Qed.

Lemma getMaxDepth_order f : forall depth,
  getMaxDepth o f depth = getMaxDepth o' f depth.
Proof.
  induction f as [f IH] using frame_ind. intros depth.
  rewrite !getMaxDepth_unfold.
  rewrite (foldl_permutation_comm _ (map_keys o (children f))
                                    (map_keys o' (children f))).
  - apply foldl_ext_in. intros b k _. unfold max_step.
    rewrite !lookup_fmap. destruct (children f !! k) as [c|] eqn:E; [|done].
    simpl. by rewrite (IH k c E).
  - apply max_step_comm.
  - by rewrite !map_keys_perm.
Qed.

Lemma renderFrame_unfold p f x baseY width frameHeight fontSize totalSamples depth scheme :
  renderFrame p f x baseY width frameHeight fontSize totalSamples depth scheme
  = if (width <? 1) || (value f =? 0) then ""
    else
      fst (foldl
             (render_step p (children f) width (value f) baseY frameHeight
                          fontSize totalSamples depth scheme)
             (frame_text (name f) (value f) x
                         (baseY -i (depth *i frameHeight)) width frameHeight
                         totalSamples depth scheme, x)
             (sort_Strings (map_keys p (children f)))).
Proof. by destruct f. Qed.

Lemma renderFrame_order f :
  forall x baseY width frameHeight fontSize totalSamples depth scheme,
  renderFrame o f x baseY width frameHeight fontSize totalSamples depth scheme
  = renderFrame o' f x baseY width frameHeight fontSize totalSamples depth scheme.
Proof.
  induction f as [f IH] using frame_ind. intros.
  rewrite !renderFrame_unfold. case_match; [done|].
  rewrite (sorted_keys_order o o'). f_equal.
  apply foldl_ext_in. intros [out childX] k _. unfold render_step.
  rewrite !lookup_fmap. destruct (children f !! k) as [c|] eqn:E; [|done].
  simpl. by rewrite (IH k c E).
Qed.

Lemma GenerateSVG_order collapsed opts :
  GenerateSVG o collapsed opts = GenerateSVG o' collapsed opts.
Proof.
  unfold GenerateSVG. destruct (parse_collapsed collapsed) as [root total].
  case_match; [done|]. unfold svg_height, default_height.
  rewrite (getMaxDepth_order root). by rewrite renderFrame_order.
Qed.

End OrderIndependence.

(** ** The renderer *)

(** C7. Rendering is deterministic: the text [GenerateSVG] writes and the
    error it returns are functions of the folded text and of the options,
    whatever the order in which the maps of children are visited. *)
Theorem GenerateSVG_deterministic (o o' : map_order) (collapsed : string)
    (opts : SVGOptions) :
  GenerateSVG o collapsed opts = GenerateSVG o' collapsed opts.
Proof. apply GenerateSVG_order. Qed.

Section Lines.

Lemma SplitN2_cases line :
  SplitN2 line " "
  = if Index line " " <? 0 then [line] else [line_stack line; line_field line].
Proof. done. Qed.

Lemma record_count_nonzero field : record_count field <> 0.
Proof. unfold record_count. case_match eqn:E; [done|]. by apply Z.eqb_neq. Qed.

End Lines.

(** C9. The loop of [GenerateSVG] rejects no line. A line without a space
    leaves the tree and the number of samples as they are. Any other line
    is a record: the text before the first space is its stack, and its
    count is what [fmt.Sscanf] reads after the space, or [1] when that is
    no number or is [0]; so the count of a record is never [0]. The only
    error [GenerateSVG] returns is the one for a text without samples. *)
Theorem svg_line_lenient (o : map_order) (st : frame * Z) (line : string) :
  (Index line " " < 0 -> svg_line st line = st) /\
  (0 <= Index line " " ->
     let count := record_count (line_field line) in
     svg_line st line
     = (add_value (add_frames (Split (line_stack line) ";") count st.1) count,
        st.2 +i count) /\
     count <> 0 /\
     (Sscanf_d (line_field line) = None -> count = 1) /\
     (Sscanf_d (line_field line) = Some 0 -> count = 1) /\
     (forall n, Sscanf_d (line_field line) = Some n -> n <> 0 -> count = n)) /\
  (forall collapsed opts msg,
     (GenerateSVG o collapsed opts).2 = Some msg ->
     msg = no_samples /\ (parse_collapsed collapsed).2 = 0).
Proof.
  split_and!.
  - intros H. destruct st as [root total]. unfold svg_line.
    rewrite SplitN2_cases. by apply Z.ltb_lt in H as ->.
  - intros H. destruct st as [root total]. unfold svg_line.
    rewrite SplitN2_cases. apply Z.ltb_ge in H as ->. simpl.
    split_and!; [done|apply record_count_nonzero|..].
    + unfold record_count. by intros ->.
    + unfold record_count. by intros ->.
    + unfold record_count. intros n -> Hn. simpl. by apply Z.eqb_neq in Hn as ->.
  - intros collapsed opts msg. unfold GenerateSVG.
    destruct (parse_collapsed collapsed) as [root total]. simpl.
    destruct (Z.eqb_spec total 0); simpl; [|done]. by intros [= <-].
Qed.

Section Depth.
Variable o : map_order.

Lemma foldl_max_step_bounds sub depth l b :
  (forall k g, sub !! k = Some g -> GoInt.in_range (g (depth +i 1))) ->
  GoInt.in_range b ->
  b <= foldl (max_step sub depth) b l /\
  GoInt.in_range (foldl (max_step sub depth) b l).
Proof.
  intros Hsub. revert b. induction l as [|k l IH]; intros b Hb; simpl; [by split; [lia|]|].
  assert (b <= max_step sub depth b k /\ GoInt.in_range (max_step sub depth b k))
    as [Hle Hr].
  { unfold max_step. destruct (sub !! k) as [g|] eqn:E; [|by split; [lia|]]. simpl.
    specialize (Hsub k g E). case_match eqn:E'; [|by split; [lia|]].
    apply Z.ltb_lt in E'. split; [lia|done]. }
  destruct (IH _ Hr). split; [lia|done].
Qed.

(** The depth found is a depth of the tree at or below the given one, and
    an [int]. *)
Lemma getMaxDepth_bounds f : forall depth,
  GoInt.in_range depth ->
  depth <= getMaxDepth o f depth /\ GoInt.in_range (getMaxDepth o f depth).
Proof.
  induction f as [f IH] using frame_ind. intros depth Hd.
  rewrite getMaxDepth_unfold. apply foldl_max_step_bounds; [|done].
  intros k g. rewrite lookup_fmap.
  destruct (children f !! k) as [c|] eqn:E; [|done]. intros [= <-].
  apply (IH k c E). apply GoIntFacts.wrap_in_range.
Qed.

Lemma max_levels_perm l l' : l ≡ₚ l' -> max_levels l = max_levels l'.
Proof.
  induction 1 as [|c l l' _ IH|c c' l|l l' l'' _ IH1 _ IH2]; simpl; lia.
Qed.

Lemma children_of_keys (cs : gmap string frame) :
  omap (cs !!.) (map_keys o cs) ≡ₚ (map_to_list cs).*2.
Proof.
  rewrite map_keys_perm.
  assert (forall l : list (string * frame),
            Forall (fun kv => cs !! kv.1 = Some kv.2) l ->
            omap (cs !!.) l.*1 = l.*2) as H.
  { induction 1 as [|[k c] l Hk _ IH]; [done|]. simpl in Hk.
    change (omap (cs !!.) ((k, c) :: l).*1)
      with (match cs !! k with
            | Some c => c :: omap (cs !!.) l.*1
            | None => omap (cs !!.) l.*1
            end).
    by rewrite Hk, IH. }
  rewrite H; [done|].
  apply Forall_forall. intros [k c] Hin. by apply elem_of_map_to_list.
Qed.

Lemma frame_levels_children f :
  frame_levels f = S (max_levels (map_to_list (children f)).*2).
Proof.
  destruct f as [n v cs]. cbn [frame_levels children]. f_equal.
  rewrite map_fold_foldr. unfold max_levels.
  induction (map_to_list cs) as [|[k c] l IH]; [done|]. simpl. by rewrite IH.
Qed.

Lemma max_levels_ge l c : c ∈ l -> (frame_levels c <= max_levels l)%nat.
Proof.
  induction l as [|c' l IH]; intros Hin; [by apply elem_of_nil in Hin|].
  apply elem_of_cons in Hin as [->|Hin]; simpl; [lia|]. specialize (IH Hin). lia.
Qed.

Lemma foldl_max_step_levels (cs : gmap string frame) depth names : forall b,
  (forall k c, cs !! k = Some c ->
     getMaxDepth o c (depth +i 1) = depth + Z.of_nat (frame_levels c)) ->
  foldl (max_step ((fun child => getMaxDepth o child) <$> cs) depth) b names
  = Z.max b (depth + Z.of_nat (max_levels (omap (cs !!.) names)))
  \/ omap (cs !!.) names = [] /\
     foldl (max_step ((fun child => getMaxDepth o child) <$> cs) depth) b names = b.
Proof.
  intros b Hsub. revert b. induction names as [|k names IH]; intros b.
  - right. done.
  - assert (max_step ((fun child => getMaxDepth o child) <$> cs) depth b k
            = match cs !! k with
              | Some c => Z.max b (depth + Z.of_nat (frame_levels c))
              | None => b
              end) as Hstep.
    { unfold max_step. rewrite lookup_fmap.
      destruct (cs !! k) as [c|] eqn:E; cbn [fmap option_fmap option_map]; [|done].
      rewrite (Hsub k c E).
      destruct (Z.ltb_spec b (depth + Z.of_nat (frame_levels c))); lia. }
    cbn [foldl]. rewrite Hstep.
    change (omap (cs !!.) (k :: names))
      with (match cs !! k with
            | Some c => c :: omap (cs !!.) names
            | None => omap (cs !!.) names
            end).
    destruct (cs !! k) as [c|] eqn:E; [|apply IH].
    left. cbn [max_levels foldr].
    fold (max_levels (omap (cs !!.) names)).
    destruct (IH (Z.max b (depth + Z.of_nat (frame_levels c)))) as [->|[Hnil ->]].
    + lia.
    + rewrite Hnil. simpl. lia.
Qed.

(** Without overflow, [getMaxDepth] adds the number of levels below the
    node to the depth it is given. *)
Lemma getMaxDepth_levels f : forall depth,
  0 <= depth -> depth + Z.of_nat (frame_levels f) <= GoInt.max_int + 1 ->
  getMaxDepth o f depth = depth + Z.of_nat (frame_levels f) - 1.
Proof.
  induction f as [f IH] using frame_ind. intros depth Hd Hmax.
  rewrite getMaxDepth_unfold.
  pose proof (frame_levels_children f) as Hlev.
  pose proof (max_levels_perm _ _ (children_of_keys (children f))) as Hperm.
  assert (forall k c, children f !! k = Some c ->
            getMaxDepth o c (depth +i 1) = depth + Z.of_nat (frame_levels c)) as Hsub.
  { intros k c Hc. pose proof (frame_levels_child f k c Hc).
    assert (0 < frame_levels c)%nat by (destruct c; simpl; lia).
    assert (depth +i 1 = depth + 1) as ->.
    { apply GoIntFacts.wrap_small.
      unfold GoInt.in_range, GoInt.min_int, GoInt.max_int in *. lia. }
    rewrite (IH k c Hc) by lia. lia. }
  destruct (foldl_max_step_levels (children f) depth (map_keys o (children f)) depth Hsub)
    as [->|[Hnil ->]].
  - lia.
  - rewrite Hnil in Hperm. simpl in Hperm. lia.
Qed.

(** The number of levels of a tree is one more than the length of its
    longest path. *)
Lemma levels_longest_path f :
  (forall path node, node_at f path = Some node ->
     (length path < frame_levels f)%nat) /\
  (exists path node, node_at f path = Some node /\
     S (length path) = frame_levels f).
Proof.
  induction f as [f IH] using frame_ind. split.
  - intros [|k path] node; simpl.
    + intros _. destruct f. simpl. lia.
    + destruct (children f !! k) as [c|] eqn:E; [|done]. intros H.
      destruct (IH k c E) as [H1 _]. specialize (H1 path node H).
      pose proof (frame_levels_child f k c E). lia.
  - rewrite frame_levels_children.
    destruct (map_to_list (children f)) as [|[k0 c0] l0] eqn:El.
    + exists [], f. done.
    + assert (exists k c, children f !! k = Some c /\
                frame_levels c = max_levels (map_to_list (children f)).*2)
        as (k & c & E & Hmax).
      { assert (forall l : list (string * frame), l <> [] ->
                  exists kc, kc ∈ l /\ frame_levels kc.2 = max_levels l.*2) as Hl.
        { induction l as [|[k c] l IHl]; [done|]. intros _.
          destruct l as [|kc' l'].
          - exists (k, c). split; [by left|]. simpl. lia.
          - destruct IHl as ([k' c'] & Hin & Heq); [done|].
            destruct (Nat.le_gt_cases (frame_levels c) (max_levels (kc' :: l').*2)).
            + exists (k', c'). split; [by right|].
              simpl in *. rewrite Heq. lia.
            + exists (k, c). split; [by left|]. simpl in *. lia. }
        destruct (Hl (map_to_list (children f))) as ([k c] & Hin & Heq).
        { by rewrite El. }
        exists k, c. split; [by apply elem_of_map_to_list|done]. }
      rewrite <-El, <-Hmax.
      destruct (IH k c E) as [_ (path & node & Hn & Hlen)].
      exists (k :: path), node. simpl. rewrite E. split; [done|]. lia.
Qed.

End Depth.

(** C8. When [GenerateSVG] succeeds, the height of the image, written in
    its header and used for the base line of the frames, is the height
    given in the options if that is not [0], and otherwise
    [(maxDepth + 2) * frameHeight + headerHeight + 20] with [frameHeight]
    16 and [headerHeight] 40, where [maxDepth] is what [getMaxDepth] finds
    for the tree; no step of this computation leaves the range of [int]
    for a depth below [2 ^ 58], and for a tree of at most [2 ^ 58] levels
    [maxDepth] is the length of the longest path from the root. *)
Theorem GenerateSVG_height (o : map_order) (collapsed : string)
    (opts : SVGOptions) :
  let root := (parse_collapsed collapsed).1 in
  let total := (parse_collapsed collapsed).2 in
  let maxDepth := getMaxDepth o root 0 in
  let height :=
    if Height opts =? 0 then (maxDepth +i 2) *i 16 +i 40 +i 20
    else Height opts in
  total <> 0 ->
  GenerateSVG o collapsed opts
  = (svg_header (svg_width opts) height 12 (Title opts) total +:+
     renderFrame o root 10 (height -i 20) (svg_width opts -i 2 *i 10) 16 12
                 total 0 (ColorScheme opts) +:+
     "</svg>" +:+ nl, None) /\
  (maxDepth < 2 ^ 58 ->
   (maxDepth +i 2) *i 16 +i 40 +i 20 = (maxDepth + 2) * 16 + 40 + 20) /\
  (Z.of_nat (frame_levels root) <= 2 ^ 58 ->
   (forall path node, node_at root path = Some node ->
      Z.of_nat (length path) <= maxDepth) /\
   (exists path node, node_at root path = Some node /\
      Z.of_nat (length path) = maxDepth)).
Proof.
  intros root total maxDepth height Htotal. split_and!.
  - unfold GenerateSVG. subst root total height maxDepth.
    destruct (parse_collapsed collapsed) as [root total]. simpl in *.
    apply Z.eqb_neq in Htotal as ->. done.
  - intros Hsmall.
    assert (0 <= maxDepth) as Hpos.
    { apply (getMaxDepth_bounds o root 0). unfold GoInt.in_range, GoInt.min_int, GoInt.max_int. lia. }
    assert (forall z, 0 <= z < 2 ^ 63 -> GoInt.wrap z = z) as Hw.
    { intros z Hz. apply GoIntFacts.wrap_small.
      unfold GoInt.in_range, GoInt.min_int, GoInt.max_int. lia. }
    unfold GoInt.add, GoInt.mul.
    rewrite (Hw (maxDepth + 2)) by lia.
    rewrite (Hw ((maxDepth + 2) * 16)) by lia.
    rewrite (Hw ((maxDepth + 2) * 16 + 40)) by lia.
    apply Hw. lia.
  - intros Hlev.
    assert (maxDepth = Z.of_nat (frame_levels root) - 1) as ->.
    { unfold maxDepth. rewrite getMaxDepth_levels; unfold GoInt.max_int; lia. }
    destruct (levels_longest_path root) as [H1 (path & node & Hn & Hlen)]. split.
    + intros p n Hp. specialize (H1 p n Hp). lia.
    + exists path, node. split; [done|lia].
Qed.

Lemma GenerateSVG_height_witness :
  (GenerateSVG order_id tree_example DefaultSVGOptions).2 = None.
Proof.
  refine (f_equal snd (proj1 (GenerateSVG_height order_id tree_example
                                DefaultSVGOptions _))).
  by vm_compute.
Defined.

(** ** Colours *)

Section Colour.

Lemma rem_small_bounds a b : 0 <= a -> 0 < b -> 0 <= a %i b < b.
Proof. intros. unfold GoInt.rem. apply Z.rem_bound_pos; lia. Qed.

Lemma mul_small depth c :
  0 <= depth -> 0 < c <= 40 -> depth * 40 <= GoInt.max_int ->
  depth *i c = depth * c /\ 0 <= depth * c.
Proof.
  intros. unfold GoInt.mul. unfold GoInt.max_int in *.
  rewrite GoIntFacts.wrap_small; [nia|].
  unfold GoInt.in_range, GoInt.min_int, GoInt.max_int. nia.
Qed.

Lemma add_small a b :
  0 <= a <= 255 -> 0 <= b <= 255 -> a +i b = a + b.
Proof.
  intros. apply GoIntFacts.wrap_small.
  unfold GoInt.in_range, GoInt.min_int, GoInt.max_int. lia.
Qed.

(** While [depth * 40] fits an [int] the three components of
    [frameColor] lie within [0..255]. *)
Lemma frameColor_in_range (depth : Z) (scheme : string) :
  0 <= depth -> depth * 40 <= GoInt.max_int ->
  valid_rgb (frameColor depth scheme).
Proof.
  intros Hd Hmax. unfold frameColor, valid_rgb.
  destruct (mul_small depth 30 Hd ltac:(lia) Hmax) as [-> ?].
  destruct (mul_small depth 20 Hd ltac:(lia) Hmax) as [-> ?].
  destruct (mul_small depth 15 Hd ltac:(lia) Hmax) as [-> ?].
  destruct (mul_small depth 40 Hd ltac:(lia) Hmax) as [-> ?].
  pose proof (rem_small_bounds (depth * 30) 150).
  pose proof (rem_small_bounds (depth * 20) 100).
  pose proof (rem_small_bounds (depth * 15) 60).
  pose proof (rem_small_bounds (depth * 15) 55).
  pose proof (rem_small_bounds (depth * 40) 150).
  repeat case_match; simplify_eq; rewrite !add_small by lia; lia.
Qed.

Lemma frameColor_default (depth : Z) (scheme : string) :
  scheme <> "cold" -> scheme <> "mem" ->
  frameColor depth scheme = frameColor depth "hot".
Proof.
  intros Hc Hm. unfold frameColor.
  apply String.eqb_neq in Hc, Hm. by rewrite Hc, Hm.
Qed.

End Colour.


(** ** Conservation in the tree of frames *)

Section Tree.
Import GoIntFacts.

Lemma add_frames_add_value frames count node n :
  add_frames frames count (add_value node n)
  = add_value (add_frames frames count node) n.
Proof. by destruct frames. Qed.

Lemma add_frames_cons fname frames count node :
  add_frames (fname :: frames) count node
  = Frame (name node) (value node)
          (<[fname := add_path frames count (child_or_new node fname)]> (children node)).
Proof.
  cbn [add_frames]. unfold add_path, child_or_new.
  by rewrite add_frames_add_value.
Qed.

Lemma value_add_path frames count node :
  value (add_path frames count node) = value node +i count.
Proof. by destruct frames. Qed.

Lemma children_sum_unfold f :
  children_sum f = map_fold (fun _ child acc => value child + acc) 0 (children f).
Proof. done. Qed.

Lemma values_sum_insert_new (cs : gmap string frame) k c :
  cs !! k = None ->
  map_fold (fun _ child acc => value child + acc) 0 (<[k:=c]> cs)
  = value c + map_fold (fun _ child acc => value child + acc) 0 cs.
Proof. intros H. rewrite map_fold_insert_L; [done|intros; lia|done]. Qed.

Lemma values_sum_insert_old (cs : gmap string frame) k c c0 :
  cs !! k = Some c0 ->
  map_fold (fun _ child acc => value child + acc) 0 (<[k:=c]> cs)
  = value c + map_fold (fun _ child acc => value child + acc) 0 cs - value c0.
Proof.
  intros H. rewrite <-insert_delete_eq.
  rewrite values_sum_insert_new by apply lookup_delete_eq.
  rewrite (map_fold_delete_L _ _ k c0 cs); [lia|intros; lia|done].
Qed.

Lemma conserved_ext self self' nd :
  (forall p, self p = self' p) -> conserved self nd -> conserved self' nd.
Proof.
  intros E [H1 H2]. split.
  - intros path node H. rewrite <-E. by apply H1.
  - intros path H. rewrite <-E. by apply H2.
Qed.

Lemma conserved_child self nd k c :
  children nd !! k = Some c -> conserved self nd ->
  conserved (fun p => self (k :: p)) c.
Proof.
  intros Hk [H1 H2]. split.
  - intros path node H. apply H1. simpl. by rewrite Hk.
  - intros path H. apply H2. simpl. by rewrite Hk.
Qed.

Lemma conserved_new self nd k :
  children nd !! k = None -> conserved self nd ->
  conserved (fun p => self (k :: p)) (newFrame k).
Proof.
  intros Hk [H1 H2].
  assert (forall p, self (k :: p) = 0) as H0.
  { intros p. apply H2. simpl. by rewrite Hk. }
  split.
  - intros [|k' path] node; simpl.
    + intros [= <-]. rewrite H0. done.
    + by rewrite lookup_empty.
  - intros path _. apply H0.
Qed.

Lemma conserved_child_or_new self nd k :
  conserved self nd -> conserved (fun p => self (k :: p)) (child_or_new nd k).
Proof.
  unfold child_or_new. destruct (children nd !! k) eqn:E.
  - by apply conserved_child.
  - by apply conserved_new.
Qed.

Lemma children_sum_insert_path nd k frames count :
  GoInt.wrap
    (map_fold (fun _ child acc => value child + acc) 0
       (<[k := add_path frames count (child_or_new nd k)]> (children nd)))
  = GoInt.wrap (children_sum nd + count).
Proof.
  unfold children_sum, child_or_new.
  destruct (children nd !! k) as [c0|] eqn:E.
  - rewrite (values_sum_insert_old _ _ _ c0) by done.
    rewrite value_add_path. unfold GoInt.add.
    set (s := map_fold _ _ _).
    replace (GoInt.wrap (value c0 + count) + s - value c0)
      with ((s - value c0) + GoInt.wrap (value c0 + count)) by lia.
    rewrite wrap_add_wrap. f_equal. lia.
  - rewrite values_sum_insert_new by done.
    rewrite value_add_path. unfold GoInt.add. cbn [newFrame value].
    set (s := map_fold _ _ _).
    rewrite (Z.add_comm _ s), wrap_add_wrap. f_equal.
Qed.

Lemma add_path_conserved frames count : forall self nd,
  conserved self nd ->
  conserved (fun p => self p + if decide (p = frames) then count else 0)
            (add_path frames count nd).
Proof.
  induction frames as [|k frames IH]; intros self nd Hc.
  - destruct Hc as [H1 H2]. unfold add_path. cbn [add_frames]. split.
    + intros [|k path] node; cbn [node_at add_value children].
      * intros [= <-].
        change (value (add_value ?f ?n)) with (value f +i n).
        change (children_sum (add_value ?f ?n)) with (children_sum f).
        unfold GoInt.add. rewrite (H1 [] nd) by done. rewrite wrap_wrap_add.
        rewrite decide_True by done. f_equal. lia.
      * intros H. rewrite decide_False by done. rewrite Z.add_0_r.
        by apply (H1 (k :: path)).
    + intros [|k path]; cbn [node_at add_value children]; [done|].
      intros H. rewrite decide_False by done. rewrite Z.add_0_r.
      by apply (H2 (k :: path)).
  - pose proof (IH _ _ (conserved_child_or_new self nd k Hc)) as [I1 I2].
    pose proof (children_sum_insert_path nd k frames count) as Hsum.
    destruct Hc as [H1 H2]. unfold add_path. rewrite add_frames_cons.
    set (child := add_path frames count (child_or_new nd k)) in *.
    unfold add_value. cbn [name value children]. split.
    + intros [|k' path] node; cbn [node_at children].
      * intros [= <-]. unfold children_sum. cbn [value children].
        rewrite decide_False by done. rewrite Z.add_0_r.
        rewrite <-wrap_wrap_add, Hsum, wrap_wrap_add.
        unfold GoInt.add.
        rewrite (H1 [] nd) by done. rewrite wrap_wrap_add. f_equal. lia.
      * rewrite lookup_insert. case_decide as Hk.
        -- subst k'. intros H. rewrite (I1 _ _ H).
           f_equal. f_equal. f_equal. by repeat case_decide; simplify_eq.
        -- intros H. rewrite decide_False by congruence. rewrite Z.add_0_r.
           apply (H1 (k' :: path)). done.
    + intros [|k' path]; cbn [node_at children]; [done|].
      rewrite lookup_insert. case_decide as Hk.
      * subst k'. intros H. pose proof (I2 _ H).
        repeat case_decide; simplify_eq; lia.
      * intros H. rewrite decide_False by congruence. rewrite Z.add_0_r.
        apply (H2 (k' :: path)). done.
Qed.

Lemma add_small_count v B n :
  0 <= v <= B -> 0 < n -> B + n <= GoInt.max_int -> v +i n = v + n.
Proof.
  intros. apply wrap_small.
  unfold GoInt.in_range, GoInt.min_int, GoInt.max_int in *. lia.
Qed.

Lemma conserved_plain_child_or_new B self nd k :
  0 <= B -> conserved_plain B self nd ->
  conserved_plain B (fun p => self (k :: p)) (child_or_new nd k).
Proof.
  intros HB [H1 H2]. unfold child_or_new.
  destruct (children nd !! k) as [c|] eqn:E.
  - split.
    + intros path node H.
      destruct (H1 (k :: path) node) as (? & Hp & ? & ?).
      { simpl. by rewrite E. }
      split_and!; [lia|lia|intros _; by apply Hp|done..].
    + intros path H. apply H2. simpl. by rewrite E.
  - assert (forall p, self (k :: p) = 0) as H0.
    { intros p. apply H2. simpl. by rewrite E. }
    split.
    + intros [|k' path] node; simpl.
      * intros [= <-]. rewrite H0. simpl.
        split_and!; [lia|lia|done|lia|done].
      * by rewrite lookup_empty.
    + intros path _. apply H0.
Qed.

Lemma add_path_conserved_plain frames count : forall self nd B,
  0 < count -> 0 <= B -> B + count <= GoInt.max_int ->
  conserved_plain B self nd ->
  conserved_plain (B + count)
    (fun p => self p + if decide (p = frames) then count else 0)
    (add_path frames count nd).
Proof.
  induction frames as [|k frames IH]; intros self nd B Hn HB Hmax Hc.
  - destruct Hc as [H1 H2]. unfold add_path. cbn [add_frames]. split.
    + intros [|k path] node; cbn [node_at add_value children].
      * intros [= <-].
        change (value (add_value ?f ?n)) with (value f +i n).
        change (children_sum (add_value ?f ?n)) with (children_sum f).
        destruct (H1 [] nd) as (Hv & _ & Hs & Heq); [done|].
        rewrite (add_small_count _ B) by done.
        rewrite decide_True by done. split_and!; [lia|lia|done|lia|lia].
      * intros H. rewrite decide_False by done. rewrite Z.add_0_r.
        destruct (H1 (k :: path) node H) as (? & ? & ? & ?).
        split_and!; [lia|lia|done..].
    + intros [|k path]; cbn [node_at add_value children]; [done|].
      intros H. rewrite decide_False by done. rewrite Z.add_0_r.
      by apply (H2 (k :: path)).
  - pose proof (conserved_plain_child_or_new B self nd k HB Hc) as Hchild.
    pose proof (IH _ _ B Hn HB Hmax Hchild) as [I1 I2].
    assert (0 <= value (child_or_new nd k) <= B) as Hv0.
    { destruct Hchild as [C1 _]. by destruct (C1 [] (child_or_new nd k)) as (? & _). }
    assert (map_fold (fun _ child acc => value child + acc) 0
              (<[k := add_path frames count (child_or_new nd k)]> (children nd))
            = children_sum nd + count) as Hsum.
    { unfold children_sum. unfold child_or_new in *.
      destruct (children nd !! k) as [c0|] eqn:E.
      - rewrite (values_sum_insert_old _ _ _ c0) by done.
        rewrite value_add_path, (add_small_count _ B) by done. lia.
      - rewrite values_sum_insert_new by done.
        rewrite value_add_path, (add_small_count _ B) by done.
        cbn [newFrame value]. lia. }
    destruct Hc as [H1 H2]. unfold add_path. rewrite add_frames_cons.
    set (child := add_path frames count (child_or_new nd k)) in *.
    unfold add_value. cbn [name value children]. split.
    + intros [|k' path] node; cbn [node_at children].
      * intros [= <-]. unfold children_sum at 1. cbn [value children].
        rewrite decide_False by done. rewrite Z.add_0_r, Hsum.
        destruct (H1 [] nd) as (Hv & _ & Hs & Heq); [done|].
        rewrite (add_small_count _ B) by done.
        split_and!; [lia|lia|done|lia|lia].
      * rewrite lookup_insert. case_decide as Hk.
        -- subst k'. intros H. destruct (I1 _ _ H) as (Hv & Hp & Hs & Heq).
           assert (0 < value node) as Hpos.
           { destruct path as [|k' path]; [|by apply Hp].
             simpl in H. injection H as <-. subst child.
             rewrite value_add_path, (add_small_count _ B) by done. lia. }
           split_and!; [lia|lia|done| |].
           ++ repeat case_decide; simplify_eq; lia.
           ++ rewrite Heq. repeat case_decide; simplify_eq; lia.
        -- intros H. rewrite decide_False by congruence. rewrite Z.add_0_r.
           destruct (H1 (k' :: path) node) as (? & ? & ? & ?); [done|].
           split_and!; [lia|lia|done..].
    + intros [|k' path]; cbn [node_at children]; [done|].
      rewrite lookup_insert. case_decide as Hk.
      * subst k'. intros H. pose proof (I2 _ H).
        repeat case_decide; simplify_eq; lia.
      * intros H. rewrite decide_False by congruence. rewrite Z.add_0_r.
        apply (H2 (k' :: path)). done.
Qed.

Lemma svg_line_record root total line :
  svg_line (root, total) line
  = match svg_record line with
    | Some (frames, count) => (add_path frames count root, total +i count)
    | None => (root, total)
    end.
Proof.
  unfold svg_line, svg_record. rewrite SplitN2_cases.
  by destruct (Index line " " <? 0).
Qed.

Lemma count_sum_app rs rs' : count_sum (rs ++ rs') = count_sum rs + count_sum rs'.
Proof.
  unfold count_sum. induction rs as [|r rs IH]; simpl; [done|].
  rewrite IH. lia.
Qed.

Lemma ending_snoc rs frames count path :
  ending (rs ++ [(frames, count)]) path
  = ending rs path + if decide (path = frames) then count else 0.
Proof.
  unfold ending. rewrite filter_app, count_sum_app. f_equal.
  rewrite filter_cons, filter_nil. simpl.
  repeat case_decide; simplify_eq; simpl; lia.
Qed.

Lemma conserved_init : conserved (ending []) (newFrame "root").
Proof.
  split.
  - intros [|k path] node; simpl.
    + by intros [= <-].
    + by rewrite lookup_empty.
  - done.
Qed.

Lemma parse_invariant lines : forall root total rs,
  conserved (ending rs) root ->
  value root = GoInt.wrap (count_sum rs) ->
  total = value root ->
  let st := foldl svg_line (root, total) lines in
  let rs' := rs ++ omap svg_record lines in
  conserved (ending rs') st.1 /\
  value st.1 = GoInt.wrap (count_sum rs') /\
  st.2 = value st.1.
Proof.
  induction lines as [|line lines IH]; intros root total rs Hc Hv Ht.
  - simpl. by rewrite app_nil_r.
  - cbn [foldl]. rewrite svg_line_record.
    change (omap svg_record (line :: lines))
      with (match svg_record line with
            | Some y => y :: omap svg_record lines
            | None => omap svg_record lines
            end).
    destruct (svg_record line) as [[frames count]|] eqn:E.
    + replace (rs ++ (frames, count) :: omap svg_record lines)
        with ((rs ++ [(frames, count)]) ++ omap svg_record lines)
        by by rewrite <-app_assoc.
      apply IH.
      * eapply conserved_ext; [|by apply add_path_conserved].
        intros p. simpl. by rewrite ending_snoc.
      * rewrite value_add_path, count_sum_app, Hv. unfold GoInt.add.
        rewrite wrap_wrap_add. unfold count_sum. simpl. f_equal. lia.
      * rewrite value_add_path. by subst.
    + by apply IH.
Qed.

Lemma conserved_plain_ext B self self' nd :
  (forall p, self p = self' p) -> conserved_plain B self nd ->
  conserved_plain B self' nd.
Proof.
  intros E [H1 H2]. split.
  - intros path node H. rewrite <-E. by apply H1.
  - intros path H. rewrite <-E. by apply H2.
Qed.

Lemma conserved_plain_init : conserved_plain 0 (ending []) (newFrame "root").
Proof.
  split.
  - intros [|k path] node; simpl.
    + intros [= <-]. simpl. by split_and!.
    + by rewrite lookup_empty.
  - done.
Qed.

Lemma count_sum_nonneg rs : Forall (fun r => 0 < r.2) rs -> 0 <= count_sum rs.
Proof. induction 1; simpl; lia. Qed.

Lemma parse_invariant_plain lines : forall root total rs,
  Forall (fun r => 0 < r.2) (omap svg_record lines) ->
  0 <= count_sum rs ->
  count_sum rs + count_sum (omap svg_record lines) <= GoInt.max_int ->
  conserved_plain (count_sum rs) (ending rs) root ->
  let st := foldl svg_line (root, total) lines in
  let rs' := rs ++ omap svg_record lines in
  conserved_plain (count_sum rs') (ending rs') st.1.
Proof.
  induction lines as [|line lines IH]; intros root total rs Hpos H0 Hmax Hc.
  - simpl. by rewrite app_nil_r.
  - cbn [foldl]. rewrite svg_line_record.
    change (omap svg_record (line :: lines))
      with (match svg_record line with
            | Some y => y :: omap svg_record lines
            | None => omap svg_record lines
            end) in *.
    destruct (svg_record line) as [[frames count]|] eqn:E.
    + apply Forall_cons in Hpos as [Hcount Hpos]. simpl in Hcount.
      pose proof (count_sum_nonneg _ Hpos) as Hrest.
      change (count_sum ((frames, count) :: ?l)) with (count + count_sum l) in Hmax.
      replace (rs ++ (frames, count) :: omap svg_record lines)
        with ((rs ++ [(frames, count)]) ++ omap svg_record lines)
        by by rewrite <-app_assoc.
      assert (count_sum (rs ++ [(frames, count)]) = count_sum rs + count) as Hs.
      { rewrite count_sum_app. unfold count_sum. simpl. lia. }
      apply IH; [done|lia|lia|]. rewrite Hs.
      eapply conserved_plain_ext; [|apply add_path_conserved_plain; [done|done|lia|done]].
      intros p. simpl. by rewrite ending_snoc.
    + by apply IH.
Qed.

(** The tree of a text whose counts are positive and add up within the
    range of [int]. *)
Lemma built_tree_plain collapsed :
  Forall (fun r => 0 < r.2) (svg_records collapsed) ->
  count_sum (svg_records collapsed) <= GoInt.max_int ->
  conserved_plain (count_sum (svg_records collapsed))
                  (ending (svg_records collapsed)) (parse_collapsed collapsed).1.
Proof.
  intros Hpos Hmax.
  apply (parse_invariant_plain (scan_lines collapsed) (newFrame "root") 0 []);
    [done|done|done|apply conserved_plain_init].
Qed.

Lemma node_at_snoc f path k :
  node_at f (path ++ [k])
  = match node_at f path with
    | Some node => children node !! k
    | None => None
    end.
Proof.
  revert f. induction path as [|k' path IH]; intros f; simpl.
  - by destruct (children f !! k).
  - destruct (children f !! k'); [apply IH|done].
Qed.



End Tree.




(** ** Arithmetic of [float64] on integers below [2 ^ 53]

    Such integers are binary64 numbers; their products below [2 ^ 53] are
    computed exactly, and the integer part of the quotient of two of them
    is their integer quotient. *)

Module F64Facts.

Abbreviation prec := 53 (only parsing).
Abbreviation emax := 1024 (only parsing).

Lemma digits2_pos_size p : digits2_pos p = Pos.size p.
Proof. induction p; simpl; congruence. Qed.

Lemma Zdigits2_pos z : 0 < z -> 0 < Zdigits2 z.
Proof. destruct z; simpl; lia. Qed.

Lemma Zdigits2_bounds z :
  0 < z -> 2 ^ (Zdigits2 z - 1) <= z < 2 ^ Zdigits2 z.
Proof.
  destruct z as [|p|p]; try lia. intros _. simpl Zdigits2.
  rewrite digits2_pos_size.
  pose proof (Pos.size_gt p) as Hgt. pose proof (Pos.size_le p) as Hle.
  apply Pos2Z.pos_lt_pos in Hgt. apply Pos2Z.pos_le_pos in Hle.
  rewrite Pos2Z.inj_pow in Hgt, Hle. change (Z.pos 2) with 2 in *.
  assert (2 ^ Z.pos (Pos.size p) = 2 * 2 ^ (Z.pos (Pos.size p) - 1)) as E.
  { rewrite <-Z.pow_succ_r by lia. f_equal. lia. }
  lia.
Qed.

Lemma Zdigits2_unique z d :
  2 ^ (d - 1) <= z < 2 ^ d -> 0 < d -> Zdigits2 z = d.
Proof.
  intros [Hlo Hhi] Hd.
  assert (0 < z) as Hz. { pose proof (Z.pow_pos_nonneg 2 (d - 1)). lia. }
  pose proof (Zdigits2_bounds z Hz) as [Hlo' Hhi'].
  pose proof (Zdigits2_pos z Hz).
  destruct (Z.lt_trichotomy (Zdigits2 z) d) as [H1|[H1|H1]]; [|assumption|].
  - assert (2 ^ Zdigits2 z <= 2 ^ (d - 1)) by (apply Z.pow_le_mono_r; lia). lia.
  - assert (2 ^ d <= 2 ^ (Zdigits2 z - 1)) by (apply Z.pow_le_mono_r; lia). lia.
Qed.

Lemma Zdigits2_shift z k :
  0 < z -> 0 <= k -> Zdigits2 (z * 2 ^ k) = Zdigits2 z + k.
Proof.
  intros Hz Hk. pose proof (Zdigits2_bounds z Hz) as [Hlo Hhi].
  pose proof (Zdigits2_pos z Hz).
  apply Zdigits2_unique; [|lia].
  replace (Zdigits2 z + k - 1) with (Zdigits2 z - 1 + k) by lia.
  rewrite !Z.pow_add_r by lia.
  pose proof (Z.pow_pos_nonneg 2 k). nia.
Qed.

Lemma pos_iter_xO m d : Z.pos (Pos.iter xO m d) = Z.pos m * 2 ^ Z.pos d.
Proof.
  revert m. induction d using Pos.peano_ind; intros m.
  - rewrite Pos.iter_succ_r || idtac. simpl. lia.
  - rewrite Pos.iter_succ, Pos2Z.inj_xO, IHd, Pos2Z.inj_succ, Z.pow_succ_r by lia. lia.
Qed.

Lemma fexp_normal e : -1021 <= e -> fexp prec emax e = e - 53.
Proof. intros H. unfold fexp, emin. lia. Qed.

Lemma shr_1_even m : 0 <= m ->
  shr_1 (Build_shr_record (m * 2) false false) = Build_shr_record m false false.
Proof.
  intros Hm. destruct m as [|p|p]; [reflexivity| |lia].
  replace (Z.pos p * 2) with (Z.pos p~0) by lia. reflexivity.
Qed.

Lemma iter_shr_exact p : forall m, 0 <= m ->
  SpecFloat.iter_pos shr_1 p (Build_shr_record (m * 2 ^ Z.pos p) false false)
  = Build_shr_record m false false.
Proof.
  induction p as [p IH|p IH|]; intros m Hm; cbn [SpecFloat.iter_pos].
  - replace (m * 2 ^ Z.pos p~1) with ((m * 2 ^ Z.pos p * 2 ^ Z.pos p) * 2).
    2:{ replace (Z.pos p~1) with (Z.pos p + Z.pos p + 1) by lia.
        rewrite !Z.pow_add_r by lia. rewrite Z.pow_1_r. ring. }
    pose proof (Z.pow_pos_nonneg 2 (Z.pos p)).
    rewrite shr_1_even by nia. rewrite IH by nia. apply IH. lia.
  - replace (m * 2 ^ Z.pos p~0) with (m * 2 ^ Z.pos p * 2 ^ Z.pos p).
    2:{ replace (Z.pos p~0) with (Z.pos p + Z.pos p) by lia.
        rewrite Z.pow_add_r by lia. ring. }
    pose proof (Z.pow_pos_nonneg 2 (Z.pos p)).
    rewrite IH by nia. apply IH. lia.
  - rewrite Z.pow_1_r. apply shr_1_even. lia.
Qed.

Lemma shr_exact m n e : 0 <= m -> 0 <= n ->
  shr (Build_shr_record (m * 2 ^ n) false false) e n
  = (Build_shr_record m false false, e + n).
Proof.
  intros Hm Hn. unfold shr. destruct n as [|p|p]; [|..|lia].
  - rewrite Z.pow_0_r, Z.mul_1_r, Z.add_0_r. reflexivity.
  - rewrite iter_shr_exact by lia. reflexivity.
Qed.

(** Rounding an exact multiple of a 53-digit mantissa. *)
Lemma binary_round_aux_exact s m n e :
  Zdigits2 (Z.pos m) = 53 -> 0 <= n -> -1074 <= e + n <= 971 ->
  binary_round_aux prec emax s (Z.pos m * 2 ^ n) e loc_Exact
  = S754_finite s m (e + n).
Proof.
  intros Hd Hn He. unfold binary_round_aux, shr_fexp.
  rewrite Zdigits2_shift by lia. rewrite Hd.
  rewrite fexp_normal by lia.
  replace (53 + n + e - 53 - e) with n by lia.
  cbn [shr_record_of_loc]. rewrite shr_exact by lia.
  cbn [shr_m loc_of_shr_record round_nearest_even].
  rewrite Hd. rewrite fexp_normal by lia.
  replace (53 + (e + n) - 53 - (e + n)) with 0 by lia.
  cbn [shr_record_of_loc shr shr_m].
  replace (e + n <=? 1024 - 53) with true; [reflexivity|].
  symmetry. apply Z.leb_le. lia.
Qed.

Lemma Zdigits2_le53 n : 0 < n < 2 ^ 53 -> 1 <= Zdigits2 n <= 53.
Proof.
  intros [Hn Hlt]. pose proof (Zdigits2_bounds n Hn) as [Hlo _].
  pose proof (Zdigits2_pos n Hn). split; [lia|].
  destruct (Z.le_gt_cases (Zdigits2 n) 53) as [|Hgt]; [assumption|].
  assert (2 ^ 53 <= 2 ^ (Zdigits2 n - 1)) by (apply Z.pow_le_mono_r; lia). lia.
Qed.

Lemma normal53_digits n m :
  0 < n < 2 ^ 53 -> Z.pos m = n * 2 ^ (53 - Zdigits2 n) -> Zdigits2 (Z.pos m) = 53.
Proof.
  intros Hn ->. pose proof (Zdigits2_le53 n Hn).
  rewrite Zdigits2_shift by lia. lia.
Qed.

Lemma of_int_exact n :
  0 < n < 2 ^ 53 -> normal53 n (binary_normalize prec emax n 0 false).
Proof.
  intros Hn. pose proof (Zdigits2_le53 n Hn) as Hd.
  destruct n as [|p|p]; [lia| |lia].
  unfold binary_normalize, binary_round.
  change (Z.pos (digits2_pos p)) with (Zdigits2 (Z.pos p)).
  rewrite Z.add_0_r, fexp_normal by lia.
  unfold shl_align. rewrite Z.sub_0_r.
  destruct (Zdigits2 (Z.pos p) - 53) as [|k|k] eqn:E; [|lia|].
  - assert (Zdigits2 (Z.pos p) = 53) as Hd53 by lia.
    exists p. rewrite Hd53. split.
    + replace (Z.pos p) with (Z.pos p * 2 ^ 0) at 1 by (rewrite Z.pow_0_r; lia).
      rewrite binary_round_aux_exact by lia. reflexivity.
    + rewrite Z.pow_0_r. lia.
  - exists (Pos.iter xO p k).
    assert (Z.pos (Pos.iter xO p k) = Z.pos p * 2 ^ (53 - Zdigits2 (Z.pos p))) as Hm.
    { rewrite pos_iter_xO. f_equal. f_equal. lia. }
    split; [|exact Hm].
    replace (Z.pos (Pos.iter xO p k)) with (Z.pos (Pos.iter xO p k) * 2 ^ 0)
      by (rewrite Z.pow_0_r; lia).
    rewrite binary_round_aux_exact.
    + f_equal. lia.
    + eapply normal53_digits; [exact Hn|exact Hm].
    + lia.
    + lia.
Qed.

Lemma Zdigits2_mul a b :
  0 < a -> 0 < b -> Zdigits2 a + Zdigits2 b - 1 <= Zdigits2 (a * b).
Proof.
  intros Ha Hb.
  pose proof (Zdigits2_bounds a Ha) as [Hla _].
  pose proof (Zdigits2_bounds b Hb) as [Hlb _].
  pose proof (Zdigits2_pos a Ha). pose proof (Zdigits2_pos b Hb).
  assert (0 < a * b) as Hab by nia.
  pose proof (Zdigits2_bounds (a * b) Hab) as [_ Hh].
  destruct (Z.le_gt_cases (Zdigits2 a + Zdigits2 b - 1) (Zdigits2 (a * b)))
    as [|Hgt]; [assumption|].
  assert (2 ^ Zdigits2 (a * b) <= 2 ^ (Zdigits2 a - 1 + (Zdigits2 b - 1))) as H1.
  { apply Z.pow_le_mono_r; lia. }
  rewrite Z.pow_add_r in H1 by lia.
  pose proof (Z.pow_pos_nonneg 2 (Zdigits2 a - 1)).
  pose proof (Z.pow_pos_nonneg 2 (Zdigits2 b - 1)). nia.
Qed.

Lemma mul_exact a b x y :
  0 < a -> 0 < b -> a * b < 2 ^ 53 ->
  normal53 a x -> normal53 b y -> normal53 (a * b) (SFmul prec emax x y).
Proof.
  intros Ha Hb Hab (ma & -> & Hma) (mb & -> & Hmb).
  assert (a < 2 ^ 53) by nia. assert (b < 2 ^ 53) by nia.
  pose proof (Zdigits2_le53 a ltac:(lia)) as Hda.
  pose proof (Zdigits2_le53 b ltac:(lia)) as Hdb.
  pose proof (Zdigits2_le53 (a * b) ltac:(nia)) as Hd.
  pose proof (Zdigits2_mul a b Ha Hb) as Hdm.
  set (da := Zdigits2 a) in *. set (db := Zdigits2 b) in *.
  set (d := Zdigits2 (a * b)) in *.
  assert (0 < a * b * 2 ^ (53 - d)) as Hpos.
  { pose proof (Z.pow_pos_nonneg 2 (53 - d)). nia. }
  destruct (a * b * 2 ^ (53 - d)) as [|m|m] eqn:Em; [lia| |lia].
  exists m. fold d. split; [|by rewrite Em].
  unfold SFmul. cbn [xorb].
  assert (Z.pos (ma * mb) = Z.pos m * 2 ^ (53 + d - da - db)) as ->.
  { rewrite Pos2Z.inj_mul, Hma, Hmb, <-Em.
    replace (a * 2 ^ (53 - da) * (b * 2 ^ (53 - db)))
      with (a * b * (2 ^ (53 - da) * 2 ^ (53 - db))) by ring.
    rewrite <-!Z.mul_assoc. f_equal. f_equal.
    rewrite <-!Z.pow_add_r by lia. f_equal. lia. }
  rewrite binary_round_aux_exact.
  - f_equal. lia.
  - rewrite <-Em. subst d. rewrite Zdigits2_shift by lia. lia.
  - lia.
  - lia.
Qed.

Lemma trunc_shiftl m e : F64.trunc (S754_finite false m e) = Z.shiftl (Z.pos m) e.
Proof.
  unfold F64.trunc. destruct (Z.leb_spec 0 e).
  - by rewrite Z.shiftl_mul_pow2.
  - by rewrite Z.shiftl_div_pow2 by lia.
Qed.

Lemma round_nearest_even_cases m l :
  round_nearest_even m l = m \/ round_nearest_even m l = m + 1.
Proof. destruct l as [|[]]; simpl; try destruct (Z.even m); auto. Qed.

(** The last step of [binary_round_aux]: a mantissa of 53 digits is kept,
    [2 ^ 53] is renormalised. *)
Lemma round_finish m1 e1 :
  2 ^ 52 <= m1 <= 2 ^ 53 -> -1074 <= e1 <= 970 ->
  exists z,
    (let '(mrs, e) := shr_fexp prec emax m1 e1 loc_Exact in
     match shr_m mrs with
     | Z0 => S754_zero false
     | Zpos m => if e <=? emax - prec then S754_finite false m e
                 else S754_infinity false
     | _ => S754_nan
     end) = z /\ F64.is_finite z = true /\ F64.trunc z = Z.shiftl m1 e1.
Proof.
  intros Hm He. unfold shr_fexp.
  destruct (Z.eq_dec m1 (2 ^ 53)) as [->|Hne].
  - assert (Zdigits2 (2 ^ 53) = 54) as -> by reflexivity.
    rewrite fexp_normal by lia.
    replace (54 + e1 - 53 - e1) with 1 by lia. cbn [shr_record_of_loc].
    change (2 ^ 53) with (2 ^ 52 * 2 ^ 1) at 1.
    rewrite shr_exact by lia. cbn [shr_m].
    change (2 ^ 52) with (Z.pos (2 ^ 52)%positive).
    replace (e1 + 1 <=? 1024 - 53) with true by (symmetry; apply Z.leb_le; lia).
    eexists. split; [reflexivity|]. split; [reflexivity|].
    rewrite trunc_shiftl.
    change (2 ^ 53) with (Z.shiftl (Z.pos (2 ^ 52)%positive) 1).
    rewrite Z.shiftl_shiftl by lia. f_equal. lia.
  - assert (Zdigits2 m1 = 53) as Hd by (apply Zdigits2_unique; lia).
    rewrite Hd, fexp_normal by lia.
    replace (53 + e1 - 53 - e1) with 0 by lia. cbn [shr_record_of_loc shr shr_m].
    destruct m1 as [|p1|p1]; [lia| |lia].
    replace (e1 <=? 1024 - 53) with true by (symmetry; apply Z.leb_le; lia).
    eexists. split; [reflexivity|]. split; [reflexivity|]. apply trunc_shiftl.
Qed.

(** Rounding a quotient of 53 or 54 digits. *)
Lemma binary_round_aux_quotient q e l :
  2 ^ 52 <= q < 2 ^ 54 -> -1074 <= e <= 969 ->
  exists m1 e1 z,
    binary_round_aux prec emax false q e l = z /\
    F64.is_finite z = true /\ F64.trunc z = Z.shiftl m1 e1 /\
    ((q < 2 ^ 53 /\ e1 = e /\ (m1 = q \/ m1 = q + 1)) \/
     (2 ^ 53 <= q /\ e1 = e + 1 /\
      (m1 = q / 2 \/ (m1 = q / 2 + 1 /\ Z.odd q = true)))).
Proof.
  intros Hq He. unfold binary_round_aux.
  destruct (Z.lt_ge_cases q (2 ^ 53)) as [Hlt|Hge].
  - assert (Zdigits2 q = 53) as Hd by (apply Zdigits2_unique; lia).
    unfold shr_fexp at 1. rewrite Hd, fexp_normal by lia.
    replace (53 + e - 53 - e) with 0 by lia. cbn [shr].
    assert (shr_m (shr_record_of_loc q l) = q) as -> by by destruct l as [|[]].
    set (m1 := round_nearest_even q _).
    assert (m1 = q \/ m1 = q + 1) as Hm1 by apply round_nearest_even_cases.
    destruct (round_finish m1 e) as (z & -> & Hf & Ht); [lia..|].
    exists m1, e, z. split_and!; [done..|]. left. done.
  - assert (Zdigits2 q = 54) as Hd by (apply Zdigits2_unique; lia).
    unfold shr_fexp at 1. rewrite Hd, fexp_normal by lia.
    replace (54 + e - 53 - e) with 1 by lia.
    change (shr ?r e 1) with (shr_1 r, e + 1). lazy beta iota.
    set (mrs := shr_1 (shr_record_of_loc q l)).
    set (m1 := round_nearest_even (shr_m mrs) (loc_of_shr_record mrs)).
    assert (m1 = q / 2 \/ (m1 = q / 2 + 1 /\ Z.odd q = true)) as Hm1.
    { subst m1 mrs. destruct q as [|[p|p|]|]; try lia.
      - assert (Z.pos p~1 / 2 = Z.pos p) as ->.
        { rewrite Pos2Z.inj_xI. symmetry. apply (Z.div_unique _ _ _ 1); lia. }
        destruct l as [|[]]; cbn -[Z.even Z.add];
          try destruct (Z.even (Z.pos p)); auto.
      - assert (Z.pos p~0 / 2 = Z.pos p) as ->.
        { rewrite Pos2Z.inj_xO. symmetry. apply (Z.div_unique _ _ _ 0); lia. }
        destruct l as [|[]]; cbn -[Z.even Z.add]; auto. }
    assert (2 ^ 52 <= q / 2 < 2 ^ 53) as Hq2.
    { split; [apply Z.div_le_lower_bound; lia|apply Z.div_lt_upper_bound; lia]. }
    destruct (round_finish m1 (e + 1)) as (z & -> & Hf & Ht); [lia..|].
    exists m1, (e + 1), z. split_and!; [done..|]. right. done.
Qed.

Lemma div_step x P : 0 <= x -> 0 < P -> (x + 1) mod P <> 0 -> (x + 1) / P = x / P.
Proof.
  intros Hx HP Hmod.
  pose proof (Z.div_mod x P ltac:(lia)) as E.
  pose proof (Z.mod_pos_bound x P HP) as Hv.
  destruct (Z.eq_dec (x mod P + 1) P) as [Heq|Hne].
  - exfalso. apply Hmod.
    replace (x + 1) with ((x / P + 1) * P) by lia.
    apply Z.mod_mul. lia.
  - symmetry. apply (Z.div_unique _ _ _ (x mod P + 1)); lia.
Qed.

Lemma no_carry a p K D P q :
  0 < a -> 0 < p -> 0 < D < K -> 0 < P -> D * P = p * K -> q = (a * K) / D ->
  (q + 1) mod P <> 0.
Proof.
  intros Ha Hp HD HP HK -> Hmod.
  set (q := a * K / D) in *.
  apply Z.mod_divide in Hmod; [|lia]. destruct Hmod as [k Hk].
  pose proof (Z.div_mod (a * K) D ltac:(lia)) as E. fold q in E.
  pose proof (Z.mod_pos_bound (a * K) D ltac:(lia)) as Hr.
  assert (0 <= q) as Hq0 by (apply Z.div_pos; nia).
  assert ((q + 1) * D = k * p * K) as E2 by (rewrite Hk; nia).
  assert (a * K < k * p * K) as H1 by lia.
  assert (a < k * p) as H2 by nia.
  assert ((a + 1) * K <= k * p * K) as H3 by nia.
  nia.
Qed.

Lemma div_trunc a p x y :
  0 < a < 2 ^ 53 -> 0 < p < 2 ^ 53 -> normal53 a x -> normal53 p y ->
  exists z, SFdiv prec emax x y = z /\ F64.is_finite z = true /\ F64.trunc z = a / p.
Proof.
  intros Ha Hp (ma & -> & Hma) (mp & -> & Hmp).
  pose proof (normal53_digits a ma Ha Hma) as Hdma.
  pose proof (normal53_digits p mp Hp Hmp) as Hdmp.
  pose proof (Zdigits2_le53 a Ha) as Hda.
  pose proof (Zdigits2_le53 p Hp) as Hdp.
  set (da := Zdigits2 a) in *. set (dp := Zdigits2 p) in *.
  unfold SFdiv, SFdiv_core_binary. cbv zeta. cbn [xorb].
  rewrite Hdma, Hdmp.
  replace (53 + (da - 53) - (53 + (dp - 53))) with (da - dp) by lia.
  rewrite fexp_normal by lia.
  replace (da - 53 - (dp - 53)) with (da - dp) by lia.
  rewrite Z.min_l by lia.
  replace (da - dp - (da - dp - 53)) with 53 by lia.
  rewrite Z.shiftl_mul_pow2 by lia.
  set (K := 2 ^ (106 - da)). set (E := 53 + dp - da).
  assert (0 < K) as HK by (apply Z.pow_pos_nonneg; lia).
  assert (2 ^ 53 <= K) as HK53 by (apply Z.pow_le_mono_r; lia).
  assert (0 < 2 ^ E) as HP by (apply Z.pow_pos_nonneg; lia).
  assert (Z.pos ma * 2 ^ 53 = a * K) as HN.
  { rewrite Hma. subst K. rewrite <-Z.mul_assoc, <-Z.pow_add_r by lia.
    f_equal. f_equal. lia. }
  assert (Z.pos mp * 2 ^ E = p * K) as HD.
  { rewrite Hmp. subst K E. rewrite <-Z.mul_assoc, <-Z.pow_add_r by lia.
    f_equal. f_equal. lia. }
  pose proof (Zdigits2_bounds (Z.pos ma) ltac:(lia)) as Hbma.
  pose proof (Zdigits2_bounds (Z.pos mp) ltac:(lia)) as Hbmp.
  rewrite Hdma in Hbma. rewrite Hdmp in Hbmp.
  change (2 ^ (53 - 1)) with (2 ^ 52) in *.
  rewrite HN.
  destruct (Z.div_eucl (a * K) (Z.pos mp)) as [q r] eqn:Eqr.
  assert (q = a * K / Z.pos mp) as Hq by (unfold Z.div; by rewrite Eqr).
  assert (2 ^ 52 <= q < 2 ^ 54) as Hqb.
  { rewrite Hq, <-HN. split.
    - apply Z.div_le_lower_bound; lia.
    - apply Z.div_lt_upper_bound; lia. }
  destruct (binary_round_aux_quotient q (da - dp - 53) (new_location (Z.pos mp) r))
    as (m1 & e1 & z & -> & Hf & Ht & Hcases); [lia..|].
  exists z. split; [done|]. split; [done|]. rewrite Ht.
  pose proof (no_carry a p K (Z.pos mp) (2 ^ E) q ltac:(lia) ltac:(lia)
                ltac:(lia) HP HD Hq) as Hnc.
  assert (a / p = q / 2 ^ E) as ->.
  { rewrite Hq, Z.div_div, HD by lia. symmetry. apply Z.div_mul_cancel_r; lia. }
  destruct Hcases as [(_ & -> & Hm1)|(Hge & -> & Hm1)].
  - rewrite Z.shiftl_div_pow2 by lia.
    replace (- (da - dp - 53)) with E by lia.
    destruct Hm1 as [->| ->]; [done|]. apply div_step; [lia|done|done].
  - rewrite Z.shiftl_div_pow2 by lia.
    replace (- (da - dp - 53 + 1)) with (E - 1) by lia.
    assert (0 < 2 ^ (E - 1)) as HP1 by (apply Z.pow_pos_nonneg; lia).
    assert (2 ^ E = 2 * 2 ^ (E - 1)) as HE.
    { rewrite <-Z.pow_succ_r by lia. f_equal. lia. }
    assert (q / 2 ^ E = q / 2 / 2 ^ (E - 1)) as ->.
    { rewrite HE, Z.div_div by lia. done. }
    destruct Hm1 as [->|[-> Hodd]]; [done|].
    apply div_step; [apply Z.div_pos; lia|done|].
    intros Hmod. apply Hnc.
    apply Z.mod_divide in Hmod; [|lia]. destruct Hmod as [k Hk].
    assert (q = 2 * (q / 2) + 1) as Hq2.
    { rewrite (Z.div_mod q 2) at 1 by lia. f_equal.
      rewrite Zmod_odd, Hodd. done. }
    replace (q + 1) with (k * 2 ^ E) by lia.
    apply Z.mod_mul. lia.
Qed.


End F64Facts.

(** ** The layout of the children *)

Section Layout.
Import F64Facts.

(** Below [2 ^ 53] the width of a child is the integer share, at least one
    pixel. *)
Lemma childWidth_floor width v p :
  0 < width -> 0 < v -> 0 < p < 2 ^ 53 -> width * v < 2 ^ 53 ->
  childWidth width v p = Z.max 1 (width * v / p).
Proof.
  intros Hw Hv Hp Hwv.
  assert (width < 2 ^ 53) by nia. assert (v < 2 ^ 53) by nia.
  pose proof (of_int_exact width ltac:(lia)) as Nw.
  pose proof (of_int_exact v ltac:(lia)) as Nv.
  pose proof (of_int_exact p ltac:(lia)) as Np.
  pose proof (mul_exact width v _ _ Hw Hv Hwv Nw Nv) as Nwv.
  destruct (div_trunc (width * v) p _ _ ltac:(nia) Hp Nwv Np)
    as (z & Ez & Hf & Ht).
  unfold childWidth, F64.to_int, F64.div, F64.mul, F64.of_int, F64.prec, F64.emax.
  rewrite Ez, Hf, Ht.
  assert (0 <= width * v / p) as Hq0 by (apply Z.div_pos; nia).
  assert (width * v / p <= width * v) as Hq1.
  { apply Z.div_le_upper_bound; nia. }
  replace (GoInt.min_int <=? width * v / p) with true
    by (symmetry; apply Z.leb_le; unfold GoInt.min_int; lia).
  replace (width * v / p <=? GoInt.max_int) with true
    by (symmetry; apply Z.leb_le; unfold GoInt.max_int; lia).
  cbn [andb]. destruct (Z.ltb_spec (width * v / p) 1); lia.
Qed.

Lemma append_nil_r (s : string) : s +:+ "" = s.
Proof.
  induction s as [|c s IH]; [done|].
  change (String c (s +:+ "") = String c s). by rewrite IH.
Qed.

(** [renderFrame] writes the frame, then the children of [child_slots],
    each at its place. *)
Lemma render_fold o cs width fv baseY frameHeight fontSize totalSamples depth scheme names :
  forall out childX,
  (foldl (render_step o cs width fv baseY frameHeight fontSize totalSamples
                      depth scheme) (out, childX) names).1
  = out +:+
    write_all
      (map (fun s : frame * Z * Z =>
              renderFrame o s.1.1 s.1.2 baseY s.2 frameHeight fontSize
                          totalSamples (depth +i 1) scheme)
           (place_children cs width fv names childX)).
Proof.
  induction names as [|name names IH]; intros out childX.
  - cbn. by rewrite append_nil_r.
  - cbn [foldl place_children]. unfold render_step at 2.
    rewrite lookup_fmap. destruct (cs !! name) as [child|]; cbn [fmap option_fmap option_map].
    + rewrite IH. cbn [map write_all foldr fst snd]. by rewrite append_assoc.
    + apply IH.
Qed.

Lemma renderFrame_children o f x baseY width frameHeight fontSize totalSamples depth scheme :
  1 <= width -> value f <> 0 ->
  renderFrame o f x baseY width frameHeight fontSize totalSamples depth scheme
  = frame_text (name f) (value f) x (baseY -i (depth *i frameHeight)) width
               frameHeight totalSamples depth scheme +:+
    write_all
      (map (fun s : frame * Z * Z =>
              renderFrame o s.1.1 s.1.2 baseY s.2 frameHeight fontSize
                          totalSamples (depth +i 1) scheme)
           (child_slots o f x width)).
Proof.
  intros Hw Hv. rewrite renderFrame_unfold.
  replace (width <? 1) with false by (symmetry; apply Z.ltb_ge; lia).
  replace (value f =? 0) with false by (symmetry; by apply Z.eqb_neq).
  cbn [orb]. apply render_fold.
Qed.

Lemma sum_values_perm l l' : l ≡ₚ l' -> sum_values l = sum_values l'.
Proof.
  induction 1 as [|c l l' _ IH|c c' l|l l' l'' _ IH1 _ IH2]; simpl; lia.
Qed.

Lemma slots_children cs width fv names x :
  (place_children cs width fv names x).*1.*1 = omap (cs !!.) names.
Proof.
  revert x. induction names as [|name names IH]; intros x; [done|].
  cbn [place_children].
  change (omap (cs !!.) (name :: names))
    with (match cs !! name with
          | Some c => c :: omap (cs !!.) names
          | None => omap (cs !!.) names
          end).
  destruct (cs !! name); [|apply IH]. rewrite !fmap_cons. cbn [fst]. f_equal. apply IH.
Qed.

Lemma slots_widths cs width fv names x :
  (place_children cs width fv names x).*2
  = map (fun c => childWidth width (value c) fv) (omap (cs !!.) names).
Proof.
  revert x. induction names as [|name names IH]; intros x; [done|].
  cbn [place_children].
  change (omap (cs !!.) (name :: names))
    with (match cs !! name with
          | Some c => c :: omap (cs !!.) names
          | None => omap (cs !!.) names
          end).
  destruct (cs !! name); [|apply IH]. rewrite fmap_cons. cbn [snd map]. f_equal. apply IH.
Qed.

Lemma omap_lookup_keys (cs : gmap string frame) (l : list (string * frame)) :
  Forall (fun kv => cs !! kv.1 = Some kv.2) l -> omap (cs !!.) l.*1 = l.*2.
Proof.
  induction 1 as [|[k c] l Hk _ IH]; [done|]. simpl in Hk.
  change (omap (cs !!.) ((k, c) :: l).*1)
    with (match cs !! k with
          | Some c => c :: omap (cs !!.) l.*1
          | None => omap (cs !!.) l.*1
          end).
  rewrite Hk, IH. done.
Qed.

Lemma ordered_children_perm o (cs : gmap string frame) :
  omap (cs !!.) (sort_Strings (map_keys o cs)) ≡ₚ (map_to_list cs).*2.
Proof.
  rewrite sort_Strings_elems, map_keys_perm.
  rewrite omap_lookup_keys; [done|].
  apply Forall_forall. intros [k c] H. by apply elem_of_map_to_list.
Qed.

Lemma children_sum_values f :
  children_sum f = sum_values (map_to_list (children f)).*2.
Proof.
  unfold children_sum. rewrite map_fold_foldr. unfold sum_values.
  induction (map_to_list (children f)) as [|[k c] l IH]; [done|].
  simpl. by rewrite IH.
Qed.

Lemma ordered_children_in o (cs : gmap string frame) c :
  c ∈ omap (cs !!.) (sort_Strings (map_keys o cs)) -> exists k, cs !! k = Some c.
Proof.
  rewrite ordered_children_perm. intros [[k c'] [-> H]]%list_elem_of_fmap.
  exists k. by apply elem_of_map_to_list.
Qed.

Lemma sum_values_ge l c :
  Forall (fun c => 0 < value c) l -> c ∈ l -> value c <= sum_values l.
Proof.
  induction 1 as [|c' l Hc' Hl IH]; intros Hin.
  - by apply elem_of_nil in Hin.
  - assert (0 <= sum_values l).
    { clear -Hl. induction Hl; simpl; lia. }
    apply elem_of_cons in Hin as [->|Hin]; simpl; [lia|]. specialize (IH Hin). lia.
Qed.

(** The integer shares add up to at most the width. *)
Lemma floors_bound width V l :
  0 < V -> total_width (map (fun c => width * value c / V) l) * V
           <= width * sum_values l.
Proof.
  intros HV. induction l as [|c l IH]; simpl; [lia|].
  pose proof (Z.mul_div_le (width * value c) V HV). nia.
Qed.

Lemma floors_exact width V l :
  0 < V -> Forall (fun c => (V | width * value c)) l ->
  total_width (map (fun c => width * value c / V) l) * V = width * sum_values l.
Proof.
  intros HV. induction 1 as [|c l [k Hk] _ IH]; simpl; [lia|].
  rewrite Hk, Z.div_mul by lia. nia.
Qed.

Lemma total_width_clamped {A} (g : A -> Z) (l : list A) :
  Forall (fun c => 0 <= g c) l ->
  total_width (map (fun c => Z.max 1 (g c)) l)
  <= total_width (map g l) + Z.of_nat (length l).
Proof. induction 1 as [|c l Hc _ IH]; simpl length; simpl; lia. Qed.

Lemma map_unclamped {A} (g : A -> Z) (l : list A) :
  Forall (fun c => 1 <= g c) l ->
  map (fun c => Z.max 1 (g c)) l = map g l.
Proof.
  induction 1 as [|c l Hc _ IH]; [done|]. simpl. rewrite IH. f_equal. lia.
Qed.

Lemma map_childWidth_floor width V l :
  0 < width -> 0 < V < 2 ^ 53 ->
  Forall (fun c => 0 < value c /\ width * value c < 2 ^ 53) l ->
  map (fun c => childWidth width (value c) V) l
  = map (fun c => Z.max 1 (width * value c / V)) l.
Proof.
  intros Hw HV. induction 1 as [|c l [Hc Hb] _ IH]; [done|]. simpl.
  rewrite IH. f_equal. by apply childWidth_floor.
Qed.

Lemma place_children_floor cs width V names : forall x,
  0 < width -> 0 < V < 2 ^ 53 ->
  Forall (fun c => 0 < value c /\ width * value c < 2 ^ 53) (omap (cs !!.) names) ->
  Forall (fun s : frame * Z * Z => s.2 = Z.max 1 (width * value s.1.1 / V))
         (place_children cs width V names x).
Proof.
  induction names as [|name names IH]; intros x Hw HV Hall; [constructor|].
  cbn [place_children].
  change (omap (cs !!.) (name :: names))
    with (match cs !! name with
          | Some c => c :: omap (cs !!.) names
          | None => omap (cs !!.) names
          end) in Hall.
  destruct (cs !! name) as [c|]; [|by apply IH].
  apply Forall_cons in Hall as [[Hc Hb] Hall]. constructor; [|by apply IH].
  by apply childWidth_floor.
Qed.

End Layout.

(** The widths of the children of a frame whose value is positive and at
    least the sum of the positive values of its children. *)
Lemma child_widths_of_frame (o : map_order) (f : frame) (x width : Z) :
  1 <= width -> 0 < value f -> width * value f < 2 ^ 53 ->
  map_Forall (fun _ child => 0 < value child) (children f) ->
  children_sum f <= value f ->
  let slots := child_slots o f x width in
  Forall (fun s : frame * Z * Z =>
            s.2 = Z.max 1 (width * value s.1.1 / value f)) slots /\
  total_width slots.*2 <= width + Z.of_nat (length slots) /\
  (map_Forall (fun _ child => value f <= width * value child) (children f) ->
   total_width slots.*2 <= width) /\
  (map_Forall (fun _ child => (value f | width * value child)) (children f) ->
   children_sum f = value f -> total_width slots.*2 = width).
Proof.
  intros Hw HV Hb Hpos Hsum slots.
  set (V := value f) in *. set (cs := children f) in *.
  set (cl := omap (cs !!.) (sort_Strings (map_keys o cs))).
  assert (V < 2 ^ 53) as HV53 by nia.
  assert (sum_values cl = children_sum f) as Hcl.
  { rewrite children_sum_values. apply sum_values_perm, ordered_children_perm. }
  assert (Forall (fun c => 0 < value c) cl) as Hcpos.
  { apply Forall_forall. intros c [k Hk]%ordered_children_in. by apply (Hpos k). }
  assert (Forall (fun c => 0 < value c /\ width * value c < 2 ^ 53) cl) as Hcb.
  { apply Forall_forall. intros c Hc. rewrite Forall_forall in Hcpos.
    split; [by apply Hcpos|].
    pose proof (sum_values_ge cl c ltac:(by apply Forall_forall) Hc). nia. }
  assert (slots.*2 = map (fun c => Z.max 1 (width * value c / V)) cl) as Hwidths.
  { unfold slots, child_slots. rewrite slots_widths.
    apply map_childWidth_floor; [lia|lia|done]. }
  assert (length slots = length cl) as Hlen.
  { rewrite <-(length_fmap snd slots), Hwidths. by rewrite length_map. }
  assert (total_width (map (fun c => width * value c / V) cl) <= width) as Hfloors.
  { pose proof (floors_bound width V cl HV). nia. }
  split_and!.
  - apply place_children_floor; [lia|lia|done].
  - rewrite Hwidths, Hlen.
    etrans; [apply total_width_clamped|lia].
    apply Forall_forall. intros c Hc. rewrite Forall_forall in Hcpos.
    specialize (Hcpos c Hc). apply Z.div_pos; nia.
  - intros Hshare. rewrite Hwidths, map_unclamped; [done|].
    apply Forall_forall. intros c [k Hk]%ordered_children_in.
    specialize (Hshare k c Hk). simpl in Hshare.
    apply Z.div_le_lower_bound; lia.
  - intros Hdiv Heq. rewrite Hwidths, map_unclamped.
    + assert (Forall (fun c => (V | width * value c)) cl) as Hd.
      { apply Forall_forall. intros c [k Hk]%ordered_children_in.
        by apply (Hdiv k c). }
      pose proof (floors_exact width V cl HV Hd). nia.
    + apply Forall_forall. intros c Hc.
      destruct (ordered_children_in o cs c Hc) as [k Hk].
      destruct (Hdiv k c Hk) as [j Hj]. simpl in Hj.
      rewrite Forall_forall in Hcpos. specialize (Hcpos c Hc).
      rewrite Hj, Z.div_mul by lia. nia.
Qed.

(** C2, as the code has it. Take a folded text whose counts are positive, a
    node of its tree that [renderFrame] draws (its value is not [0]) with
    a width of at least one pixel, the product of the width and of the
    number of samples being below [2 ^ 53] (so that the arithmetic in
    [float64] is exact). Then the rectangle of every child has width
    [max 1 (floor (width * child.value / node.value))]; the widths of the
    children add up to at most the width of the node plus the number of
    children; they add up to at most the width of the node when the share
    of every child is at least one pixel; and they add up to exactly that
    width when moreover the values of the children add up to the value of
    the node and every share is a whole number of pixels. *)
Theorem child_widths_conserved (o : map_order) (collapsed : string)
    (path : list string) (node : frame) (x width : Z) :
  let root := (parse_collapsed collapsed).1 in
  let rs := svg_records collapsed in
  Forall (fun r => 0 < r.2) rs ->
  node_at root path = Some node ->
  1 <= width -> value node <> 0 -> width * count_sum rs < 2 ^ 53 ->
  let slots := child_slots o node x width in
  Forall (fun s : frame * Z * Z =>
            s.2 = Z.max 1 (width * value s.1.1 / value node)) slots /\
  total_width slots.*2 <= width + Z.of_nat (length slots) /\
  (map_Forall (fun _ child => value node <= width * value child) (children node) ->
   total_width slots.*2 <= width) /\
  (map_Forall (fun _ child => (value node | width * value child)) (children node) ->
   children_sum node = value node -> total_width slots.*2 = width).
Proof.
  intros root rs Hpos Hnode Hw Hv Hb.
  pose proof (count_sum_nonneg rs Hpos) as Hrs.
  assert (count_sum rs <= GoInt.max_int) as Hmax.
  { unfold GoInt.max_int. nia. }
  destruct (built_tree_plain collapsed Hpos Hmax) as [P1 _]. fold rs root in P1.
  destruct (P1 path node Hnode) as (Hval & _ & Hself & Heq).
  apply child_widths_of_frame; [done|lia|nia| |lia].
  intros k c Hc. simpl.
  destruct (P1 (path ++ [k]) c) as (_ & Hcp & _).
  { by rewrite node_at_snoc, Hnode. }
  apply Hcp. by destruct path.
Qed.

Lemma child_widths_conserved_witness :
  total_width (child_slots order_id (parse_collapsed siblings_example).1 10 1180).*2
  <= 1180.
Proof.
  refine (proj1 (proj2 (proj2 (child_widths_conserved order_id siblings_example
            [] (parse_collapsed siblings_example).1 10 1180 _ _ _ _ _))) _).
  - apply (bool_decide_unpack _). by vm_compute.
  - reflexivity.
  - lia.
  - by vm_compute.
  - by vm_compute.
  - apply (bool_decide_unpack _). by vm_compute.
Defined.

(** The claim C2 as stated fails whenever children are widened to the
    minimum of one pixel: in an image 21 pixels wide the root is 1 pixel
    wide, and its two children, of equal values, are drawn 1 pixel wide
    each, side by side. *)
Lemma child_widths_counterexample :
  let root := (parse_collapsed siblings_example).1 in
  let width := svg_width {| Title := ""; Width := 21; Height := 0; ColorScheme := "" |}
               -i 2 *i 10 in
  width = 1 /\ value root = 2 /\
  child_slots order_id root 10 width
  = [(Frame "a" 1 ∅, 10, 1); (Frame "b" 1 ∅, 11, 1)] /\
  ~ total_width (child_slots order_id root 10 width).*2 <= width.
Proof.
  split_and!; [by vm_compute..|].
  assert (total_width (child_slots order_id (parse_collapsed siblings_example).1 10
            (svg_width {| Title := ""; Width := 21; Height := 0; ColorScheme := "" |}
             -i 2 *i 10)).*2 = 2) as -> by by vm_compute.
  assert (svg_width {| Title := ""; Width := 21; Height := 0; ColorScheme := "" |}
          -i 2 *i 10 = 1) as -> by by vm_compute.
  lia.
Qed.

(** ** Errors *)



(** * Further properties of the renderer and of the folders *)

(** ** Colours of adjacent depths *)

Section ColourCycle.

Lemma rem_as_mod a b : 0 <= a -> 0 < b -> a %i b = a mod b.
Proof. intros. unfold GoInt.rem. apply Z.rem_mod_nonneg; lia. Qed.

End ColourCycle.

(** X1. As long as the multiples of the depth fit an [int], two frames at
    adjacent depths never get the same colour, whatever the scheme, and the
    colours come back in a cycle: every 4 depths for [mem], every 5 for
    [cold], every 165 for [hot] and for any scheme
    that is neither [cold] nor [mem]. *)
Theorem frameColor_cycle (depth : Z) (scheme : string) :
  0 <= depth -> (depth + 165) * 40 <= GoInt.max_int ->
  frameColor (depth +i 1) scheme <> frameColor depth scheme /\
  frameColor (depth +i 4) "mem" = frameColor depth "mem" /\
  frameColor (depth +i 5) "cold" = frameColor depth "cold" /\
  (scheme <> "cold" -> scheme <> "mem" ->
   frameColor (depth +i 165) scheme = frameColor depth scheme).
Proof.
  intros Hd Hmax. unfold GoInt.max_int in Hmax.
  assert (forall k, 0 <= k <= 165 -> depth +i k = depth + k) as Hk.
  { intros k Hk. apply GoIntFacts.wrap_small.
    unfold GoInt.in_range, GoInt.min_int, GoInt.max_int. lia. }
  assert (forall d c, 0 <= d <= depth + 165 -> 0 < c <= 40 ->
            d *i c = d * c /\ 0 <= d * c) as Hm.
  { intros d c Hdd Hc. split; [|nia]. apply GoIntFacts.wrap_small.
    unfold GoInt.in_range, GoInt.min_int, GoInt.max_int. nia. }
  assert (forall a b, 0 <= a <= 255 -> 0 <= b <= 255 -> a +i b = a + b) as Ha.
  { intros. apply GoIntFacts.wrap_small.
    unfold GoInt.in_range, GoInt.min_int, GoInt.max_int. lia. }
  rewrite !Hk by lia. unfold frameColor.
  assert (forall d c b, 0 <= d <= depth + 165 -> 0 < c <= 40 -> 0 < b <= 200 ->
            forall base, 0 <= base <= 200 ->
            base +i (d *i c) %i b = base + (d * c) mod b) as Hc.
  { intros d c b Hdd Hcc Hb base Hbase.
    destruct (Hm d c Hdd Hcc) as [-> H0].
    rewrite rem_as_mod by lia.
    pose proof (Z.mod_pos_bound (d * c) b ltac:(lia)).
    apply Ha; lia. }
  split_and!.
  - destruct (String.eqb scheme "cold"), (String.eqb scheme "mem");
      rewrite !Hc by lia; intros [=]; Z.div_mod_to_equations; lia.
  - rewrite !Hc by lia. simpl. do 2 f_equal. f_equal.
    Z.div_mod_to_equations; lia.
  - rewrite !Hc by lia. simpl. f_equal; [f_equal|]; f_equal;
      Z.div_mod_to_equations; lia.
  - assert (forall c b, 0 < b -> (165 * c) mod b = 0 ->
              ((depth + 165) * c) mod b = (depth * c) mod b) as Hp.
    { intros c b Hb H0. rewrite Z.mul_add_distr_r, Z.add_mod, H0, Z.add_0_r by lia.
      apply Z.mod_mod; lia. }
    intros Hcold Hmem.
    apply String.eqb_neq in Hcold, Hmem. rewrite Hcold, Hmem.
    rewrite !Hc by lia. rewrite !Hp by (lia || reflexivity). reflexivity.
Qed.

Lemma frameColor_cycle_witness :
  frameColor (3 +i 1) "hot" <> frameColor 3 "hot".
Proof.
  refine (proj1 (frameColor_cycle 3 "hot" _ _)).
  - lia.
  - by vm_compute.
Defined.

(** ** Labels *)

Module GoStrLen.
Import GoStr.

Lemma length_app (a b : string) :
  String.length (a +:+ b) = (String.length a + String.length b)%nat.
Proof.
  induction a as [|c a IH]; [done|].
  change (S (String.length (a +:+ b)) = S (String.length a + String.length b)).
  by rewrite IH.
Qed.

Lemma length_take n s :
  (n <= String.length s)%nat -> String.length (take n s) = n.
Proof.
  revert s. induction n as [|n IH]; intros [|c s] H; simpl in *; try done; try lia.
  rewrite IH; lia.
Qed.

Lemma len_nil s : len s = 0 <-> s = "".
Proof. unfold len. destruct s; simpl; split; (done || lia). Qed.

End GoStrLen.

(** X2. A frame wider than 40 pixels gets a label of at most
    [(width - 4) / 7] bytes: the name itself when it fits, and otherwise its
    first [(width - 4) / 7 - 2] bytes followed by two dots, which fills the
    room exactly. The label is empty only for the empty name, so the test
    that the label is not empty only skips frames without a name. *)
Theorem frame_label_fits (name : string) (width : Z) :
  40 < width -> width <= GoInt.max_int ->
  let maxChars := (width - 4) / 7 in
  let label := frame_label name width in
  GoStr.len label <= maxChars /\
  (GoStr.len name <= maxChars -> label = name) /\
  (maxChars < GoStr.len name ->
   label = GoStr.take (Z.to_nat (maxChars - 2)) name +:+ ".." /\
   GoStr.len label = maxChars) /\
  (label = "" <-> name = "").
Proof.
  intros Hw Hmax maxChars label. unfold GoInt.max_int in Hmax.
  assert ((width -i 4) /i 7 = maxChars) as Hq.
  { unfold GoInt.sub, GoInt.quot.
    rewrite (GoIntFacts.wrap_small (width - 4))
      by (unfold GoInt.in_range, GoInt.min_int, GoInt.max_int; lia).
    rewrite Z.quot_div_nonneg by lia.
    apply GoIntFacts.wrap_small.
    unfold GoInt.in_range, GoInt.min_int, GoInt.max_int, maxChars.
    split; [apply (Z.le_trans _ 0); [lia|apply Z.div_pos; lia]|].
    apply (Z.le_trans _ (width - 4)); [apply Z.div_le_upper_bound; lia|lia]. }
  assert (5 <= maxChars) as H5.
  { unfold maxChars. apply Z.div_le_lower_bound; lia. }
  assert (maxChars <= 2 ^ 63) as Hb.
  { unfold maxChars.
    apply (Z.le_trans _ (width - 4)); [apply Z.div_le_upper_bound; lia|lia]. }
  assert (maxChars -i 2 = maxChars - 2) as Hs.
  { apply GoIntFacts.wrap_small.
    unfold GoInt.in_range, GoInt.min_int, GoInt.max_int. lia. }
  subst label. unfold frame_label. rewrite Hq, Hs.
  destruct (Z.ltb_spec maxChars (GoStr.len name)) as [Hlt|Hge].
  - assert ((3 <? maxChars) = true) as -> by (apply Z.ltb_lt; lia).
    assert (GoStr.len
              (GoStr.take (Z.to_nat (maxChars - 2)) name +:+ "..") = maxChars)
      as Hlen.
    { unfold GoStr.len in *. rewrite GoStrLen.length_app, GoStrLen.length_take by lia.
      simpl. lia. }
    split_and!; try done; try lia.
    split; intros E.
    + rewrite E in Hlen. unfold GoStr.len in Hlen. simpl in Hlen. lia.
    + subst name. unfold GoStr.len in Hlt. simpl in Hlt. lia.
  - split_and!; try done; lia.
Qed.

Lemma frame_label_fits_witness :
  GoStr.len (frame_label "runtime.mallocgc" 60) <= (60 - 4) / 7.
Proof.
  refine (proj1 (frame_label_fits "runtime.mallocgc" 60 _ _)).
  - lia.
  - by vm_compute.
Defined.

(** ** Function names: offsets and modules *)

Module GoStrIndex.
Import GoStr.

#[local] Arguments Ascii.eqb : simpl never.

Lemma index_from_shift c s i :
  index_from i c s = if has_byte c s then i + index_from 0 c s else -1.
Proof.
  revert i. induction s as [|d s IH]; intros i; [done|].
  cbn [index_from has_byte]. destruct (Ascii.eqb c d); cbn [orb]; [lia|].
  rewrite (IH (i + 1)), (IH (0 + 1)). destruct (has_byte c s); lia.
Qed.

(** The first occurrence splits the string. *)
Lemma Index_found c s :
  has_byte c s = true ->
  exists a b, s = a +:+ String c b /\ has_byte c a = false /\
              Index s c = len a.
Proof.
  unfold Index. induction s as [|d s IH]; [done|].
  cbn [index_from has_byte]. destruct (Ascii.eqb_spec c d) as [->|Hne]; cbn [orb].
  - intros _. by exists "", s.
  - intros Hs. destruct (IH Hs) as (a & b & -> & Ha & Hi).
    exists (String d a), b. split_and!; [done| |].
    + cbn [has_byte]. by rewrite (proj2 (Ascii.eqb_neq c d) Hne).
    + rewrite index_from_shift, Hi.
      assert (has_byte c (a +:+ String c b) = true) as ->.
      { clear. induction a as [|e a IH]; cbn [has_byte].
        - change ("" +:+ String c b) with (String c b). cbn [has_byte].
          by rewrite Ascii.eqb_refl.
        - change (String e a +:+ String c b) with (String e (a +:+ String c b)).
          cbn [has_byte]. rewrite IH. by destruct (Ascii.eqb c e). }
      unfold len. simpl. lia.
Qed.

Lemma has_byte_app c a b : has_byte c (a +:+ b) = has_byte c a || has_byte c b.
Proof.
  induction a as [|e a IH]; [done|].
  change (has_byte c (String e (a +:+ b)) =
          has_byte c (String e a) || has_byte c b).
  cbn [has_byte]. rewrite IH. by destruct (Ascii.eqb c e).
Qed.

Lemma Index_app c a b :
  has_byte c a = false -> Index (a +:+ String c b) c = len a.
Proof.
  unfold Index. induction a as [|e a IH]; intros Ha.
  - change ("" +:+ String c b) with (String c b). cbn [index_from].
    by rewrite Ascii.eqb_refl.
  - change (String e a +:+ String c b) with (String e (a +:+ String c b)).
    cbn [has_byte] in Ha. cbn [index_from].
    destruct (Ascii.eqb c e); [done|]. rewrite index_from_shift, IH by done.
    rewrite has_byte_app. cbn [has_byte]. rewrite Ascii.eqb_refl, orb_true_r.
    unfold len. simpl. lia.
Qed.

Lemma Index_absent c s : has_byte c s = false <-> Index s c = -1.
Proof.
  unfold Index. rewrite index_from_shift. split; [by intros ->|].
  destruct (has_byte c s) eqn:E; [|done].
  destruct (Index_found c s E) as (a & b & _ & _ & Hi). unfold Index in Hi.
  rewrite Hi. unfold len. lia.
Qed.

Lemma take_app a b : take (String.length a) (a +:+ b) = a.
Proof.
  induction a as [|c a IH]; [by destruct b|].
  change (String c (take (String.length a) (a +:+ b)) = String c a).
  by rewrite IH.
Qed.

Lemma drop_app a b : drop (String.length a) (a +:+ b) = b.
Proof. induction a as [|c a IH]; [by destruct b|]. exact IH. Qed.

Lemma prefix_app a b : String.prefix a (a +:+ b) = true.
Proof.
  induction a as [|c a IH]; [by destruct b|].
  change (String.prefix (String c a) (String c (a +:+ b)) = true).
  cbn [String.prefix]. by destruct (ascii_dec c c).
Qed.

Lemma prefix_refl a : String.prefix a a = true.
Proof.
  induction a as [|c a IH]; [done|].
  cbn [String.prefix]. by destruct (ascii_dec c c).
Qed.

End GoStrIndex.

Section Offsets.
Import GoStr GoStrIndex.

(** What [strip_offset] does, by the place of the first [+]. *)
Lemma strip_offset_cases (f : string) :
  (has_byte "+" f = false /\ strip_offset f = f) \/
  (exists a b, f = a +:+ String "+" b /\ has_byte "+" a = false /\
               strip_offset f = if decide (a = "") then f else a).
Proof.
  destruct (has_byte "+" f) eqn:E.
  - right. destruct (Index_found _ _ E) as (a & b & -> & Ha & Hi).
    exists a, b. split_and!; try done.
    unfold strip_offset. rewrite Hi. unfold len. rewrite Nat2Z.id.
    destruct a as [|c a]; [done|].
    replace (0 <? Z.of_nat (String.length (String c a))) with true
      by (symmetry; apply Z.ltb_lt; simpl; lia).
    rewrite take_app. by rewrite decide_False.
  - left. split; [done|]. unfold strip_offset.
    by rewrite (proj1 (Index_absent _ _) E).
Qed.

Lemma strip_offset_id (g : string) : Index g "+" <= 0 -> strip_offset g = g.
Proof.
  intros Hg. unfold strip_offset.
  by replace (0 <? Index g "+") with false by (symmetry; apply Z.ltb_ge; lia).
Qed.

Lemma strip_offset_named (a b : string) :
  a <> "" -> Index a "+" = -1 -> strip_offset (a +:+ "+" +:+ b) = a.
Proof.
  intros Hne Ha. apply Index_absent in Ha. unfold strip_offset.
  change (a +:+ "+" +:+ b) with (a +:+ String "+" b).
  rewrite Index_app by done. unfold len. rewrite Nat2Z.id.
  replace (0 <? Z.of_nat (String.length a)) with true
    by (symmetry; apply Z.ltb_lt; destruct a; [done|simpl; lia]).
  apply take_app.
Qed.

End Offsets.

(** X3. Removing the offset of a function name cuts the name at its first
    [+], unless that [+] is the first byte. A name with no [+] is kept; a
    name that begins with [+] is kept whole, with every other [+] and the
    offset it has, as [+[NSString alloc]+0x5c] is; of any other name the
    bytes before the first [+] are kept, and no [+] is left in them, so
    that of [name+offset], when the name is not empty and has no [+],
    exactly the name is kept. What is kept is a prefix of the name, and
    removing the offset twice changes nothing more. *)
Theorem strip_offset_spec (f : string) :
  (GoStr.Index f "+" = -1 -> strip_offset f = f) /\
  (GoStr.Index f "+" = 0 -> strip_offset f = f) /\
  (forall b, strip_offset ("+" +:+ b) = "+" +:+ b) /\
  strip_offset "+[NSString alloc]+0x5c" = "+[NSString alloc]+0x5c" /\
  (0 < GoStr.Index f "+" ->
   strip_offset f = GoStr.take (Z.to_nat (GoStr.Index f "+")) f /\
   has_byte "+" (strip_offset f) = false) /\
  (forall a b, a <> "" -> GoStr.Index a "+" = -1 -> f = a +:+ "+" +:+ b ->
               strip_offset f = a) /\
  GoStr.Index (strip_offset f) "+" <= 0 /\
  strip_offset (strip_offset f) = strip_offset f /\
  String.prefix (strip_offset f) f = true.
Proof.
  assert (GoStr.Index (strip_offset f) "+" <= 0) as H1.
  { destruct (strip_offset_cases f) as [[Hf ->]|(a & b & -> & Ha & ->)].
    - apply GoStrIndex.Index_absent in Hf. lia.
    - case_decide as Ea.
      + subst a. by vm_compute.
      + apply GoStrIndex.Index_absent in Ha. lia. }
  split_and!.
  - intros Hf. apply strip_offset_id. lia.
  - intros Hf. apply strip_offset_id. lia.
  - intros b. by apply strip_offset_id.
  - by vm_compute.
  - intros Hpos. split.
    + unfold strip_offset.
      by replace (0 <? GoStr.Index f "+") with true by (symmetry; by apply Z.ltb_lt).
    + destruct (strip_offset_cases f) as [[Hf ->]|(a & b & -> & Ha & ->)]; [done|].
      case_decide as Ea; [|done]. subst a.
      change ("" +:+ String "+" b) with (String "+" b) in Hpos.
      exfalso. revert Hpos. unfold GoStr.Index. cbn [GoStr.index_from].
      rewrite Ascii.eqb_refl. lia.
  - intros a b Hne Ha ->. by apply strip_offset_named.
  - done.
  - by apply strip_offset_id.
  - destruct (strip_offset_cases f) as [[Hf ->]|(a & b & -> & Ha & ->)].
    + apply GoStrIndex.prefix_refl.
    + case_decide; [apply GoStrIndex.prefix_refl|apply GoStrIndex.prefix_app].
Qed.

(** X4. Of [module`function+offset] the root-first folder keeps the
    function: everything up to the first backquote is dropped, then the
    offset. A name without a backquote only loses its offset. *)
Theorem dtrace_func_extracts (m fn off : string) :
  GoStr.Index m "`" = -1 -> GoStr.len m < GoInt.max_int ->
  fn <> "" -> GoStr.Index fn "+" = -1 ->
  dtrace_func (m +:+ "`" +:+ fn +:+ "+" +:+ off) = fn /\
  dtrace_func (m +:+ "`" +:+ fn) = fn /\
  (forall rest, dtrace_func (m +:+ "`" +:+ rest) = strip_offset rest) /\
  dtrace_func m = strip_offset m.
Proof.
  intros Hm Hlen Hfn Hplus.
  assert (forall rest, dtrace_func (m +:+ "`" +:+ rest) = strip_offset rest)
    as Hrest.
  { intros rest. unfold dtrace_func.
    change (m +:+ "`" +:+ rest) with (m +:+ String "`" rest).
    rewrite GoStrIndex.Index_app by by apply GoStrIndex.Index_absent.
    replace (0 <=? GoStr.len m) with true
      by (symmetry; apply Z.leb_le; unfold GoStr.len; lia).
    unfold GoInt.add. rewrite GoIntFacts.wrap_small
      by (unfold GoInt.in_range, GoInt.min_int, GoInt.max_int, GoStr.len in *; lia).
    unfold GoStr.len. rewrite Z2Nat.inj_add, Nat2Z.id by lia.
    change (Z.to_nat 1) with 1%nat. rewrite Nat.add_1_r.
    f_equal. clear. induction m as [|c m IH]; [done|exact IH]. }
  split_and!; [| |done|].
  - rewrite Hrest. by apply strip_offset_named.
  - rewrite Hrest. apply strip_offset_id. lia.
  - unfold dtrace_func. by rewrite Hm.
Qed.

Lemma dtrace_func_extracts_witness :
  dtrace_func "libc.so.6`malloc+0x1a" = "malloc".
Proof.
  refine (proj1 (dtrace_func_extracts "libc.so.6" "malloc" "0x1a" _ _ _ _)).
  - reflexivity.
  - by vm_compute.
  - discriminate.
  - reflexivity.
Defined.

(** ** Options left at their zero value *)

Section Options.
Variable o : map_order.

Lemma frameColor_effective depth scheme :
  frameColor depth
    (if String.eqb scheme "cold" then "cold"
     else if String.eqb scheme "mem" then "mem" else "hot")
  = frameColor depth scheme.
Proof.
  unfold frameColor.
  destruct (String.eqb scheme "cold"); [done|].
  by destruct (String.eqb scheme "mem").
Qed.

(** Two schemes with the same colours draw the same frames. *)
Lemma renderFrame_scheme (s s' : string) :
  (forall depth, frameColor depth s = frameColor depth s') ->
  forall f x baseY width frameHeight fontSize totalSamples depth,
  renderFrame o f x baseY width frameHeight fontSize totalSamples depth s
  = renderFrame o f x baseY width frameHeight fontSize totalSamples depth s'.
Proof.
  intros Hc f. induction f as [f IH] using frame_ind. intros.
  rewrite !renderFrame_unfold. case_match; [done|].
  assert (forall x y, frame_text (name f) (value f) x y width frameHeight
                        totalSamples depth s
                      = frame_text (name f) (value f) x y width frameHeight
                          totalSamples depth s') as ->.
  { intros. unfold frame_text. by rewrite Hc. }
  f_equal. apply foldl_ext_in. intros [out childX] k _. unfold render_step.
  rewrite !lookup_fmap. destruct (children f !! k) as [c|] eqn:E; [|done].
  simpl. by rewrite (IH k c E).
Qed.

End Options.

(** X5. The options left at their zero value: a width of [0] gives the
    image of width [1200], and a colour scheme other than [cold] and [mem],
    the empty one included, gives the image of the scheme [hot]. *)
Theorem GenerateSVG_effective_options (o : map_order) (collapsed : string)
    (opts : SVGOptions) :
  GenerateSVG o collapsed opts = GenerateSVG o collapsed (effective_options opts).
Proof.
  unfold GenerateSVG.
  assert (svg_width (effective_options opts) = svg_width opts) as ->.
  { unfold svg_width, effective_options. simpl.
    destruct (Width opts =? 0) eqn:Hw; [done|]. by rewrite Hw. }
  destruct (parse_collapsed collapsed) as [root total].
  case_match; [done|].
  change (svg_height o (effective_options opts) root) with (svg_height o opts root).
  change (Title (effective_options opts)) with (Title opts).
  do 2 f_equal. f_equal.
  apply renderFrame_scheme. intros depth. symmetry.
  apply frameColor_effective.
Qed.

(** ** The nodes of the tree are the prefixes of the stacks *)

Section Prefixes.
Import GoIntFacts.

Lemma counted_ext pass pass' (present present' : list string -> Prop) nd :
  (forall p, pass' p = pass p) -> (forall p, present' p <-> present p) ->
  counted pass present nd -> counted pass' present' nd.
Proof.
  intros Hp Hq H path. specialize (H path).
  destruct (node_at nd path); rewrite Hp, Hq; done.
Qed.

Lemma counted_child pass present nd k :
  counted pass present nd ->
  counted (fun p => pass (k :: p))
          (fun p => match children nd !! k with
                    | Some _ => present (k :: p)
                    | None => p = []
                    end)
          (child_or_new nd k).
Proof.
  intros H path. unfold child_or_new.
  pose proof (H (k :: path)) as Hk. cbn [node_at] in Hk.
  destruct (children nd !! k) as [c|] eqn:E; [done|].
  destruct Hk as [Hn H0].
  destruct path as [|k' path]; cbn [node_at].
  - split; [done|]. simpl. rewrite H0. done.
  - unfold newFrame. simpl. rewrite lookup_empty. done.
Qed.

Lemma add_path_counted frames count : forall pass present nd,
  counted pass present nd ->
  counted (fun p => pass p + if decide (p `prefix_of` frames) then count else 0)
          (fun p => present p \/ p `prefix_of` frames)
          (add_path frames count nd).
Proof.
  induction frames as [|k frames IH]; intros pass present nd H path.
  - unfold add_path. cbn [add_frames].
    destruct path as [|k' path].
    + cbn [node_at]. pose proof (H []) as [H1 H2]. split; [by left|].
      rewrite decide_True by done.
      change (value (add_value nd count)) with (value nd +i count).
      rewrite H2. unfold GoInt.add. by rewrite wrap_wrap_add.
    + pose proof (H (k' :: path)) as Hp. cbn [node_at] in *.
      change (children (add_value nd count)) with (children nd).
      rewrite decide_False by (intros Hx; by apply prefix_nil_not in Hx).
      rewrite Z.add_0_r.
      destruct (children nd !! k') as [c|]; [destruct (node_at c path)|].
      * destruct Hp; split; [by left|done].
      * destruct Hp as [Hp ?]; split; [|done].
        intros [?|Hx]; [done|]. by apply prefix_nil_not in Hx.
      * destruct Hp as [Hp ?]; split; [|done].
        intros [?|Hx]; [done|]. by apply prefix_nil_not in Hx.
  - unfold add_path. rewrite add_frames_cons.
    destruct path as [|k' path].
    + cbn [node_at]. pose proof (H []) as [H1 H2]. split; [by left|].
      rewrite decide_True by apply prefix_nil.
      change (value (add_value ?f ?n)) with (value f +i n). simpl.
      rewrite H2. unfold GoInt.add. by rewrite wrap_wrap_add.
    + cbn [node_at]. change (children (add_value ?f ?n)) with (children f).
      simpl. destruct (decide (k' = k)) as [->|Hne].
      * rewrite lookup_insert_eq.
        pose proof (IH _ _ _ (counted_child pass present nd k H) path) as Hc.
        simpl in Hc.
        assert (path `prefix_of` frames <-> k :: path `prefix_of` k :: frames)
          as Hpre.
        { split; [apply prefix_cons|apply prefix_cons_inv_2]. }
        destruct (node_at (add_path frames count (child_or_new nd k)) path).
        -- destruct Hc as [Hc ->]. split.
           ++ destruct Hc as [Hc|Hc]; [|right; by apply Hpre].
              destruct (children nd !! k); [by left|].
              subst path. right. apply Hpre, prefix_nil.
           ++ f_equal. f_equal. repeat case_decide; tauto.
        -- destruct Hc as [Hc Hz]. split.
           ++ intros [Hx|Hx]; apply Hc; [|right; by apply Hpre].
              left. destruct (children nd !! k) eqn:E; [done|].
              pose proof (H (k :: path)) as Hk. cbn [node_at] in Hk.
              rewrite E in Hk. by destruct Hk.
           ++ rewrite <-Hz. f_equal. repeat case_decide; tauto.
      * rewrite lookup_insert_ne by done.
        pose proof (H (k' :: path)) as Hp. cbn [node_at] in Hp.
        assert (~ k' :: path `prefix_of` k :: frames) as Hpre.
        { intros Hx. by apply prefix_cons_inv_1 in Hx. }
        rewrite decide_False by done. rewrite Z.add_0_r.
        destruct (children nd !! k') as [c|]; [destruct (node_at c path)|].
        -- destruct Hp; split; [by left|done].
        -- destruct Hp as [Hp ?]; split; [tauto|done].
        -- destruct Hp as [Hp ?]; split; [tauto|done].
Qed.

Lemma passing_snoc rs frames count path :
  passing (rs ++ [(frames, count)]) path
  = passing rs path + if decide (path `prefix_of` frames) then count else 0.
Proof.
  unfold passing. rewrite filter_app, count_sum_app. f_equal.
  rewrite filter_cons, filter_nil. simpl.
  case_decide; simpl; lia.
Qed.

Lemma on_stack_snoc rs r path :
  on_stack (rs ++ [r]) path <-> on_stack rs path \/ path `prefix_of` r.1.
Proof.
  unfold on_stack. rewrite Exists_app, Exists_cons, Exists_nil. tauto.
Qed.

Lemma counted_init : counted (passing []) (on_stack []) (newFrame "root").
Proof.
  intros [|k path]; cbn [node_at].
  - split; [by left|done].
  - unfold newFrame. simpl. rewrite lookup_empty. split; [|done].
    intros [?|Hx]; [done|]. by apply Exists_nil in Hx.
Qed.

Lemma parse_counted lines : forall root total rs,
  counted (passing rs) (on_stack rs) root ->
  let rs' := rs ++ omap svg_record lines in
  counted (passing rs') (on_stack rs') (foldl svg_line (root, total) lines).1.
Proof.
  induction lines as [|line lines IH]; intros root total rs Hc.
  - simpl. by rewrite app_nil_r.
  - cbn [foldl]. rewrite svg_line_record.
    change (omap svg_record (line :: lines))
      with (match svg_record line with
            | Some y => y :: omap svg_record lines
            | None => omap svg_record lines
            end).
    destruct (svg_record line) as [[frames count]|] eqn:E; [|by apply IH].
    replace (rs ++ (frames, count) :: omap svg_record lines)
      with ((rs ++ [(frames, count)]) ++ omap svg_record lines)
      by by rewrite <-app_assoc.
    apply IH.
    eapply counted_ext; [| |by apply add_path_counted].
    + intros p. simpl. by rewrite passing_snoc.
    + intros p. by rewrite on_stack_snoc.
Qed.


End Prefixes.


(** ** The depth of the tree is the length of the longest stack *)

Section Depth.

Lemma longest_stack_ge rs r : r ∈ rs -> (length r.1 <= longest_stack rs)%nat.
Proof.
  induction rs as [|r' rs IH]; [by intros ?%elem_of_nil|].
  intros [->|H]%elem_of_cons; simpl; [lia|]. specialize (IH H). lia.
Qed.

Lemma longest_stack_reached rs :
  rs <> [] -> exists r, r ∈ rs /\ length r.1 = longest_stack rs.
Proof.
  induction rs as [|r rs IH]; [done|]. intros _.
  destruct rs as [|r' rs'].
  - exists r. split; [by left|]. simpl. lia.
  - destruct IH as (r0 & Hin & Hlen); [done|].
    destruct (Nat.le_ge_cases (length r.1) (longest_stack (r' :: rs'))).
    + exists r0. split; [by right|].
      change (longest_stack (r :: r' :: rs'))
        with (Nat.max (length r.1) (longest_stack (r' :: rs'))). lia.
    + exists r. split; [by left|].
      change (longest_stack (r :: r' :: rs'))
        with (Nat.max (length r.1) (longest_stack (r' :: rs'))). lia.
Qed.

Lemma on_stack_length rs path :
  on_stack rs path -> (length path <= longest_stack rs)%nat.
Proof.
  intros [->|H]; [simpl; lia|].
  apply Exists_exists in H as (r & Hin & Hpre).
  apply prefix_length in Hpre. pose proof (longest_stack_ge rs r Hin). lia.
Qed.

Lemma on_stack_longest rs :
  exists path, on_stack rs path /\ length path = longest_stack rs.
Proof.
  destruct rs as [|r rs].
  - exists []. split; [by left|done].
  - destruct (longest_stack_reached (r :: rs)) as (r0 & Hin & Hlen); [done|].
    exists r0.1. split; [|done]. right. apply Exists_exists. by exists r0.
Qed.

(** The number of levels of the tree built from a folded text. *)
Lemma built_tree_levels collapsed :
  frame_levels (parse_collapsed collapsed).1
  = S (longest_stack (svg_records collapsed)).
Proof.
  set (root := (parse_collapsed collapsed).1).
  set (rs := svg_records collapsed).
  assert (forall path, is_Some (node_at root path) <-> on_stack rs path) as Hshape.
  { intros path.
    pose proof (parse_counted (scan_lines collapsed) (newFrame "root") 0 []
                  counted_init path) as H.
    simpl in H. fold (parse_collapsed collapsed) in H.
    fold (svg_records collapsed) in H. fold root rs in H.
    destruct (node_at root path).
    - split; [by intros _; apply H|by eexists].
    - split; [by intros [? ?]|by intros ?; exfalso; apply H]. }
  destruct (levels_longest_path root) as [Hall (path & node & Hnode & Hlen)].
  destruct (on_stack_longest rs) as (path' & Hon & Hlen').
  apply Hshape in Hon as [node' Hnode'].
  specialize (Hall _ _ Hnode').
  assert (on_stack rs path) as Hon by (apply Hshape; by eexists).
  apply on_stack_length in Hon. lia.
Qed.

End Depth.

(** ** The scanner bounds the depth of the tree *)

Section Bounds.
Import GoStr.

#[local] Arguments Ascii.eqb : simpl never.

Lemma length_rev_app a : forall b,
  String.length (String.rev_app a b) = (String.length a + String.length b)%nat.
Proof.
  induction a as [|c a IH]; intros b; [done|].
  cbn [String.rev_app]. rewrite IH. simpl. lia.
Qed.

Lemma length_dropCR r : (String.length (dropCR r) <= String.length r)%nat.
Proof.
  destruct r as [|c r]; [done|]. unfold dropCR.
  destruct (Ascii.eqb c (byte 13)); simpl; lia.
Qed.

Lemma len_line cur : len (rev (dropCR cur)) <= len cur.
Proof.
  unfold len, rev, String.rev. rewrite length_rev_app.
  pose proof (length_dropCR cur). simpl. lia.
Qed.

(** Every line the scanner yields is shorter than its buffer. *)
Lemma lines_from_short s : forall cur n,
  n = len cur -> n < MaxScanTokenSize ->
  Forall (fun l => len l < MaxScanTokenSize) (lines_from cur n s).
Proof.
  induction s as [|c s IH]; intros cur n Hn Hlt.
  - cbn [lines_from]. destruct cur as [|d cur]; [constructor|].
    constructor; [|constructor]. pose proof (len_line (String d cur)). lia.
  - cbn [lines_from]. destruct (Ascii.eqb c newline).
    + constructor; [pose proof (len_line cur); lia|]. by apply IH.
    + destruct (Z.ltb_spec (n + 1) MaxScanTokenSize); [|constructor].
      apply IH; [|done]. subst n. unfold len. simpl. lia.
Qed.

Lemma scan_lines_short s :
  Forall (fun l => len l < MaxScanTokenSize) (scan_lines s).
Proof. by apply lines_from_short. Qed.

Lemma length_split_from c s : forall cur,
  (length (split_from cur c s) <= S (String.length s))%nat.
Proof.
  induction s as [|d s IH]; intros cur; [done|].
  cbn [split_from]. destruct (Ascii.eqb c d).
  - specialize (IH ""). simpl. lia.
  - specialize (IH (String d cur)). simpl. lia.
Qed.

Lemma length_take_le n s : (String.length (take n s) <= String.length s)%nat.
Proof.
  revert s. induction n as [|n IH]; intros [|c s]; simpl; try lia.
  specialize (IH s). lia.
Qed.

(** A stack has no more frames than its line has bytes. *)
Lemma svg_record_depth line r :
  svg_record line = Some r -> Z.of_nat (length r.1) <= len line + 1.
Proof.
  unfold svg_record. case_match; [done|]. intros [= <-]. cbn [fst].
  pose proof (length_split_from ";" (line_stack line) "") as H1.
  pose proof (length_take_le (Z.to_nat (Index line " ")) line) as H2.
  unfold Split, line_stack, len in *. lia.
Qed.

Lemma longest_stack_bound collapsed :
  Z.of_nat (longest_stack (svg_records collapsed)) <= MaxScanTokenSize.
Proof.
  unfold svg_records. pose proof (scan_lines_short collapsed) as Hs.
  induction Hs as [|l ls Hl _ IH]; [done|].
  cbn [omap list_omap]. destruct (svg_record l) as [r|] eqn:E; [|exact IH].
  cbn [longest_stack foldr]. fold (longest_stack (omap svg_record ls)).
  apply svg_record_depth in E. lia.
Qed.

End Bounds.



(** ** Children are filed and drawn by name *)

Section Names.

Lemma name_add_path frames count nd : name (add_path frames count nd) = name nd.
Proof. by destruct frames. Qed.

Lemma named_new k : named (newFrame k).
Proof.
  intros [|k' path] node k0 c; cbn [node_at].
  - intros [= <-]. unfold newFrame. simpl. by rewrite lookup_empty.
  - unfold newFrame. simpl. by rewrite lookup_empty.
Qed.

Lemma named_child_or_new nd k :
  named nd -> named (child_or_new nd k) /\ name (child_or_new nd k) = k.
Proof.
  intros H. unfold child_or_new.
  destruct (children nd !! k) as [c0|] eqn:E.
  - split; [|by apply (H [] nd k c0)].
    intros path node k0 c Hn. apply (H (k :: path)). cbn [node_at]. by rewrite E.
  - split; [apply named_new|done].
Qed.

Lemma named_add_path frames count : forall nd,
  named nd -> named (add_path frames count nd).
Proof.
  induction frames as [|k frames IH]; intros nd H path node k0 c.
  - unfold add_path. cbn [add_frames]. destruct path as [|k' path]; cbn [node_at].
    + intros [= <-]. apply (H [] nd). done.
    + change (children (add_value nd count)) with (children nd).
      apply (H (k' :: path)).
  - unfold add_path. rewrite add_frames_cons.
    destruct (named_child_or_new nd k H) as [Hc Hk].
    destruct path as [|k' path]; cbn [node_at].
    + intros [= <-]. change (children (add_value ?f ?n)) with (children f). simpl.
      destruct (decide (k0 = k)) as [->|Hne].
      * rewrite lookup_insert_eq. intros [= <-]. by rewrite name_add_path.
      * rewrite lookup_insert_ne by done. apply (H [] nd). done.
    + change (children (add_value ?f ?n)) with (children f). simpl.
      destruct (decide (k' = k)) as [->|Hne].
      * rewrite lookup_insert_eq. by apply IH.
      * rewrite lookup_insert_ne by done. apply (H (k' :: path)).
Qed.

Lemma parse_named lines : forall root total,
  named root ->
  named (foldl svg_line (root, total) lines).1 /\
  name (foldl svg_line (root, total) lines).1 = name root.
Proof.
  induction lines as [|line lines IH]; intros root total H; [done|].
  cbn [foldl]. rewrite svg_line_record.
  destruct (svg_record line) as [[frames count]|]; [|by apply IH].
  destruct (IH (add_path frames count root) (total +i count)) as [H1 H2].
  - by apply named_add_path.
  - split; [done|]. by rewrite H2, name_add_path.
Qed.

Lemma names_of_children (cs : gmap string frame) (l : list string) :
  (forall k, k ∈ l -> exists c, cs !! k = Some c /\ name c = k) ->
  map name (omap (cs !!.) l) = l.
Proof.
  induction l as [|k l IH]; intros H; [done|].
  change (omap (cs !!.) (k :: l))
    with (match cs !! k with
          | Some c => c :: omap (cs !!.) l
          | None => omap (cs !!.) l
          end).
  destruct (H k) as (c & -> & Hc); [by left|].
  simpl. rewrite Hc. f_equal. apply IH. intros k' Hk'. apply H. by right.
Qed.

End Names.

(** ** Children are drawn side by side *)

Section Slots.
Import GoIntFacts.

Lemma childWidth_ge_1 width v p : 1 <= childWidth width v p.
Proof. unfold childWidth. case_match eqn:E; [done|]. by apply Z.ltb_ge in E. Qed.

Lemma total_width_take_bounds (ws : list Z) i :
  Forall (fun w => 1 <= w) ws ->
  0 <= total_width (firstn i ws) <= total_width ws.
Proof.
  intros H. revert i. induction H as [|w ws Hw _ IH]; intros i.
  - by destruct i.
  - pose proof (IH 0%nat) as H0. pose proof (IH (pred i)) as Hi.
    destruct i as [|i]; simpl in *; unfold total_width in *; simpl in *; lia.
Qed.

Lemma total_width_take_S (ws : list Z) i w :
  ws !! i = Some w ->
  total_width (firstn (S i) ws) = total_width (firstn i ws) + w.
Proof.
  revert i. induction ws as [|w' ws IH]; intros [|i]; simpl; try done.
  - intros [= ->]. unfold total_width. simpl. lia.
  - intros H. unfold total_width in *. simpl. rewrite (IH i H). lia.
Qed.

(** The place of each child: [childX] has been moved by the widths of the
    children drawn before. *)
Lemma place_children_positions cs width fv names : forall x i s,
  GoInt.in_range x ->
  place_children cs width fv names x !! i = Some s ->
  s.1.2 = GoInt.wrap
            (x + total_width (firstn i (place_children cs width fv names x).*2)).
Proof.
  induction names as [|n names IH]; intros x i s Hx; [done|].
  cbn [place_children]. destruct (cs !! n) as [c|]; [|by apply IH].
  pose proof (IH (x +i childWidth width (value c) fv)) as IH'.
  set (rest := place_children cs width fv names
                 (x +i childWidth width (value c) fv)) in *.
  destruct i as [|i]; simpl.
  - intros [= <-]. simpl. rewrite Z.add_0_r. by rewrite wrap_small.
  - intros H. rewrite (IH' _ _ (wrap_in_range _) H).
    unfold GoInt.add. rewrite wrap_wrap_add. f_equal.
    unfold total_width. simpl. exact (eq_sym (Z.add_assoc _ _ _)).
Qed.

End Slots.

(** X9. When no child of a frame is widened to one pixel, its children are
    drawn side by side within the frame: the first begins where the frame
    begins, each next one where the one before ends, every one is at least
    one pixel wide, and none reaches beyond the end of the frame. *)
Theorem child_slots_side_by_side (o : map_order) (f : frame) (x width : Z) :
  1 <= width -> 0 < value f -> width * value f < 2 ^ 53 ->
  map_Forall (fun _ child => 0 < value child) (children f) ->
  children_sum f <= value f ->
  map_Forall (fun _ child => value f <= width * value child) (children f) ->
  0 <= x -> x + width <= GoInt.max_int ->
  let slots := child_slots o f x width in
  forall i s, slots !! i = Some s ->
    s.1.2 = x + total_width (firstn i slots.*2) /\
    1 <= s.2 /\ x <= s.1.2 /\ s.1.2 + s.2 <= x + width.
Proof.
  intros Hw HV Hb Hpos Hsum Hwide Hx Hmax slots i s Hs.
  destruct (child_widths_of_frame o f x width Hw HV Hb Hpos Hsum)
    as (_ & _ & Htotal & _).
  specialize (Htotal Hwide). fold slots in Htotal.
  assert (Forall (fun w => 1 <= w) slots.*2) as Hge.
  { unfold slots, child_slots. rewrite slots_widths.
    apply Forall_forall. intros w (c & -> & _)%list_elem_of_fmap.
    apply childWidth_ge_1. }
  assert (slots.*2 !! i = Some s.2) as Hi by by rewrite list_lookup_fmap, Hs.
  pose proof (total_width_take_bounds _ i Hge) as Hb1.
  pose proof (total_width_take_bounds _ (S i) Hge) as Hb2.
  rewrite (total_width_take_S _ _ _ Hi) in Hb2.
  assert (1 <= s.2) as H1.
  { eapply Forall_forall in Hge; [done|]. by eapply list_elem_of_lookup_2. }
  assert (s.1.2 = x + total_width (firstn i slots.*2)) as Hp.
  { assert (GoInt.in_range x) as Hr
      by (unfold GoInt.in_range, GoInt.min_int, GoInt.max_int in *; lia).
    pose proof (place_children_positions _ _ _ _ x i s Hr Hs) as ->.
    apply GoIntFacts.wrap_small. fold (child_slots o f x width). fold slots.
    unfold GoInt.in_range, GoInt.min_int, GoInt.max_int in *. lia. }
  split_and!; [done|done|lia|lia].
Qed.

Lemma child_slots_side_by_side_witness :
  1 <= 590 /\ 10 <= 10 /\ 10 + 590 <= 10 + 1180.
Proof.
  refine (proj2 (child_slots_side_by_side order_id
                   (parse_collapsed siblings_example).1 10 1180 _ _ _ _ _ _ _ _
                   0%nat (Frame "a" 1 ∅, 10, 590) _)).
  - lia.
  - by vm_compute.
  - by vm_compute.
  - apply (bool_decide_unpack _). by vm_compute.
  - by vm_compute.
  - apply (bool_decide_unpack _). by vm_compute.
  - lia.
  - by vm_compute.
  - by vm_compute.
Defined.

(** ** The order of the lines of a folded text *)

Section LineOrder.
Import GoIntFacts.

Lemma add_path_nil count nd : add_path [] count nd = add_value nd count.
Proof. done. Qed.

Lemma add_path_cons k frames count nd :
  add_path (k :: frames) count nd
  = Frame (name nd) (value nd +i count)
          (<[k := add_path frames count (child_or_new nd k)]> (children nd)).
Proof. unfold add_path at 1. by rewrite add_frames_cons. Qed.

Lemma add_path_comm f1 n1 : forall f2 n2 nd,
  add_path f1 n1 (add_path f2 n2 nd) = add_path f2 n2 (add_path f1 n1 nd).
Proof.
  induction f1 as [|k1 f1 IH]; intros [|k2 f2] n2 nd;
    rewrite ?add_path_nil, ?add_path_cons; unfold add_value; simpl.
  - by rewrite add_swap.
  - rewrite add_swap. done.
  - rewrite add_swap. done.
  - rewrite add_swap. f_equal.
    destruct (decide (k1 = k2)) as [->|Hne].
    + rewrite !insert_insert_eq. f_equal.
      unfold child_or_new. simpl. rewrite !lookup_insert_eq. apply IH.
    + rewrite insert_insert_ne by done. f_equal.
      * unfold child_or_new. simpl. by rewrite lookup_insert_ne.
      * f_equal. unfold child_or_new. simpl. by rewrite lookup_insert_ne.
Qed.

Lemma svg_line_comm st l1 l2 :
  svg_line (svg_line st l1) l2 = svg_line (svg_line st l2) l1.
Proof.
  destruct st as [root total]. rewrite !svg_line_record.
  destruct (svg_record l1) as [[f1 n1]|] eqn:E1,
           (svg_record l2) as [[f2 n2]|] eqn:E2;
    rewrite ?svg_line_record, ?E1, ?E2; try done.
  by rewrite add_path_comm, add_swap.
Qed.

End LineOrder.

(** X10. The image does not depend on the order of the lines of the folded
    text, when every line fits the buffer of the scanner: the same lines in
    another order build the same tree, with the same number of samples,
    and give the same image. *)
Theorem folded_lines_order (o : map_order) (lines lines' : list string)
    (opts : SVGOptions) :
  forallb (fun l => negb (has_byte GoStr.newline l)) lines = true ->
  forallb short_line lines = true ->
  lines ≡ₚ lines' ->
  parse_collapsed (text_of_lines lines) = parse_collapsed (text_of_lines lines') /\
  GenerateSVG o (text_of_lines lines) opts
  = GenerateSVG o (text_of_lines lines') opts.
Proof.
  intros Hnl Hshort Hperm.
  assert (parse_collapsed (text_of_lines lines)
          = parse_collapsed (text_of_lines lines')) as Hp.
  { unfold parse_collapsed.
    rewrite !scan_text_of_lines;
      [|by apply (forallb_perm _ lines lines')
       |by apply (forallb_perm _ lines lines')|done|done].
    apply foldl_permutation_comm; [apply svg_line_comm|].
    by apply fmap_Permutation. }
  split; [done|]. unfold GenerateSVG. by rewrite Hp.
Qed.

Lemma folded_lines_order_witness :
  parse_collapsed (text_of_lines ["a;b 2"; "a;c 1"])
  = parse_collapsed (text_of_lines ["a;c 1"; "a;b 2"]).
Proof.
  refine (proj1 (folded_lines_order order_id ["a;b 2"; "a;c 1"]
                   ["a;c 1"; "a;b 2"] DefaultSVGOptions _ _ _)).
  - reflexivity.
  - reflexivity.
  - apply perm_swap.
Defined.

(** ** What the folders count *)

Section Counts.
Import GoIntFacts.

Lemma tally_snoc recs r k :
  tally (recs ++ [r]) k = tally recs k + if decide (r.1 = Some k) then r.2 else 0.
Proof.
  unfold tally. rewrite filter_app, foldr_app, filter_cons, filter_nil.
  case_decide; simpl.
  - generalize (filter (fun r0 : option string * Z => r0.1 = Some k) recs).
    intros l. induction l as [|x l IH]; simpl; lia.
  - lia.
Qed.

Lemma tally_absent recs k :
  ~ Exists (fun r => r.1 = Some k) recs -> tally recs k = 0.
Proof.
  unfold tally. induction recs as [|r recs IH]; [done|].
  rewrite Exists_cons, filter_cons. intros H.
  rewrite decide_False by tauto. apply IH. tauto.
Qed.

(** The map after the records: every key that occurs, with the sum of the
    counts of its records. *)
Lemma tally_lookup recs k :
  foldl tally_effect ∅ recs !! k
  = if decide (Exists (fun r => r.1 = Some k) recs)
    then Some (GoInt.wrap (tally recs k)) else None.
Proof.
  induction recs as [|r recs IH] using rev_ind.
  - cbn [foldl]. rewrite lookup_empty.
    case_decide as E; [by apply Exists_nil in E|done].
  - rewrite foldl_app. cbn [foldl]. unfold tally_effect at 1.
    rewrite tally_snoc. destruct r as [[k'|] n]; cbn [fst snd].
    + unfold bump. destruct (decide (k' = k)) as [->|Hne].
      * rewrite lookup_insert_eq, IH.
        rewrite (decide_True (P := Some k = Some k)) by done.
        rewrite (decide_True (P := Exists _ (recs ++ _)))
          by (apply Exists_app; right; by left).
        f_equal. case_decide as E.
        -- simpl. unfold GoInt.add. by rewrite wrap_wrap_add.
        -- simpl. rewrite (tally_absent _ _ E). done.
      * rewrite lookup_insert_ne, IH by done.
        rewrite (decide_False (P := Some k' = Some k)) by congruence.
        rewrite Z.add_0_r.
        case_decide as E.
        -- rewrite decide_True; [done|]. apply Exists_app. by left.
        -- rewrite decide_False; [done|].
           rewrite Exists_app, Exists_cons, Exists_nil. simpl.
           intros [?|[?|?]]; [done|congruence|done].
    + rewrite IH, Z.add_0_r.
      case_decide as E.
      * rewrite decide_True; [done|]. apply Exists_app. by left.
      * rewrite decide_False; [done|].
        rewrite Exists_app, Exists_cons, Exists_nil. simpl.
        intros [?|[?|?]]; done.
Qed.

Lemma foldl_tally {A} (eff : gmap string Z -> A -> gmap string Z)
    (keyed : A -> option string * Z) (rs : list A) :
  Forall (fun r => forall m, eff m r = tally_effect m (keyed r)) rs ->
  forall m, foldl eff m rs = foldl tally_effect m (map keyed rs).
Proof.
  induction 1 as [|r rs Hr _ IH]; intros m; [done|].
  simpl. by rewrite Hr, IH.
Qed.

Lemma perf_effect_tally m r : perf_effect m r = tally_effect m (perf_key r, 1).
Proof.
  unfold perf_effect, perf_flush, tally_effect, perf_key. simpl.
  by destruct (0 <? _).
Qed.

Lemma tally_occurrences rs k :
  tally (map (fun r => (perf_key r, 1)) rs) k = Z.of_nat (occurrences rs k).
Proof.
  unfold tally, occurrences. induction rs as [|r rs IH]; [done|].
  cbn [map]. rewrite !filter_cons. cbn [fst].
  destruct (decide (perf_key r = Some k)); simpl; rewrite ?IH; lia.
Qed.

Lemma Exists_occurrences rs k :
  Exists (fun r => r.1 = Some k) (map (fun r => (perf_key r, 1)) rs)
  <-> occurrences rs k <> 0%nat.
Proof.
  unfold occurrences. induction rs as [|r rs IH].
  - simpl. rewrite Exists_nil. done.
  - cbn [map]. rewrite Exists_cons, filter_cons, IH. cbn [fst].
    destruct (decide (perf_key r = Some k)); simpl; [split; [lia|tauto]|tauto].
Qed.

End Counts.

(** X11. The leaf-first folder counts records: for a text made of records
    of frame lines, each followed by an empty line, every line of which
    fits the buffer of the scanner, the folded text lists every key that
    is the key of some record, with the number of the records of that key,
    in the arithmetic of [int]. *)
Theorem CollapsePerf_counts (o : map_order) (rs : list (list string)) :
  forallb perf_record rs = true -> perf_short rs = true ->
  exists m : gmap string Z,
    CollapsePerf o (perf_text rs) = writeCollapsed o m /\
    forall k,
      m !! k = if decide (occurrences rs k = 0%nat) then None
               else Some (GoInt.wrap (Z.of_nat (occurrences rs k))).
Proof.
  intros Hrs Hshort. exists (foldl perf_effect ∅ rs).
  split; [by apply CollapsePerf_records|]. intros k.
  rewrite (foldl_tally perf_effect (fun r => (perf_key r, 1)))
    by (apply Forall_forall; intros r _ m; apply perf_effect_tally).
  rewrite tally_lookup, tally_occurrences.
  pose proof (Exists_occurrences rs k). repeat case_decide; tauto.
Qed.

Lemma CollapsePerf_counts_witness :
  exists m : gmap string Z,
    CollapsePerf order_id (perf_text [[GoStr.tab +:+ " 0 funcA+0x0 (mod)"]])
    = writeCollapsed order_id m /\
    forall k,
      m !! k = if decide (occurrences [[GoStr.tab +:+ " 0 funcA+0x0 (mod)"]] k = 0%nat)
               then None
               else Some (GoInt.wrap (Z.of_nat
                      (occurrences [[GoStr.tab +:+ " 0 funcA+0x0 (mod)"]] k))).
Proof.
  refine (CollapsePerf_counts order_id [[GoStr.tab +:+ " 0 funcA+0x0 (mod)"]] _ _).
  - by vm_compute.
  - by vm_compute.
Defined.

(** ** Bytes that begin no white space *)

Section Bytes.
Import GoStr.

#[local] Arguments Ascii.eqb : simpl never.

Lemma match_len_begins pats c s :
  begins pats c = false -> match_len pats (String c s) = 0%nat.
Proof.
  induction pats as [|p pats IH]; [done|].
  cbn [begins existsb match_len]. intros [Hp Hps]%orb_false_elim.
  destruct p as [|d p]; [done|]. cbn [String.prefix].
  destruct (ascii_dec d c) as [->|_]; [by rewrite Ascii.eqb_refl in Hp|].
  by apply IH.
Qed.

Lemma begins_line_space c :
  begins space_runes c = false -> begins line_space_runes c = false.
Proof. unfold space_runes. cbn [begins existsb]. by intros [_ ?]%orb_false_elim. Qed.

(** A digit begins no white space and is no sign. *)
Lemma digit_plain c :
  is_digit c = true ->
  begins space_runes c = false /\ Ascii.eqb c "-" = false /\
  Ascii.eqb c "+" = false /\ 0 <= digit_val c <= 9.
Proof.
  destruct c as [[] [] [] [] [] [] [] []]; intros H; try done;
    by vm_compute.
Qed.

Lemma scan_digits_nonneg s : forall acc n,
  0 <= acc -> 0 <= (scan_digits acc n s).1.
Proof.
  induction s as [|c s IH]; intros acc n Hacc; [done|].
  cbn [scan_digits]. destruct (is_digit c) eqn:E; [|done].
  apply IH. destruct (digit_plain c E) as (_ & _ & _ & ?). lia.
Qed.

(** A number without a sign is scanned as a number that is not negative. *)
Lemma Sscanf_digits_nonneg s z :
  all_digits s = true -> Sscanf_d s = Some z -> 0 <= z.
Proof.
  destruct s as [|c s]; [done|]. cbn [all_digits].
  destruct (is_digit c) eqn:E; [|done]. intros _.
  destruct (digit_plain c E) as (Hb & Hm & Hp & _).
  unfold Sscanf_d. cbn [trim_front].
  rewrite (match_len_begins _ _ _ (begins_line_space _ Hb)), Hm, Hp.
  pose proof (scan_digits_nonneg (String c s) 0 0 ltac:(done)) as Hv.
  destruct (scan_digits 0 0 (String c s)) as [v n]. simpl in Hv.
  destruct n; [done|]. case_match; [|done]. by intros [= <-].
Qed.

End Bytes.

(** ** What the root-first folder counts *)

Section DtraceCounts.

Lemma dtrace_effect_tally m r :
  dtrace_record r = true ->
  dtrace_effect m r = tally_effect m (dtrace_key r, dtrace_count r).
Proof.
  unfold dtrace_record. intros [_ Hend]%andb_prop.
  unfold dtrace_effect, dtrace_line, tally_effect, dtrace_key, dtrace_count.
  cbn [fst snd stacks currentStack]. unfold blank, count_line in *.
  rewrite length_map.
  destruct (String.eqb (GoStr.TrimSpace (scanned r.2)) "").
  - by destruct (0 <? _).
  - cbn [orb] in Hend. rewrite Hend. by destruct (0 <? _).
Qed.

Lemma dtrace_count_nonneg r : dtrace_record r = true -> 0 <= dtrace_count r.
Proof.
  unfold dtrace_record. intros [_ Hend]%andb_prop.
  unfold dtrace_count, blank, count_line, isCountLine in *.
  destruct (String.eqb (GoStr.TrimSpace (scanned r.2)) ""); [done|].
  cbn [orb] in Hend. apply andb_prop in Hend as [Hd _].
  destruct (GoStr.Sscanf_d _) as [z|] eqn:E; [|done].
  simpl. by eapply Sscanf_digits_nonneg.
Qed.

End DtraceCounts.

(** X12. The root-first folder adds counts up: for a text made of records
    of frame lines, each ended by a blank line or by a count line, every
    line of which fits the buffer of the scanner, the folded text lists
    every key that is the key of some record, with the sum of the counts of
    the records of that key, in the arithmetic of [int]. No count is
    negative: a record counts for the number of its count line, and for
    [1] when it has none or one that does not fit an [int]. *)
Theorem CollapseDtrace_counts (o : map_order) (rs : list (list string * string)) :
  forallb dtrace_record rs = true -> dtrace_short rs = true ->
  let keyed := map (fun r => (dtrace_key r, dtrace_count r)) rs in
  Forall (fun r => 0 <= r.2) keyed /\
  exists m : gmap string Z,
    CollapseDtrace o (dtrace_text rs) = writeCollapsed o m /\
    forall k,
      m !! k = if decide (Exists (fun r => r.1 = Some k) keyed)
               then Some (GoInt.wrap (tally keyed k)) else None.
Proof.
  intros Hrs Hshort keyed.
  assert (Forall (fun r => dtrace_record r = true) rs) as Hall.
  { apply Forall_forall. intros r Hr.
    rewrite forallb_forall in Hrs. apply Hrs. by apply list_elem_of_In. }
  split.
  - unfold keyed. apply Forall_fmap. eapply Forall_impl; [done|].
    intros r Hr. by apply dtrace_count_nonneg.
  - exists (foldl dtrace_effect ∅ rs).
    split; [by apply CollapseDtrace_records|]. intros k.
    rewrite (foldl_tally dtrace_effect (fun r => (dtrace_key r, dtrace_count r))).
    + apply tally_lookup.
    + eapply Forall_impl; [done|]. intros r Hr m. by apply dtrace_effect_tally.
Qed.

Lemma CollapseDtrace_counts_witness :
  Forall (fun r : option string * Z => 0 <= r.2)
         (map (fun r => (dtrace_key r, dtrace_count r))
              [(["libc`malloc+0x10"; "main"], "3")]).
Proof.
  refine (proj1 (CollapseDtrace_counts order_id
                   [(["libc`malloc+0x10"; "main"], "3")] _ _)).
  - by vm_compute.
  - by vm_compute.
Defined.

(** ** Numbers written with [%d] are read back by [Sscanf] *)

Section Decimal.
Import GoStr.

#[local] Arguments Ascii.eqb : simpl never.

Lemma scan_digits_uint d : forall acc n,
  scan_digits acc n (NilEmpty.string_of_uint d)
  = (uint_val acc d, (n + Decimal.nb_digits d)%nat).
Proof.
  induction d; intros acc n; cbn [NilEmpty.string_of_uint scan_digits uint_val].
  1: { simpl. f_equal. lia. }
  all: change (is_digit _) with true; cbv iota.
  all: rewrite IHd; f_equal; simpl; lia.
Qed.

Lemma uint_val_acc d : forall acc : positive,
  uint_val (Z.pos acc) d = Z.pos (Pos.of_uint_acc d acc).
Proof.
  induction d; intros acc; cbn [uint_val Pos.of_uint_acc].
  1: done.
  all: rewrite <-IHd; f_equal; lia.
Qed.

Lemma uint_val_of_uint d : uint_val 0 d = Z.of_uint d.
Proof.
  unfold Z.of_uint.
  induction d; cbn [uint_val Pos.of_uint].
  1, 2: done.
  all: cbn [Z.mul Z.add Z.of_N]; apply uint_val_acc.
Qed.

Lemma string_of_uint_digit d :
  d <> Decimal.Nil ->
  exists c s, NilEmpty.string_of_uint d = String c s /\ is_digit c = true.
Proof. destruct d; intros H; [done|..]; by eexists _, _. Qed.

(** [%d] writes what [%d] reads back. *)
Lemma Sscanf_fmt_d z : GoInt.in_range z -> Sscanf_d (fmt_d z) = Some z.
Proof.
  intros Hz.
  assert (forall d, d <> Decimal.Nil ->
            Sscanf_d (NilEmpty.string_of_uint d)
            = if (GoInt.min_int <=? Z.of_uint d) && (Z.of_uint d <=? GoInt.max_int)
              then Some (Z.of_uint d) else None) as Hpos.
  { intros d Hd. destruct (string_of_uint_digit d Hd) as (c & s & E & Hc).
    destruct (digit_plain c Hc) as (Hb & Hm & Hp & _).
    unfold Sscanf_d. rewrite E. cbn [trim_front].
    rewrite (match_len_begins _ _ _ (begins_line_space _ Hb)), Hm, Hp.
    rewrite <-E, scan_digits_uint, uint_val_of_uint.
    destruct d; done. }
  assert (forall d, d <> Decimal.Nil ->
            Sscanf_d (String "-" (NilEmpty.string_of_uint d))
            = if (GoInt.min_int <=? - Z.of_uint d) && (- Z.of_uint d <=? GoInt.max_int)
              then Some (- Z.of_uint d) else None) as Hneg.
  { intros d Hd. unfold Sscanf_d. cbn [trim_front].
    rewrite (match_len_begins line_space_runes "-" _) by done.
    rewrite Ascii.eqb_refl.
    rewrite scan_digits_uint, uint_val_of_uint.
    destruct d; done. }
  assert ((GoInt.min_int <=? z) && (z <=? GoInt.max_int) = true) as Hr.
  { destruct Hz. apply andb_true_intro. split; by apply Z.leb_le. }
  pose proof (DecimalZ.of_to z) as Hof.
  unfold fmt_d. destruct z as [|p|p]; [done|..]; cbn [Z.to_int] in *;
    cbn [Z.of_int] in Hof; cbn [NilZero.string_of_int];
    pose proof (DecimalPos.Unsigned.to_uint_nonnil p) as Hnil;
    unfold NilZero.string_of_uint.
  - destruct (Pos.to_uint p) eqn:E; [done|..]; rewrite <-E in *;
      rewrite Hpos by done; by rewrite Hof, Hr.
  - destruct (Pos.to_uint p) eqn:E; [done|..]; rewrite <-E in *;
      rewrite Hneg by done; by rewrite Hof, Hr.
Qed.

(** The length of a number written with [%d]: at most 19 digits and a
    sign. *)
Lemma uint_val_lower d : forall acc,
  0 <= acc -> acc * 10 ^ Z.of_nat (Decimal.nb_digits d) <= uint_val acc d.
Proof.
  induction d; intros acc Hacc; cbn [uint_val Decimal.nb_digits].
  1: { simpl. lia. }
  all: rewrite Nat2Z.inj_succ, Z.pow_succ_r by lia.
  all: etransitivity; [|apply IHd; lia].
  all: assert (0 <= 10 ^ Z.of_nat (Decimal.nb_digits d)) by (apply Z.pow_nonneg; lia).
  all: nia.
Qed.

Lemma to_uint_head p :
  Pos.to_uint p <> Decimal.Nil /\
  forall d, Pos.to_uint p <> Decimal.D0 d.
Proof.
  pose proof (DecimalPos.Unsigned.to_of (Pos.to_uint p)) as Hn.
  rewrite DecimalPos.Unsigned.of_to in Hn. cbn [N.to_uint] in Hn.
  pose proof (DecimalPos.Unsigned.to_uint_nonzero p) as Hz.
  split; [apply DecimalPos.Unsigned.to_uint_nonnil|].
  intros d E.
  assert (Decimal.nzhead (Pos.to_uint p) <> Decimal.Nil) as Hh.
  { intros H0. apply Hz. rewrite Hn. by apply DecimalFacts.unorm_0. }
  rewrite (DecimalFacts.unorm_nzhead _ Hh) in Hn.
  rewrite E in Hn at 1. symmetry in Hn.
  by apply DecimalFacts.nzhead_nonzero in Hn.
Qed.

Lemma nb_digits_to_uint p :
  Z.pos p <= 2 ^ 63 -> (Decimal.nb_digits (Pos.to_uint p) <= 19)%nat.
Proof.
  intros Hp. destruct (to_uint_head p) as [Hnil Hd0].
  pose proof (uint_val_of_uint (Pos.to_uint p)) as Hv.
  unfold Z.of_uint in Hv. rewrite DecimalPos.Unsigned.of_to in Hv.
  cbn [Z.of_N] in Hv.
  assert (10 ^ (Z.of_nat (Decimal.nb_digits (Pos.to_uint p)) - 1) <= Z.pos p)
    as Hlow.
  { rewrite <-Hv. destruct (Pos.to_uint p) as [|d|d|d|d|d|d|d|d|d|d];
      [done|by destruct (Hd0 d)|..];
      cbn [uint_val Decimal.nb_digits]; rewrite Nat2Z.inj_succ;
      replace (Z.succ (Z.of_nat (Decimal.nb_digits d)) - 1)
        with (Z.of_nat (Decimal.nb_digits d)) by lia;
      (etransitivity; [|apply uint_val_lower; lia]);
      assert (0 <= 10 ^ Z.of_nat (Decimal.nb_digits d))
        by (apply Z.pow_nonneg; lia); lia. }
  destruct (Nat.le_gt_cases (Decimal.nb_digits (Pos.to_uint p)) 19) as [|Hgt];
    [done|exfalso].
  assert (10 ^ 19 <= 10 ^ (Z.of_nat (Decimal.nb_digits (Pos.to_uint p)) - 1))
    by (apply Z.pow_le_mono_r; lia).
  assert (2 ^ 63 < 10 ^ 19) by (by vm_compute).
  lia.
Qed.

Lemma length_string_of_uint d :
  String.length (NilEmpty.string_of_uint d) = Decimal.nb_digits d.
Proof. induction d; simpl; by rewrite ?IHd. Qed.

Lemma len_fmt_d z : GoInt.in_range z -> len (fmt_d z) <= 20.
Proof.
  intros [Hlo Hhi]. unfold GoInt.min_int, GoInt.max_int in *.
  unfold fmt_d, len. destruct z as [|p|p]; [simpl; lia|..];
    cbn [Z.to_int NilZero.string_of_int]; unfold NilZero.string_of_uint;
    destruct (to_uint_head p) as [Hnil _];
    pose proof (nb_digits_to_uint p ltac:(lia)) as Hnb;
    rewrite <-length_string_of_uint in Hnb.
  - destruct (Pos.to_uint p) eqn:E; [done|..]; rewrite <-E in *; lia.
  - cbn [String.length].
    destruct (Pos.to_uint p) eqn:E; [done|..]; rewrite <-E in *; lia.
Qed.

End Decimal.

(** ** The folded text is read back as it was written *)

Section RoundTrip.
Import GoStr GoStrIndex.

#[local] Arguments Ascii.eqb : simpl never.

Lemma rev_app_app a b acc :
  String.rev_app (a +:+ b) acc = String.rev_app b (String.rev_app a acc).
Proof.
  revert acc. induction a as [|c a IH]; intros acc; [done|].
  change (String c a +:+ b) with (String c (a +:+ b)). cbn [String.rev_app].
  apply IH.
Qed.

Lemma rev_rev_app a b : rev (String.rev_app a b) = String.rev_app b a.
Proof.
  revert b. induction a as [|c a IH]; intros b; [done|].
  cbn [String.rev_app]. by rewrite IH.
Qed.

(** The scanner keeps a line that does not end with a carriage return. *)
Lemma scanned_keep a c :
  c <> byte 13 -> scanned (a +:+ String c "") = a +:+ String c "".
Proof.
  intros Hc. unfold scanned, String.rev. rewrite rev_app_app.
  cbn [String.rev_app dropCR].
  rewrite (proj2 (Ascii.eqb_neq c (byte 13)) Hc).
  change (String c (String.rev_app a "")) with (String.rev_app (String c "") (String.rev_app a "")).
  rewrite <-rev_app_app. apply (rev_rev_app _ "").
Qed.

Lemma all_digits_uint d : all_digits (NilEmpty.string_of_uint d) = true.
Proof. induction d; done. Qed.

Lemma all_digits_last s :
  all_digits s = true -> s <> "" ->
  exists a c, s = a +:+ String c "" /\ is_digit c = true.
Proof.
  induction s as [|c s IH]; [done|]. cbn [all_digits].
  destruct (is_digit c) eqn:E; [|done]. intros Hs _.
  destruct s as [|c' s'].
  - by exists "", c.
  - destruct (IH Hs) as (a & c0 & Ea & Hc0); [done|].
    exists (String c a), c0. split; [|done].
    change (String c (String c' s') = String c (a +:+ String c0 "")).
    by rewrite Ea.
Qed.

Lemma all_digits_no_byte c s :
  is_digit c = false -> all_digits s = true -> has_byte c s = false.
Proof.
  intros Hc. induction s as [|d s IH]; [done|]. cbn [all_digits has_byte].
  destruct (is_digit d) eqn:E; [|done]. intros Hs. rewrite (IH Hs), orb_false_r.
  apply Ascii.eqb_neq. intros ->. congruence.
Qed.

(** What [%d] writes: digits, after a sign for a negative number. *)
Lemma fmt_d_shape z :
  exists sign s, fmt_d z = sign +:+ s /\ (sign = "" \/ sign = "-") /\
                 all_digits s = true /\ s <> "".
Proof.
  unfold fmt_d.
  assert (forall d, all_digits (NilZero.string_of_uint d) = true /\
                    NilZero.string_of_uint d <> "") as Hd.
  { intros d. split; [destruct d; try done; apply all_digits_uint|by destruct d]. }
  destruct (Z.to_int z) as [d|d]; cbn [NilZero.string_of_int].
  - exists "", (NilZero.string_of_uint d). split_and!; [done|by left|apply Hd..].
  - exists "-", (NilZero.string_of_uint d). split_and!; [done|by right|apply Hd..].
Qed.

Lemma fmt_d_no_byte c z :
  is_digit c = false -> c <> "-"%char -> has_byte c (fmt_d z) = false.
Proof.
  intros Hc Hm. destruct (fmt_d_shape z) as (sign & s & -> & Hsign & Hs & _).
  rewrite has_byte_app, (all_digits_no_byte c s Hc Hs), orb_false_r.
  destruct Hsign as [->| ->]; [done|]. cbn [has_byte].
  by rewrite (proj2 (Ascii.eqb_neq c "-") Hm).
Qed.

Lemma drop_app_cons a c b : drop (S (String.length a)) (a +:+ String c b) = b.
Proof. induction a as [|d a IH]; [by destruct b|exact IH]. Qed.

(** A line of the folded text, as the scanner and the loop of
    [GenerateSVG] read it. *)
Lemma folded_line_record k v :
  has_byte " " k = false -> GoInt.in_range v -> v <> 0 ->
  let line := k +:+ " " +:+ fmt_d v in
  has_byte newline k = false ->
  has_byte newline line = false /\ scanned line = line /\
  svg_record line = Some (Split k ";", v).
Proof.
  intros Hk Hr Hv line Hnl. split_and!.
  - unfold line. rewrite !has_byte_app, Hnl. cbn [has_byte orb].
    by rewrite fmt_d_no_byte.
  - unfold line. destruct (fmt_d_shape v) as (sign & s & -> & _ & Hs & Hne).
    destruct (all_digits_last s Hs Hne) as (a & c & -> & Hc).
    rewrite <-!append_assoc. apply scanned_keep.
    intros ->. by vm_compute in Hc.
  - unfold svg_record, line_stack, line_field, line.
    change (k +:+ " " +:+ fmt_d v) with (k +:+ String " " (fmt_d v)).
    rewrite Index_app by done. unfold len. rewrite Nat2Z.id.
    replace (Z.of_nat (String.length k) <? 0) with false
      by (symmetry; apply Z.ltb_ge; lia).
    rewrite take_app. do 2 f_equal.
    rewrite drop_app_cons. unfold record_count.
    rewrite Sscanf_fmt_d by done. simpl.
    by rewrite (proj2 (Z.eqb_neq v 0) Hv).
Qed.

Lemma writeCollapsed_lines o (m : gmap string Z) :
  writeCollapsed o m
  = text_of_lines (map (fun k => k +:+ " " +:+ fmt_d (default 0 (m !! k)))
                       (sort_Strings (map_keys o m))).
Proof.
  unfold writeCollapsed, text_of_lines. f_equal. rewrite map_map.
  apply map_ext. intros k. by rewrite !append_assoc.
Qed.

(** A line of the folded text with a short key fits the buffer of the
    scanner. *)
Lemma folded_line_short k v :
  len k <= max_key -> GoInt.in_range v ->
  short_line (k +:+ " " +:+ fmt_d v) = true.
Proof.
  intros Hk Hv. pose proof (len_fmt_d v Hv) as Hd.
  unfold short_line, max_key, MaxScanTokenSize, len in *. apply Z.ltb_lt.
  rewrite !GoStrLen.length_app. simpl. lia.
Qed.

Lemma folded_lines_records (m : gmap string Z) (keys : list string) :
  Forall (fun k => exists v, m !! k = Some v /\ readable k v) keys ->
  forallb (fun l => negb (has_byte newline l))
          (map (fun k => k +:+ " " +:+ fmt_d (default 0 (m !! k))) keys) = true /\
  forallb short_line
          (map (fun k => k +:+ " " +:+ fmt_d (default 0 (m !! k))) keys) = true /\
  omap svg_record
       (map scanned (map (fun k => k +:+ " " +:+ fmt_d (default 0 (m !! k))) keys))
  = map (fun k => (Split k ";", default 0 (m !! k))) keys.
Proof.
  induction 1 as [|k keys (v & Hv & Hk & Hnl & Hlen & Hr & H0) _ IH]; [done|].
  destruct IH as (IH1 & IH3 & IH2). cbn [map forallb]. rewrite Hv. cbn [default id].
  destruct (folded_line_record k v Hk Hr H0 Hnl) as (H1 & H2 & H3).
  split_and!.
  - rewrite H1. cbn [negb andb]. exact IH1.
  - rewrite folded_line_short by done. exact IH3.
  - change (omap svg_record (?x :: ?l))
      with (match svg_record x with
            | Some y => y :: omap svg_record l
            | None => omap svg_record l
            end).
    rewrite H2, H3. f_equal. exact IH2.
Qed.

Lemma sum_perm (l l' : list Z) : l ≡ₚ l' -> foldr Z.add 0 l = foldr Z.add 0 l'.
Proof.
  induction 1 as [|c l l' _ IH|c c' l|l l' l'' _ IH1 _ IH2]; simpl; lia.
Qed.

Lemma stacks_sum_values (m : gmap string Z) :
  stacks_sum m = foldr Z.add 0 (map_to_list m).*2.
Proof.
  unfold stacks_sum. rewrite map_fold_foldr.
  induction (map_to_list m) as [|[k v] l IH]; [done|].
  simpl. by rewrite IH.
Qed.

Lemma count_sum_keys (m : gmap string Z) o :
  foldr Z.add 0 (map (fun k => default 0 (m !! k)) (sort_Strings (map_keys o m)))
  = stacks_sum m.
Proof.
  rewrite stacks_sum_values. apply sum_perm.
  rewrite sort_Strings_elems, map_keys_perm.
  assert (forall l : list (string * Z),
            Forall (fun kv => m !! kv.1 = Some kv.2) l ->
            map (fun k => default 0 (m !! k)) l.*1 = l.*2) as Hl.
  { induction 1 as [|[k v] l Hkv _ IH]; [done|].
    rewrite !fmap_cons. cbn [map fst snd] in *. rewrite Hkv.
    simpl. f_equal. exact IH. }
  rewrite Hl; [done|]. apply Forall_forall. intros [k v] H.
  by apply elem_of_map_to_list.
Qed.

End RoundTrip.

(** X13. [GenerateSVG] reads the folded text that [writeCollapsed] writes
    back record by record, when no stack has a space or a newline, every
    stack is short enough for its line to fit the buffer of the scanner,
    and no count is zero: one record for every stack, in the increasing
    order of the stacks, with the frames the stack is made of and with its
    count; so the number of samples is the sum of the counts, in the
    arithmetic of [int]. *)
Theorem folded_round_trip (o : map_order) (m : gmap string Z) :
  map_Forall readable m ->
  svg_records (writeCollapsed o m)
  = map (fun k => (GoStr.Split k ";", default 0 (m !! k)))
        (GoStr.sort_Strings (map_keys o m)) /\
  (parse_collapsed (writeCollapsed o m)).2 = GoInt.wrap (stacks_sum m).
Proof.
  intros Hm.
  assert (Forall (fun k => exists v, m !! k = Some v /\ readable k v)
                 (GoStr.sort_Strings (map_keys o m))) as Hkeys.
  { apply Forall_forall. intros k Hk. rewrite sort_Strings_elems in Hk.
    apply elem_of_map_keys in Hk as [v Hv]. exists v. split; [done|].
    by apply (Hm k v). }
  destruct (folded_lines_records m _ Hkeys) as (Hnl & Hshort & Hrecs).
  assert (svg_records (writeCollapsed o m)
          = map (fun k => (GoStr.Split k ";", default 0 (m !! k)))
                (GoStr.sort_Strings (map_keys o m))) as Hr.
  { unfold svg_records. by rewrite writeCollapsed_lines, scan_text_of_lines. }
  split; [done|].
  destruct (parse_invariant (GoStr.scan_lines (writeCollapsed o m))
              (newFrame "root") 0 [] conserved_init eq_refl eq_refl)
    as (_ & Hv & Ht).
  fold (parse_collapsed (writeCollapsed o m)) in Hv, Ht.
  rewrite Ht, Hv. f_equal. simpl. fold (svg_records (writeCollapsed o m)).
  rewrite Hr, <-(count_sum_keys m o).
  unfold count_sum. generalize (GoStr.sort_Strings (map_keys o m)).
  intros l. induction l as [|k l IH]; [done|]. simpl. by rewrite IH.
Qed.

Lemma folded_round_trip_witness :
  svg_records (writeCollapsed order_rev {["a;b" := 2; "a;c" := 1]})
  = map (fun k => (GoStr.Split k ";",
                   default 0 (({["a;b" := 2; "a;c" := 1]} : gmap string Z) !! k)))
        (GoStr.sort_Strings (map_keys order_rev
           ({["a;b" := 2; "a;c" := 1]} : gmap string Z))).
Proof.
  refine (proj1 (folded_round_trip order_rev {["a;b" := 2; "a;c" := 1]} _)).
  apply (bool_decide_unpack _). by vm_compute.
Defined.

(** ** From the profiler text to the image *)

Section FieldBytes.
Import GoStr GoStrIndex.

#[local] Arguments Ascii.eqb : simpl never.

Lemma match_len_zero pats s p :
  forallb (fun q => negb (String.eqb q "")) pats = true ->
  match_len pats s = 0%nat -> p ∈ pats -> String.prefix p s = false.
Proof.
  induction pats as [|q pats IH]; [by intros _ _ ?%elem_of_nil|].
  cbn [match_len forallb]. intros [Hq Hpats]%andb_prop.
  destruct (String.prefix q s) eqn:E.
  - by destruct q.
  - intros H0 [->|Hp]%elem_of_cons; [done|by apply IH].
Qed.

Lemma has_byte_rev_app c a b :
  has_byte c (String.rev_app a b) = has_byte c a || has_byte c b.
Proof.
  revert b. induction a as [|d a IH]; intros b; [done|].
  cbn [String.rev_app has_byte]. rewrite IH. cbn [has_byte].
  destruct (Ascii.eqb c d), (has_byte c a), (has_byte c b); done.
Qed.

Lemma has_byte_rev c a : has_byte c (rev a) = has_byte c a.
Proof. unfold String.rev. by rewrite has_byte_rev_app, orb_false_r. Qed.

(** No field has a byte that is a white space rune by itself. *)
Lemma fields_from_free b s : forall cur skip t,
  String b "" ∈ space_runes ->
  has_byte b cur = false -> t ∈ fields_from cur skip s -> has_byte b t = false.
Proof.
  induction s as [|c s IH]; intros cur skip t Hb Hcur.
  - cbn [fields_from]. destruct cur; [by intros ?%elem_of_nil|].
    intros ->%list_elem_of_singleton. by rewrite has_byte_rev.
  - cbn [fields_from]. destruct skip as [|k];
      [|intros Ht; exact (IH "" k t Hb eq_refl Ht)].
    destruct (space_len (String c s)) as [|k] eqn:E.
    + apply IH; [done|]. cbn [has_byte]. rewrite Hcur, orb_false_r.
      apply Ascii.eqb_neq. intros ->.
      pose proof (match_len_zero space_runes _ _ eq_refl E Hb) as Hp.
      cbn [String.prefix] in Hp. destruct (ascii_dec c c); [by destruct s|done].
    + intros [Ht|Ht]%elem_of_app; [|exact (IH "" k t Hb eq_refl Ht)].
      destruct cur; [by apply elem_of_nil in Ht|].
      apply list_elem_of_singleton in Ht as ->. by rewrite has_byte_rev.
Qed.

Lemma Fields_free b s t :
  String b "" ∈ space_runes -> t ∈ Fields s -> has_byte b t = false.
Proof. intros Hb. by apply fields_from_free. Qed.

Lemma strip_offset_free b f : has_byte b f = false -> has_byte b (strip_offset f) = false.
Proof.
  intros Hf. destruct (strip_offset_cases f) as [[_ ->]|(a & r & -> & _ & ->)];
    [done|].
  case_decide; [done|]. rewrite has_byte_app in Hf. by apply orb_false_elim in Hf as [-> _].
Qed.

Lemma Join_free b sep l :
  has_byte b sep = false -> Forall (fun t => has_byte b t = false) l ->
  has_byte b (Join l sep) = false.
Proof.
  intros Hsep. unfold Join. induction 1 as [|t l Ht Hl IH]; [done|].
  cbn [String.concat]. destruct l as [|t' l']; [done|].
  by rewrite !has_byte_app, Ht, Hsep, IH.
Qed.

(** The frames of a line of the leaf-first format have no space and no
    newline. *)
Lemma perf_frame_free b l x :
  String b "" ∈ space_runes -> x ∈ perf_frame l -> has_byte b x = false.
Proof.
  intros Hb. unfold perf_frame, perf_line, perf_flush. cbn [currentStack].
  destruct (String.eqb (TrimSpace l) ""); [by intros ?%elem_of_nil|].
  destruct (HasPrefix l tab || HasPrefix l "  "); [|by intros ?%elem_of_nil].
  destruct (Fields (TrimSpace l)) as [|f0 [|f1 fs]] eqn:E;
    [by intros ?%elem_of_nil..|].
  cbn [currentStack app]. intros ->%list_elem_of_singleton.
  apply strip_offset_free, (Fields_free b (TrimSpace l)); [done|].
  rewrite E. right. by left.
Qed.

Lemma perf_key_free b r k :
  String b "" ∈ space_runes -> perf_key r = Some k -> has_byte b k = false.
Proof.
  intros Hb. unfold perf_key. case_match; [|done]. intros [= <-].
  apply Join_free.
  - destruct (decide (b = ";"%char)) as [->|Hne].
    { apply (bool_decide_pack _) in Hb. by vm_compute in Hb. }
    cbn [has_byte]. by rewrite (proj2 (Ascii.eqb_neq b ";") Hne).
  - apply Forall_forall. intros x Hx. rewrite elem_of_reverse in Hx.
    apply list_elem_of_In, in_concat in Hx as (fs & Hfs & Hx).
    apply in_map_iff in Hfs as (l & <- & _).
    apply (perf_frame_free b l); [done|]. by apply list_elem_of_In.
Qed.

End FieldBytes.

Section Pipeline.
Import GoIntFacts.

Lemma stacks_sum_insert_new (m : gmap string Z) k v :
  m !! k = None -> stacks_sum (<[k:=v]> m) = v + stacks_sum m.
Proof.
  intros H. unfold stacks_sum. rewrite map_fold_insert_L; [done|intros; lia|done].
Qed.

Lemma stacks_sum_insert_old (m : gmap string Z) k v v0 :
  m !! k = Some v0 -> stacks_sum (<[k:=v]> m) = v + stacks_sum m - v0.
Proof.
  intros H. rewrite <-insert_delete_eq.
  rewrite stacks_sum_insert_new by apply lookup_delete_eq.
  unfold stacks_sum.
  rewrite (map_fold_delete_L _ _ k v0 m); [lia|intros; lia|done].
Qed.

(** Counting a record adds its count to the sum of the map, in the
    arithmetic of [int]. *)
Lemma stacks_sum_bump m k n :
  GoInt.wrap (stacks_sum (bump m k n)) = GoInt.wrap (stacks_sum m + n).
Proof.
  unfold bump. destruct (m !! k) as [v0|] eqn:E; simpl.
  - rewrite (stacks_sum_insert_old _ _ _ v0 E). unfold GoInt.add.
    replace (GoInt.wrap (v0 + n) + stacks_sum m - v0)
      with (GoInt.wrap (v0 + n) + (stacks_sum m - v0)) by lia.
    rewrite wrap_wrap_add. f_equal. lia.
  - rewrite (stacks_sum_insert_new _ _ _ E). unfold GoInt.add.
    rewrite wrap_wrap_add. f_equal. lia.
Qed.

Lemma keyed_sum_app a b : keyed_sum (a ++ b) = keyed_sum a + keyed_sum b.
Proof.
  unfold keyed_sum. induction a as [|r a IH]; [done|].
  simpl. rewrite IH. destruct r.1; lia.
Qed.

Lemma stacks_sum_tally recs :
  GoInt.wrap (stacks_sum (foldl tally_effect ∅ recs)) = GoInt.wrap (keyed_sum recs).
Proof.
  induction recs as [|r recs IH] using rev_ind; [done|].
  rewrite foldl_app. cbn [foldl]. unfold tally_effect at 1.
  rewrite keyed_sum_app. unfold keyed_sum at 2. cbn [foldr].
  destruct r.1 as [k|].
  - rewrite stacks_sum_bump, <-wrap_wrap_add, IH, wrap_wrap_add.
    f_equal. lia.
  - by rewrite Z.add_0_r.
Qed.

Lemma keyed_sum_perf rs :
  keyed_sum (map (fun r => (perf_key r, 1)) rs) = perf_samples rs.
Proof.
  unfold keyed_sum, perf_samples. induction rs as [|r rs IH]; [done|].
  cbn [map foldr fst snd]. rewrite filter_cons, IH.
  destruct (perf_key r); [rewrite decide_True by done|
                          rewrite decide_False by by intros [? ?]]; simpl; lia.
Qed.

Lemma occurrences_le rs k : (occurrences rs k <= length rs)%nat.
Proof. unfold occurrences. apply length_filter. Qed.

(** The map of the leaf-first folder is read back as it is written. *)
Lemma perf_stacks_readable rs :
  Z.of_nat (length rs) <= GoInt.max_int -> perf_keys_short rs = true ->
  map_Forall readable (foldl perf_effect ∅ rs).
Proof.
  intros Hlen Hkeys k v.
  rewrite (foldl_tally perf_effect (fun r => (perf_key r, 1)))
    by (apply Forall_forall; intros r _ m; apply perf_effect_tally).
  rewrite tally_lookup, tally_occurrences. case_decide as E; [|done].
  intros [= <-].
  pose proof (proj1 (Exists_occurrences rs k) E) as Hocc.
  pose proof (occurrences_le rs k) as Hle.
  apply Exists_exists in E as ([k' n] & Hin & Hk). simpl in Hk. subst k'.
  apply list_elem_of_In, in_map_iff in Hin as (r & [= Hr _] & Hrin).
  assert (GoStr.len k <= max_key) as Hk.
  { unfold perf_keys_short in Hkeys. rewrite forallb_forall in Hkeys.
    specialize (Hkeys r Hrin). rewrite Hr in Hkeys. by apply Z.leb_le. }
  assert (GoInt.wrap (Z.of_nat (occurrences rs k)) = Z.of_nat (occurrences rs k))
    as ->.
  { apply wrap_small. unfold GoInt.in_range, GoInt.min_int, GoInt.max_int in *. lia. }
  split_and!.
  - apply (perf_key_free _ r); [|done]. apply (bool_decide_unpack _). by vm_compute.
  - apply (perf_key_free _ r); [|done]. apply (bool_decide_unpack _). by vm_compute.
  - done.
  - unfold GoInt.in_range, GoInt.min_int, GoInt.max_int in *. lia.
  - lia.
Qed.

End Pipeline.

(** X14. From the profiler text to the image: when [GenerateSVG] is given
    the text that [CollapsePerf] has folded, the number of samples it
    finds is the number of the records that have a frame, and it returns
    the error of the empty profile exactly when there is no such record;
    this when every line of the profiler text, and every line of the
    folded text, fits the buffer of the scanner. *)
Theorem perf_pipeline_samples (o o' : map_order) (rs : list (list string))
    (opts : SVGOptions) :
  forallb perf_record rs = true ->
  perf_short rs = true -> perf_keys_short rs = true ->
  Z.of_nat (length rs) <= GoInt.max_int ->
  let folded := CollapsePerf o (perf_text rs) in
  (parse_collapsed folded).2 = perf_samples rs /\
  ((GenerateSVG o' folded opts).2 = Some no_samples <-> perf_samples rs = 0) /\
  ((GenerateSVG o' folded opts).2 = None <-> perf_samples rs <> 0).
Proof.
  intros Hrs Hshort Hkeys Hlen folded.
  assert ((parse_collapsed folded).2 = perf_samples rs) as Ht.
  { unfold folded. rewrite CollapsePerf_records by done.
    pose proof (perf_stacks_readable rs Hlen Hkeys) as Hread.
    destruct (parse_invariant
                (GoStr.scan_lines (writeCollapsed o (foldl perf_effect ∅ rs)))
                (newFrame "root") 0 [] conserved_init eq_refl eq_refl)
      as (_ & Hv & Ht).
    fold (parse_collapsed (writeCollapsed o (foldl perf_effect ∅ rs))) in Hv, Ht.
    rewrite Ht, Hv. simpl.
    fold (svg_records (writeCollapsed o (foldl perf_effect ∅ rs))).
    destruct (folded_lines_records (foldl perf_effect ∅ rs)
                (GoStr.sort_Strings (map_keys o (foldl perf_effect ∅ rs))))
      as (Hnl & Hsl & Hrecs).
    { apply Forall_forall. intros k Hk. rewrite sort_Strings_elems in Hk.
      apply elem_of_map_keys in Hk as [v Hv']. exists v. split; [done|].
      by apply (Hread k v). }
    unfold svg_records.
    rewrite writeCollapsed_lines, scan_text_of_lines, Hrecs by done.
    assert (forall l : list string,
              count_sum (map (fun k => (GoStr.Split k ";",
                                        default 0 (foldl perf_effect ∅ rs !! k))) l)
              = foldr Z.add 0
                  (map (fun k => default 0 (foldl perf_effect ∅ rs !! k)) l)) as ->.
    { intros l. unfold count_sum. induction l as [|k l IH]; [done|].
      simpl. by rewrite IH. }
    rewrite count_sum_keys.
    rewrite (foldl_tally perf_effect (fun r => (perf_key r, 1)))
      by (apply Forall_forall; intros r _ m; apply perf_effect_tally).
    rewrite stacks_sum_tally, keyed_sum_perf.
    apply GoIntFacts.wrap_small. unfold perf_samples.
    pose proof (length_filter (fun r => is_Some (perf_key r)) rs).
    unfold GoInt.in_range, GoInt.min_int, GoInt.max_int in *. lia. }
  split; [done|]. unfold GenerateSVG.
  destruct (parse_collapsed folded) as [root total]. simpl in Ht. subst total.
  destruct (Z.eqb_spec (perf_samples rs) 0) as [E|E]; simpl.
  - split; [by split|]. split; [done|]. by intros ?.
  - split; [|by split]. split; [done|]. by intros ?.
Qed.

Lemma perf_pipeline_samples_witness :
  (parse_collapsed (CollapsePerf order_id
     (perf_text [[GoStr.tab +:+ " 0 main+0x4 (app)"]]))).2
  = perf_samples [[GoStr.tab +:+ " 0 main+0x4 (app)"]].
Proof.
  refine (proj1 (perf_pipeline_samples order_id order_rev
                   [[GoStr.tab +:+ " 0 main+0x4 (app)"]]
                   DefaultSVGOptions _ _ _ _)).
  - by vm_compute.
  - by vm_compute.
  - by vm_compute.
  - by vm_compute.
Defined.

(** ** Frame lines of the leaf-first format *)

Section PerfLines.
Import GoStr GoStrIndex.

#[local] Arguments Ascii.eqb : simpl never.

(** A printable byte begins no white space rune and ends none. *)
Lemma printable_plain c :
  printable c = true ->
  begins space_runes c = false /\ begins (map rev space_runes) c = false /\
  c <> byte 13 /\ c <> newline.
Proof.
  destruct c as [[] [] [] [] [] [] [] []]; intros H; try done;
    by vm_compute.
Qed.

Lemma printable_all_app a b :
  printable_all (a +:+ b) = printable_all a && printable_all b.
Proof.
  induction a as [|c a IH]; [done|].
  change (printable_all (String c (a +:+ b))
          = printable_all (String c a) && printable_all b).
  cbn [printable_all]. rewrite IH. by destruct (printable c).
Qed.

Lemma printable_no_newline s :
  printable_all s = true -> has_byte newline s = false.
Proof.
  induction s as [|c s IH]; [done|]. cbn [printable_all has_byte].
  intros [Hc Hs]%andb_prop. rewrite (IH Hs), orb_false_r.
  apply Ascii.eqb_neq. intros <-. by vm_compute in Hc.
Qed.

Lemma word_last s :
  word s = true -> exists a c, s = a +:+ String c "" /\ printable c = true.
Proof.
  unfold word. intros [Hne Hs]%andb_prop.
  induction s as [|c s IH]; [done|]. cbn [printable_all] in Hs.
  apply andb_prop in Hs as [Hc Hs]. destruct s as [|c' s'].
  - by exists "", c.
  - destruct (IH eq_refl Hs) as (a & c0 & Ea & Hc0).
    exists (String c a), c0. split; [|done].
    change (String c (String c' s') = String c (a +:+ String c0 "")).
    by rewrite Ea.
Qed.

(** The fields of a text that begins with a word. *)
Lemma fields_from_word t rest : forall cur,
  printable_all t = true ->
  fields_from cur 0 (t +:+ rest) = fields_from (String.rev_app t cur) 0 rest.
Proof.
  induction t as [|c t IH]; intros cur Ht; [done|].
  cbn [printable_all] in Ht. apply andb_prop in Ht as [Hc Ht].
  change (String c t +:+ rest) with (String c (t +:+ rest)).
  cbn [fields_from String.rev_app].
  destruct (printable_plain c Hc) as (Hb & _).
  unfold space_len. rewrite (match_len_begins _ _ _ Hb). by apply IH.
Qed.

Lemma fields_from_space cur rest :
  fields_from cur 0 (String " " rest)
  = match cur with EmptyString => [] | _ => [rev cur] end
    ++ fields_from EmptyString 0 rest.
Proof. by destruct rest. Qed.

Lemma rev_app_nonempty t cur : t <> "" -> String.rev_app t cur <> "".
Proof.
  revert cur. induction t as [|c t IH]; intros cur Ht; [done|].
  cbn [String.rev_app]. destruct t as [|c' t']; [done|]. by apply IH.
Qed.

Lemma Fields_word_space t rest :
  word t = true -> Fields (t +:+ " " +:+ rest) = t :: Fields rest.
Proof.
  unfold word. intros [Hne Ht]%andb_prop. unfold Fields.
  rewrite fields_from_word by done.
  change (" " +:+ rest) with (String " " rest). rewrite fields_from_space.
  assert (t <> "") as Hne' by (by destruct t).
  pose proof (rev_app_nonempty t "" Hne') as Hr.
  destruct (String.rev_app t "") eqn:E; [done|]. rewrite <-E.
  cbn [app]. f_equal. apply (rev_rev_app t "").
Qed.

Lemma Fields_word t : word t = true -> Fields t = [t].
Proof.
  unfold word. intros [Hne Ht]%andb_prop. unfold Fields.
  assert (t = t +:+ "") as E.
  { clear. induction t as [|c t IH]; [done|].
    change (String c t = String c (t +:+ "")). by rewrite <-IH. }
  rewrite E at 1. rewrite fields_from_word by done. cbn [fields_from].
  assert (t <> "") as Hne' by (by destruct t).
  pose proof (rev_app_nonempty t "" Hne') as Hr.
  destruct (String.rev_app t "") eqn:E'; [done|]. rewrite <-E'.
  f_equal. apply (rev_rev_app t "").
Qed.

Lemma trim_front_spaces n c rest :
  printable c = true ->
  trim_front space_len 0 (spaces n +:+ String c rest) = String c rest.
Proof.
  intros Hc. induction n as [|n IH].
  - change (spaces 0 +:+ String c rest) with (String c rest).
    cbn [trim_front]. destruct (printable_plain c Hc) as (Hb & _).
    unfold space_len. by rewrite (match_len_begins _ _ _ Hb).
  - change (spaces (S n) +:+ String c rest)
      with (String " " (spaces n +:+ String c rest)).
    cbn [trim_front].
    assert (space_len (String " " (spaces n +:+ String c rest)) = 1%nat) as ->
      by by destruct (spaces n +:+ String c rest).
    exact IH.
Qed.

(** [TrimSpace] removes the indentation of a line that begins and ends
    with a printable byte. *)
Lemma TrimSpace_indented n a c c0 rest :
  a +:+ String c "" = String c0 rest ->
  printable c0 = true -> printable c = true ->
  TrimSpace (tab +:+ spaces n +:+ a +:+ String c "") = a +:+ String c "".
Proof.
  intros E Hc0 Hc. unfold TrimSpace.
  assert (trim_front space_len 0 (tab +:+ spaces n +:+ a +:+ String c "")
          = a +:+ String c "") as ->.
  { change (tab +:+ ?s) with (String (byte 9) s). cbn [trim_front].
    assert (space_len (String (byte 9) (spaces n +:+ a +:+ String c "")) = 1%nat)
      as -> by by destruct (spaces n +:+ a +:+ String c "").
    rewrite E. by apply trim_front_spaces. }
  unfold String.rev at 2. rewrite rev_app_app. cbn [String.rev_app trim_front].
  destruct (printable_plain c Hc) as (_ & Hb & _).
  unfold space_len_rev. rewrite (match_len_begins _ _ _ Hb).
  change (String c (String.rev_app a ""))
    with (String.rev_app (String c "") (String.rev_app a "")).
  rewrite <-rev_app_app. apply (rev_rev_app _ "").
Qed.

Lemma word_app_l a b : word a = true -> printable_all b = true -> word (a +:+ b) = true.
Proof.
  unfold word. intros [Hne Ha]%andb_prop Hb.
  rewrite printable_all_app, Ha, Hb. by destruct a.
Qed.

Lemma printable_all_word a b :
  printable_all a = true -> word b = true -> word (a +:+ b) = true.
Proof.
  unfold word. intros Ha [Hne Hb]%andb_prop.
  rewrite printable_all_app, Ha, Hb.
  destruct a; [change ("" +:+ b) with b; by rewrite Hne|done].
Qed.

Lemma word_printable a : word a = true -> printable_all a = true.
Proof. unfold word. by intros [_ ?]%andb_prop. Qed.

(** A frame line, as the loop of [CollapsePerf] reads it. *)
Lemma perf_frame_line_read fr :
  perf_frame_ok fr = true ->
  has_byte newline (perf_frame_line fr) = false /\
  scanned (perf_frame_line fr) = perf_frame_line fr /\
  TrimSpace (perf_frame_line fr) <> "" /\
  forall st, perf_line st (perf_frame_line fr)
             = Folder (stacks st) (currentStack st ++ [pf_sym fr]).
Proof.
  unfold perf_frame_ok, perf_frame_line.
  destruct fr as [n addr sym off dso]. cbn [pf_pad pf_addr pf_sym pf_off pf_dso].
  intros [[[[Haddr Hsym]%andb_prop Hplus]%andb_prop Hoff]%andb_prop Hdso]%andb_prop.
  apply negb_true_iff in Hplus.
  set (T := sym +:+ "+" +:+ off).
  assert (word T = true) as HT by (apply word_app_l; [done|by apply andb_true_intro]).
  set (body := addr +:+ " " +:+ T +:+ " " +:+ dso).
  assert (addr +:+ " " +:+ sym +:+ "+" +:+ off +:+ " " +:+ dso = body) as Eb.
  { unfold body, T. f_equal. f_equal. by rewrite !append_assoc. }
  rewrite Eb.
  destruct (word_last dso Hdso) as (d & c & Ed & Hc).
  assert (exists a, body = a +:+ String c "") as [a Ea].
  { exists (addr +:+ " " +:+ T +:+ " " +:+ d). unfold body. rewrite Ed.
    by rewrite !append_assoc. }
  assert (has_byte newline (tab +:+ spaces n +:+ body) = false) as Hnl.
  { unfold body. rewrite !has_byte_app.
    rewrite (printable_no_newline addr), (printable_no_newline T),
      (printable_no_newline dso) by by apply word_printable.
    assert (has_byte newline (spaces n) = false) as ->
      by (induction n; [done|by cbn [has_byte spaces]]).
    done. }
  assert (body <> "") as Hne.
  { unfold body. unfold word in Haddr. by destruct addr. }
  assert (TrimSpace (tab +:+ spaces n +:+ body) = body) as Htrim.
  { unfold word in Haddr. apply andb_prop in Haddr as [Hn Haddr].
    destruct addr as [|c0 addr']; [done|]. cbn [printable_all] in Haddr.
    apply andb_prop in Haddr as [Hc0 _].
    rewrite Ea. apply (TrimSpace_indented n a c c0
                         (addr' +:+ " " +:+ T +:+ " " +:+ dso)); try done. }
  split_and!; [done| | |].
  - rewrite Ea. rewrite <-!append_assoc. apply scanned_keep.
    by destruct (printable_plain c Hc) as (_ & _ & ? & _).
  - by rewrite Htrim.
  - intros st. unfold perf_line. rewrite Htrim.
    rewrite (proj2 (String.eqb_neq body "") Hne).
    unfold HasPrefix at 1. rewrite prefix_app. cbn [orb].
    unfold body at 1. rewrite Fields_word_space by done.
    rewrite Fields_word_space by done.
    do 3 f_equal. unfold T. apply strip_offset_named.
    + unfold word in Hsym. by destruct sym.
    + by apply Index_absent.
Qed.

(** The lines of a record, as the loop of [CollapsePerf] reads them. *)
Lemma perf_lines_read frs :
  Forall (fun fr => perf_frame_ok fr = true) frs ->
  perf_record (map perf_frame_line frs) = true /\
  concat (map perf_frame (map scanned (map perf_frame_line frs)))
  = map pf_sym frs.
Proof.
  induction 1 as [|fr frs Hfr _ [IH1 IH2]]; [done|].
  destruct (perf_frame_line_read fr Hfr) as (Hnl & Hsc & Hne & Hline).
  cbn [map concat perf_record forallb]. split.
  - unfold blank. rewrite Hnl, Hsc.
    rewrite (proj2 (String.eqb_neq _ "") Hne). exact IH1.
  - rewrite Hsc, IH2. unfold perf_frame. by rewrite Hline.
Qed.

Lemma perf_lines_key frs :
  Forall (fun fr => perf_frame_ok fr = true) frs ->
  perf_key (map perf_frame_line frs)
  = match frs with
    | [] => None
    | _ => Some (Join (reverse (map pf_sym frs)) ";")
    end.
Proof.
  intros Hall. destruct (perf_lines_read frs Hall) as [_ Hfs].
  unfold perf_key. rewrite Hfs, length_map. by destruct frs.
Qed.

End PerfLines.

(** X15. A record of [perf script] is folded into its symbols: of every
    frame line, made of a tab and spaces, an address, a symbol with its
    offset and an object, all of printable bytes, [CollapsePerf] keeps the
    symbol, and the key of the record is the symbols from the last line to
    the first, joined by semicolons. *)
Theorem perf_record_key (frs : list perf_frame_desc) :
  forallb perf_frame_ok frs = true ->
  let r := map perf_frame_line frs in
  perf_record r = true /\
  (forall st fr, fr ∈ frs ->
     perf_line st (perf_frame_line fr)
     = Folder (stacks st) (currentStack st ++ [pf_sym fr])) /\
  (frs <> [] ->
   perf_key r = Some (GoStr.Join (reverse (map pf_sym frs)) ";")).
Proof.
  intros Hok r.
  assert (Forall (fun fr => perf_frame_ok fr = true) frs) as Hall.
  { apply Forall_forall. intros fr Hfr. rewrite forallb_forall in Hok.
    apply Hok. by apply list_elem_of_In. }
  destruct (perf_lines_read frs Hall) as [Hrec Hfs].
  split_and!; [done| |].
  - intros st fr Hfr. eapply Forall_forall in Hall; [|done].
    by apply perf_frame_line_read.
  - intros Hne. unfold r. rewrite perf_lines_key by done. by destruct frs.
Qed.

Lemma perf_record_key_witness :
  perf_record (map perf_frame_line
                 [PerfFrame 4 "7f3a10" "malloc" "0x1a" "(libc.so.6)";
                  PerfFrame 4 "401136" "main" "0x24" "(app)"]) = true.
Proof.
  refine (proj1 (perf_record_key
                   [PerfFrame 4 "7f3a10" "malloc" "0x1a" "(libc.so.6)";
                    PerfFrame 4 "401136" "main" "0x24" "(app)"] _)).
  by vm_compute.
Defined.

(** ** The flame graph of a profile *)

Section SplitJoin.
Import GoStr GoStrIndex.

#[local] Arguments Ascii.eqb : simpl never.

Lemma split_from_free c t : forall cur,
  has_byte c t = false -> split_from cur c t = [rev (String.rev_app t cur)].
Proof.
  induction t as [|d t IH]; intros cur Ht; [done|].
  cbn [has_byte] in Ht. apply orb_false_elim in Ht as [Hd Ht].
  cbn [split_from String.rev_app]. rewrite Hd. by apply IH.
Qed.

Lemma split_from_sep c t rest : forall cur,
  has_byte c t = false ->
  split_from cur c (t +:+ String c rest)
  = rev (String.rev_app t cur) :: split_from EmptyString c rest.
Proof.
  induction t as [|d t IH]; intros cur Ht.
  - change ("" +:+ String c rest) with (String c rest).
    cbn [split_from String.rev_app]. by rewrite Ascii.eqb_refl.
  - cbn [has_byte] in Ht. apply orb_false_elim in Ht as [Hd Ht].
    change (String d t +:+ String c rest) with (String d (t +:+ String c rest)).
    cbn [split_from String.rev_app]. rewrite Hd. by apply IH.
Qed.

(** Splitting a key gives back the frames it was joined from. *)
Lemma Split_Join l :
  l <> [] -> Forall (fun t => has_byte ";" t = false) l ->
  Split (Join l ";") ";" = l.
Proof.
  intros Hne Hl. unfold Split, Join.
  induction Hl as [|t l Ht Hl IH]; [done|]. clear Hne.
  cbn [String.concat]. destruct l as [|t' l'].
  - rewrite split_from_free by done. f_equal. apply (rev_rev_app t "").
  - change (t +:+ ";" +:+ ?s) with (t +:+ String ";" s).
    rewrite split_from_sep by done. f_equal; [apply (rev_rev_app t "")|].
    by apply IH.
Qed.

End SplitJoin.

Section KeyCounts.

Lemma occurrences_cons r rs k :
  occurrences (r :: rs) k
  = ((if decide (perf_key r = Some k) then 1 else 0) + occurrences rs k)%nat.
Proof. unfold occurrences. rewrite filter_cons. by case_decide. Qed.

(** Over keys without repetition, one key is met once. *)
Lemma sum_indicator (p : string -> bool) (keys : list string) k0 :
  NoDup keys -> k0 ∈ keys ->
  foldr (fun k acc =>
           ((if p k then if decide (Some k0 = Some k) then 1 else 0 else 0) + acc)%nat)
        0%nat keys
  = if p k0 then 1%nat else 0%nat.
Proof.
  induction 1 as [|k keys Hk Hnd IH]; [by intros ?%elem_of_nil|].
  cbn [foldr]. intros [->|Hin]%elem_of_cons.
  - rewrite decide_True by done.
    assert (foldr (fun k1 acc =>
              ((if p k1 then if decide (Some k = Some k1) then 1 else 0 else 0)
               + acc)%nat) 0%nat keys = 0%nat) as Hz; [|rewrite Hz; destruct (p k); lia].
    clear IH Hnd. induction keys as [|k' keys IH]; [done|].
    cbn [foldr]. rewrite IH by (intros ?; apply Hk; by right).
    rewrite decide_False; [by destruct (p k')|].
    intros [= ->]. apply Hk. by left.
  - rewrite IH by done.
    rewrite decide_False; [by destruct (p k)|].
    intros [= ->]. done.
Qed.

Lemma sum_no_key (p : string -> bool) (keys : list string) (o : option string) :
  o = None ->
  foldr (fun k acc =>
           ((if p k then if decide (o = Some k) then 1 else 0 else 0) + acc)%nat)
        0%nat keys = 0%nat.
Proof.
  intros ->. induction keys as [|k keys IH]; [done|]. cbn [foldr]. rewrite IH.
  destruct (p k); [|done]. by rewrite decide_False.
Qed.

(** The records counted key by key are the records counted one by one. *)
Lemma occurrences_sum (p : string -> bool) (keys : list string) rs :
  NoDup keys ->
  (forall r k, r ∈ rs -> perf_key r = Some k -> k ∈ keys) ->
  foldr (fun k acc => ((if p k then occurrences rs k else 0) + acc)%nat) 0%nat keys
  = keyed_count p rs.
Proof.
  intros Hnd. unfold keyed_count. induction rs as [|r rs IH]; intros Hkeys.
  - clear. induction keys as [|k keys IH]; [done|]. cbn [foldr]. rewrite IH.
    by destruct (p k).
  - assert (foldr (fun k acc =>
              ((if p k then occurrences (r :: rs) k else 0) + acc)%nat) 0%nat keys
            = (foldr (fun k acc =>
                 ((if p k then if decide (perf_key r = Some k) then 1 else 0 else 0)
                  + acc)%nat) 0%nat keys
               + foldr (fun k acc =>
                   ((if p k then occurrences rs k else 0) + acc)%nat) 0%nat keys)%nat)
      as ->.
    { clear. induction keys as [|k keys IH]; [done|]. cbn [foldr].
      rewrite IH, occurrences_cons. destruct (p k); lia. }
    rewrite IH by (intros r' k Hr'; apply Hkeys; by right).
    rewrite filter_cons. destruct (perf_key r) as [k0|] eqn:E.
    + rewrite sum_indicator; [|done|by apply (Hkeys r); [left|]].
      cbn [from_option].
      destruct (p k0); [rewrite decide_True by done|rewrite decide_False by done];
        simpl; lia.
    + rewrite (sum_no_key p keys None eq_refl). cbn [from_option].
      by rewrite decide_False by done.
Qed.

End KeyCounts.

Section FlameTree.
Import GoIntFacts.

(** The map of the leaf-first folder, key by key. *)
Lemma perf_stacks_lookup rs k :
  Z.of_nat (length rs) <= GoInt.max_int ->
  default 0 (foldl perf_effect ∅ rs !! k) = Z.of_nat (occurrences rs k) /\
  (is_Some (foldl perf_effect ∅ rs !! k) <-> occurrences rs k <> 0%nat).
Proof.
  intros Hlen.
  rewrite (foldl_tally perf_effect (fun r => (perf_key r, 1)))
    by (apply Forall_forall; intros r _ m; apply perf_effect_tally).
  rewrite tally_lookup, tally_occurrences.
  pose proof (Exists_occurrences rs k) as Hex.
  pose proof (occurrences_le rs k) as Hle.
  case_decide as E; simpl.
  - split; [|by split; [intros _; apply Hex|eexists]].
    apply wrap_small. unfold GoInt.in_range, GoInt.min_int, GoInt.max_int in *. lia.
  - split; [|split; [by intros [? ?]|tauto]].
    destruct (occurrences rs k); [done|]. exfalso. apply E, Hex. done.
Qed.

(** The records [GenerateSVG] reads from what [writeCollapsed] wrote. *)
Lemma svg_records_written o (m : gmap string Z) :
  map_Forall readable m ->
  svg_records (writeCollapsed o m)
  = map (fun k => (GoStr.Split k ";", default 0 (m !! k)))
        (GoStr.sort_Strings (map_keys o m)).
Proof.
  intros Hm.
  destruct (folded_lines_records m (GoStr.sort_Strings (map_keys o m)))
    as (Hnl & Hshort & Hrecs).
  { apply Forall_forall. intros k Hk. rewrite sort_Strings_elems in Hk.
    apply elem_of_map_keys in Hk as [v Hv]. exists v. split; [done|].
    by apply (Hm k v). }
  unfold svg_records. by rewrite writeCollapsed_lines, scan_text_of_lines.
Qed.

(** The sum of the counts of the written records whose stack satisfies a
    test, key by key. *)
Lemma passing_keys (p : string -> bool) (cnt : string -> nat) (path : list string)
    (keys : list string) :
  (forall k, p k = bool_decide (path `prefix_of` GoStr.Split k ";")) ->
  passing (map (fun k => (GoStr.Split k ";", Z.of_nat (cnt k))) keys) path
  = Z.of_nat (foldr (fun k acc => ((if p k then cnt k else 0) + acc)%nat) 0%nat keys).
Proof.
  intros Hp. unfold passing. induction keys as [|k keys IH]; [done|].
  cbn [map foldr]. rewrite filter_cons. cbn [fst]. rewrite Hp.
  case_bool_decide.
  - rewrite decide_True by done. unfold count_sum in *. cbn [foldr snd].
    rewrite IH. lia.
  - rewrite decide_False by done. rewrite IH. lia.
Qed.

Lemma sum_positive (p : string -> bool) (cnt : string -> nat) (keys : list string) :
  (forall k, k ∈ keys -> cnt k <> 0%nat) ->
  (0 < foldr (fun k acc => ((if p k then cnt k else 0) + acc)%nat) 0%nat keys)%nat
  <-> Exists (fun k => p k = true) keys.
Proof.
  induction keys as [|k keys IH]; intros Hc.
  - simpl. rewrite Exists_nil. lia.
  - cbn [foldr]. rewrite Exists_cons.
    assert (forall k', k' ∈ keys -> cnt k' <> 0%nat) as Hc'
      by (intros k' Hk'; apply Hc; by right).
    specialize (IH Hc').
    assert (cnt k <> 0%nat) by (apply Hc; by left).
    destruct (p k) eqn:E.
    + split; [intros _; by left|intros _; lia].
    + rewrite Nat.add_0_l, IH. split; [intros; by right|by intros [?|?]].
Qed.

(** The records counted by their keys are the records counted by their
    stacks. *)
Lemma keyed_count_through (recs : list (list perf_frame_desc)) (path : list string) :
  Forall (fun r => Forall (fun fr => perf_frame_ok fr = true) r) recs ->
  Forall (fun r => Forall (fun fr => has_byte ";" (pf_sym fr) = false) r) recs ->
  keyed_count (fun k => bool_decide (path `prefix_of` GoStr.Split k ";"))
              (map (map perf_frame_line) recs)
  = through recs path.
Proof.
  unfold keyed_count, through.
  induction 1 as [|r recs Hr _ IH]; intros Hsemi; [done|].
  apply Forall_cons in Hsemi as [Hs Hsemi]. specialize (IH Hsemi).
  cbn [map]. rewrite !filter_cons, perf_lines_key by done.
  destruct r as [|fr r].
  - cbn [from_option]. rewrite decide_False by done.
    rewrite decide_False by (by intros [? _]). exact IH.
  - cbn [from_option].
    assert (perf_stack (fr :: r) <> []) as Hne.
    { unfold perf_stack. cbn [map]. rewrite reverse_cons.
      intros H. by apply app_eq_nil in H as [_ ?]. }
    rewrite Split_Join; [|done|].
    + case_bool_decide.
      * rewrite !decide_True by done. simpl. by rewrite IH.
      * rewrite decide_False by done.
        rewrite decide_False by (by intros [_ ?]). exact IH.
    + apply Forall_reverse, Forall_fmap. exact Hs.
Qed.

End FlameTree.

(** X16. The flame graph of a profile of [perf script]: when the records
    are made of frame lines of printable bytes whose symbols have no
    semicolon, and every frame line and every folded line fits the buffer
    of the scanner, the tree that [GenerateSVG] builds from the text folded
    by [CollapsePerf] has a node exactly at the root and at every path of
    symbols, root first, that the stack of some record begins with, and the
    value of the node is the number of the records whose stack begins
    with its path. *)
Theorem perf_flame_tree (o : map_order) (recs : list (list perf_frame_desc))
    (path : list string) :
  forallb (forallb perf_frame_ok) recs = true ->
  forallb (forallb (fun fr => negb (has_byte ";" (pf_sym fr)))) recs = true ->
  perf_short (map (map perf_frame_line) recs) = true ->
  perf_keys_short (map (map perf_frame_line) recs) = true ->
  Z.of_nat (length recs) <= GoInt.max_int ->
  let folded := CollapsePerf o (perf_text (map (map perf_frame_line) recs)) in
  let root := (parse_collapsed folded).1 in
  (is_Some (node_at root path) <-> path = [] \/ (0 < through recs path)%nat) /\
  (forall node, node_at root path = Some node ->
     value node = Z.of_nat (through recs path)).
Proof.
  intros Hok Hsemi Hshort Hkshort Hlen folded root.
  set (rs := map (map perf_frame_line) recs).
  assert (Forall (fun r => Forall (fun fr => perf_frame_ok fr = true) r) recs)
    as Hall.
  { apply Forall_forall. intros r Hr. apply Forall_forall. intros fr Hfr.
    rewrite forallb_forall in Hok.
    specialize (Hok r ltac:(by apply list_elem_of_In)).
    rewrite forallb_forall in Hok. apply Hok. by apply list_elem_of_In. }
  assert (Forall (fun r => Forall (fun fr => has_byte ";" (pf_sym fr) = false) r)
                 recs) as Hfree.
  { apply Forall_forall. intros r Hr. apply Forall_forall. intros fr Hfr.
    rewrite forallb_forall in Hsemi.
    specialize (Hsemi r ltac:(by apply list_elem_of_In)).
    rewrite forallb_forall in Hsemi. apply negb_true_iff, Hsemi.
    by apply list_elem_of_In. }
  assert (forallb perf_record rs = true) as Hrs.
  { unfold rs. clear -Hall. induction Hall as [|r recs Hr _ IH]; [done|].
    cbn [map forallb]. rewrite IH. by destruct (perf_lines_read r Hr) as [-> _]. }
  assert (Z.of_nat (length rs) <= GoInt.max_int) as Hlen'
    by (unfold rs; by rewrite length_map).
  set (m := foldl perf_effect ∅ rs).
  set (keys := GoStr.sort_Strings (map_keys o m)).
  set (p := fun k => bool_decide (path `prefix_of` GoStr.Split k ";")).
  assert (svg_records folded
          = map (fun k => (GoStr.Split k ";", Z.of_nat (occurrences rs k))) keys)
    as Hrecs.
  { unfold folded. fold rs. rewrite CollapsePerf_records by done. fold m.
    rewrite svg_records_written by by apply perf_stacks_readable.
    apply map_ext. intros k. f_equal.
    exact (proj1 (perf_stacks_lookup rs k Hlen')). }
  assert (forall k, k ∈ keys <-> occurrences rs k <> 0%nat) as Hkeys.
  { intros k. unfold keys. rewrite sort_Strings_elems, elem_of_map_keys.
    exact (proj2 (perf_stacks_lookup rs k Hlen')). }
  assert (NoDup keys) as Hnd.
  { unfold keys. rewrite sort_Strings_elems. apply NoDup_map_keys. }
  assert (foldr (fun k acc => ((if p k then occurrences rs k else 0) + acc)%nat)
                0%nat keys = through recs path) as Hsum.
  { rewrite occurrences_sum; [by apply keyed_count_through|done|].
    intros r k Hr Hk. apply Hkeys. unfold occurrences.
    intros H0. apply length_zero_iff_nil in H0.
    assert (r ∈ filter (fun r => perf_key r = Some k) rs) as Hin
      by by apply list_elem_of_filter.
    rewrite H0 in Hin. by apply elem_of_nil in Hin. }
  assert (passing (svg_records folded) path = Z.of_nat (through recs path)) as Hpass.
  { rewrite Hrecs, (passing_keys p); [by rewrite Hsum|done]. }
  assert (on_stack (svg_records folded) path
          <-> path = [] \/ (0 < through recs path)%nat) as Hon.
  { unfold on_stack. rewrite Hrecs, <-Hsum.
    rewrite (sum_positive p (occurrences rs) keys) by (intros k; apply Hkeys).
    rewrite Exists_fmap. unfold p.
    assert (Exists (fun k => bool_decide (path `prefix_of` GoStr.Split k ";") = true) keys
            <-> Exists ((fun r : list string * Z => path `prefix_of` r.1)
                        ∘ (fun k => (GoStr.Split k ";", Z.of_nat (occurrences rs k))))
                       keys) as ->; [|done].
    apply Exists_proper; [|done]. intros k. simpl.
    by rewrite bool_decide_eq_true. }
  pose proof (parse_counted (GoStr.scan_lines folded) (newFrame "root") 0 []
                counted_init path) as H.
  simpl in H. fold (parse_collapsed folded) in H.
  fold (svg_records folded) in H. fold root in H.
  pose proof (length_filter
                (fun r => perf_stack r <> [] /\ path `prefix_of` perf_stack r) recs)
    as Hle. fold (through recs path) in Hle.
  destruct (node_at root path) as [node|].
  - destruct H as [H1 H2]. split.
    + split; [intros _; by apply Hon|by eexists].
    + intros ? [= <-]. rewrite H2, Hpass. apply GoIntFacts.wrap_small.
      unfold GoInt.in_range, GoInt.min_int, GoInt.max_int in *. lia.
  - destruct H as [H1 H2]. split; [|done].
    split; [by intros [? ?]|]. intros Hp. exfalso. by apply H1, Hon.
Qed.

Lemma perf_flame_tree_witness :
  is_Some (node_at
    (parse_collapsed
       (CollapsePerf order_id
          (perf_text (map (map perf_frame_line)
             [[PerfFrame 4 "7f3a10" "malloc" "0x1a" "(libc.so.6)";
               PerfFrame 4 "401136" "main" "0x24" "(app)"]])))).1
    ["main"])
  <-> ["main"] = [] \/
      (0 < through [[PerfFrame 4 "7f3a10" "malloc" "0x1a" "(libc.so.6)";
                     PerfFrame 4 "401136" "main" "0x24" "(app)"]] ["main"])%nat.
Proof.
  refine (proj1 (perf_flame_tree order_id
                   [[PerfFrame 4 "7f3a10" "malloc" "0x1a" "(libc.so.6)";
                     PerfFrame 4 "401136" "main" "0x24" "(app)"]] ["main"]
                   _ _ _ _ _)).
  - by vm_compute.
  - by vm_compute.
  - by vm_compute.
  - by vm_compute.
  - by vm_compute.
Defined.

(** ** Lines that the leaf-first folder passes over *)

Section Noise.

Lemma perf_line_ignored st l :
  perf_ignored l = true -> perf_line st (scanned l) = st.
Proof.
  unfold perf_ignored, blank, perf_line.
  intros [Hb Hn]%andb_prop. apply negb_true_iff in Hb. rewrite Hb.
  destruct (GoStr.HasPrefix (scanned l) GoStr.tab || GoStr.HasPrefix (scanned l) "  ");
    [|done].
  cbn [negb orb] in Hn. apply Nat.ltb_lt in Hn.
  destruct (GoStr.Fields (GoStr.TrimSpace (scanned l))) as [|f0 [|f1 fs]];
    [done|done|]. simpl in Hn. lia.
Qed.

Lemma foldl_perf_line_ignored ls : forall st,
  foldl perf_line st (map scanned (filter (fun l => perf_ignored l = false) ls))
  = foldl perf_line st (map scanned ls).
Proof.
  induction ls as [|l ls IH]; intros st; [done|].
  rewrite filter_cons. cbn [map foldl].
  destruct (perf_ignored l) eqn:E.
  - rewrite decide_False by done. by rewrite perf_line_ignored.
  - rewrite decide_True by done. cbn [map foldl]. apply IH.
Qed.

End Noise.

(** X17. [CollapsePerf] passes over every line that is neither blank nor
    a frame line, such as the header of a sample: when every line fits
    the buffer of the scanner, the folded text is the same without these
    lines. Such a line does not end a record either. *)
Theorem CollapsePerf_ignores_noise (o : map_order) (ls : list string) :
  forallb (fun l => negb (has_byte GoStr.newline l)) ls = true ->
  forallb short_line ls = true ->
  CollapsePerf o (text_of_lines ls)
  = CollapsePerf o (text_of_lines (filter (fun l => perf_ignored l = false) ls)).
Proof.
  intros Hnl Hshort. unfold CollapsePerf.
  assert (forall p : string -> bool,
            forallb p ls = true ->
            forallb p (filter (fun l => perf_ignored l = false) ls) = true) as Hf.
  { intros p Hp. apply forallb_forall. intros l Hl.
    rewrite forallb_forall in Hp. apply Hp. apply list_elem_of_In.
    apply list_elem_of_In in Hl. by apply list_elem_of_filter in Hl as [_ ?]. }
  rewrite !scan_text_of_lines by auto. by rewrite foldl_perf_line_ignored.
Qed.

Lemma CollapsePerf_ignores_noise_witness :
  CollapsePerf order_id
    (text_of_lines ["app 1234 100.5: cycles:";
                    GoStr.tab +:+ " 401136 main+0x24 (app)"; ""])
  = CollapsePerf order_id
      (text_of_lines
         (filter (fun l => perf_ignored l = false)
                 ["app 1234 100.5: cycles:";
                  GoStr.tab +:+ " 401136 main+0x24 (app)"; ""])).
Proof.
  refine (CollapsePerf_ignores_noise order_id
            ["app 1234 100.5: cycles:";
             GoStr.tab +:+ " 401136 main+0x24 (app)"; ""] _ _).
  - reflexivity.
  - by vm_compute.
Defined.

(** ** The rectangles of the image *)

Section Rects.
Variable o : map_order.

Lemma frame_levels_pos f : (0 < frame_levels f)%nat.
Proof. destruct f. simpl. lia. Qed.

Lemma slot_child f x width s :
  s ∈ child_slots o f x width -> exists k, children f !! k = Some s.1.1.
Proof.
  intros Hs. apply (ordered_children_in o).
  rewrite <-slots_children with (width := width) (fv := value f) (x := x).
  apply list_elem_of_fmap. exists s.1. split; [done|].
  apply list_elem_of_fmap. by exists s.
Qed.

Lemma rects_upto_enough f : forall n x width depth,
  (frame_levels f <= n)%nat ->
  rects_upto n o f x width depth = frame_rects o f x width depth.
Proof.
  induction f as [f IH] using frame_ind. intros n x width depth Hn.
  unfold frame_rects. pose proof (frame_levels_pos f) as Hpos.
  destruct n as [|n]; [lia|].
  destruct (frame_levels f) as [|l] eqn:El; [lia|].
  cbn [rects_upto]. case_match; [done|]. do 2 f_equal.
  apply map_ext_in. intros s Hs. apply list_elem_of_In in Hs.
  destruct (slot_child _ _ _ _ Hs) as [k Hk].
  pose proof (frame_levels_child f k _ Hk) as Hlt.
  rewrite (IH k _ Hk n) by lia. rewrite (IH k _ Hk l) by lia. done.
Qed.

Lemma frame_rects_unfold f x width depth :
  frame_rects o f x width depth
  = if (width <? 1) || (value f =? 0) then []
    else (f, x, width, depth)
         :: concat (map (fun s : frame * Z * Z =>
                           frame_rects o s.1.1 s.1.2 s.2 (depth +i 1))
                        (child_slots o f x width)).
Proof.
  unfold frame_rects at 1. pose proof (frame_levels_pos f) as Hpos.
  destruct (frame_levels f) as [|l] eqn:El; [lia|].
  cbn [rects_upto]. case_match; [done|]. do 2 f_equal.
  apply map_ext_in. intros s Hs. apply list_elem_of_In in Hs.
  destruct (slot_child _ _ _ _ Hs) as [k Hk].
  pose proof (frame_levels_child f k _ Hk) as Hlt.
  apply rects_upto_enough. lia.
Qed.

Lemma write_all_concat {A} (g : A -> string) (ls : list (list A)) :
  write_all (map g (concat ls)) = write_all (map (fun l => write_all (map g l)) ls).
Proof.
  induction ls as [|l ls IH]; [done|].
  cbn [concat map]. rewrite map_app, write_all_app, IH. done.
Qed.

(** [renderFrame] writes the texts of the rectangles, one after the other. *)
Lemma renderFrame_rects f : forall x baseY width frameHeight fontSize totalSamples depth scheme,
  renderFrame o f x baseY width frameHeight fontSize totalSamples depth scheme
  = write_all (map (rect_text baseY frameHeight totalSamples scheme)
                   (frame_rects o f x width depth)).
Proof.
  induction f as [f IH] using frame_ind. intros.
  rewrite frame_rects_unfold.
  destruct ((width <? 1) || (value f =? 0)) eqn:E.
  - rewrite renderFrame_unfold. by rewrite E.
  - apply orb_false_elim in E as [Hw Hv].
    apply Z.ltb_ge in Hw. apply Z.eqb_neq in Hv.
    rewrite renderFrame_children by (done || lia).
    cbn [map write_all foldr]. unfold rect_text at 1. cbn [fst snd]. f_equal.
    rewrite write_all_concat, map_map. f_equal.
    apply map_ext_in. intros s Hs. apply list_elem_of_In in Hs.
    destruct (slot_child _ _ _ _ Hs) as [k Hk].
    by apply (IH k).
Qed.

(** Every node of a tree without a zero value is drawn, at the depth
    of its path. *)
Lemma drawn_nodes path : forall f x width depth node,
  (forall p n, node_at f p = Some n -> value n <> 0) ->
  1 <= width -> GoInt.in_range depth ->
  node_at f path = Some node ->
  exists x' w', 1 <= w' /\
    (node, x', w', GoInt.wrap (depth + Z.of_nat (length path)))
    ∈ frame_rects o f x width depth.
Proof.
  induction path as [|k path IH]; intros f x width depth node Hv Hw Hd Hn.
  - cbn [node_at] in Hn. injection Hn as <-. exists x, width. split; [done|].
    rewrite frame_rects_unfold.
    replace (width <? 1) with false by (symmetry; apply Z.ltb_ge; lia).
    replace (value f =? 0) with false
      by (symmetry; apply Z.eqb_neq, (Hv [] f); done).
    cbn [orb length]. rewrite Z.add_0_r, GoIntFacts.wrap_small by done. by left.
  - cbn [node_at] in Hn. destruct (children f !! k) as [c|] eqn:Ec; [|done].
    assert (exists s, s ∈ child_slots o f x width /\ s.1.1 = c) as (s & Hs & Hc).
    { assert (c ∈ (child_slots o f x width).*1.*1) as Hin.
      { unfold child_slots. rewrite slots_children.
        apply list_elem_of_omap. exists k. split; [|done].
        rewrite sort_Strings_elems. apply elem_of_map_keys. by eexists. }
      apply list_elem_of_fmap in Hin as (s1 & -> & Hin).
      apply list_elem_of_fmap in Hin as (s & -> & Hin). by exists s. }
    assert (1 <= s.2) as Hs2.
    { assert (s.2 ∈ (child_slots o f x width).*2) as Hin
        by (apply list_elem_of_fmap; by exists s).
      unfold child_slots in Hin. rewrite slots_widths in Hin.
      apply list_elem_of_fmap in Hin as (c' & -> & _). apply childWidth_ge_1. }
    destruct (IH c s.1.2 s.2 (depth +i 1) node) as (x' & w' & Hw' & Hin);
      [|done|apply GoIntFacts.wrap_in_range|done|].
    { intros p n Hp. apply (Hv (k :: p)). cbn [node_at]. by rewrite Ec. }
    exists x', w'. split; [done|].
    rewrite frame_rects_unfold.
    replace (width <? 1) with false by (symmetry; apply Z.ltb_ge; lia).
    replace (value f =? 0) with false
      by (symmetry; apply Z.eqb_neq, (Hv [] f); done).
    cbn [orb]. right. apply list_elem_of_In, in_concat.
    exists (frame_rects o s.1.1 s.1.2 s.2 (depth +i 1)). split.
    + apply in_map_iff. exists s. split; [done|by apply list_elem_of_In].
    + apply list_elem_of_In. rewrite Hc.
      replace (GoInt.wrap (depth + Z.of_nat (length (k :: path))))
        with (GoInt.wrap (depth +i 1 + Z.of_nat (length path))); [done|].
      unfold GoInt.add. rewrite GoIntFacts.wrap_wrap_add. f_equal.
      cbn [length]. lia.
Qed.

(** Every rectangle is a node of the tree, drawn at the depth of its path
    and at least one pixel wide. *)
Lemma rects_are_nodes f : forall x width depth r,
  GoInt.in_range depth ->
  r ∈ frame_rects o f x width depth ->
  exists path, node_at f path = Some r.1.1.1 /\
               r.2 = GoInt.wrap (depth + Z.of_nat (length path)) /\
               1 <= r.1.2.
Proof.
  induction f as [f IH] using frame_ind. intros x width depth r Hd.
  rewrite frame_rects_unfold.
  destruct ((width <? 1) || (value f =? 0)) eqn:E; [by intros ?%elem_of_nil|].
  apply orb_false_elim in E as [Hw _]. apply Z.ltb_ge in Hw.
  intros [->|Hin]%elem_of_cons.
  - exists []. cbn [fst snd length node_at]. split_and!; [done| |done].
    by rewrite Z.add_0_r, GoIntFacts.wrap_small.
  - apply list_elem_of_In, in_concat in Hin as (l & Hl & Hin).
    apply in_map_iff in Hl as (s & <- & Hs).
    apply list_elem_of_In in Hs, Hin.
    destruct (slot_child _ _ _ _ Hs) as [k Hk].
    destruct (IH k _ Hk _ _ _ r (GoIntFacts.wrap_in_range _) Hin)
      as (path & Hp & Hdepth & Hwr).
    exists (k :: path). cbn [node_at]. rewrite Hk. split_and!; [done| |done].
    rewrite Hdepth. unfold GoInt.add. rewrite GoIntFacts.wrap_wrap_add. f_equal.
    cbn [length]. lia.
Qed.

End Rects.

Section Drawn.

(** The tree of a folded text with positive counts has no zero value. *)
Lemma built_tree_values collapsed :
  svg_records collapsed <> [] ->
  Forall (fun r => 0 < r.2) (svg_records collapsed) ->
  count_sum (svg_records collapsed) <= GoInt.max_int ->
  (parse_collapsed collapsed).2 = count_sum (svg_records collapsed) /\
  0 < count_sum (svg_records collapsed) /\
  forall p n, node_at (parse_collapsed collapsed).1 p = Some n -> value n <> 0.
Proof.
  intros Hne Hpos Hmax.
  destruct (parse_invariant (GoStr.scan_lines collapsed) (newFrame "root") 0 []
              conserved_init eq_refl eq_refl) as (_ & Hv & Ht).
  fold (parse_collapsed collapsed) in Hv, Ht. simpl in Hv.
  fold (svg_records collapsed) in Hv.
  assert (0 < count_sum (svg_records collapsed)) as Hsum.
  { destruct (svg_records collapsed) as [|r rs]; [done|].
    apply Forall_cons in Hpos as [Hr Hrs].
    pose proof (count_sum_nonneg rs Hrs). unfold count_sum in *. simpl. lia. }
  rewrite GoIntFacts.wrap_small in Hv
    by (unfold GoInt.in_range, GoInt.min_int, GoInt.max_int in *; lia).
  split_and!; [by rewrite Ht|done|].
  intros [|k p] n Hn.
  - cbn [node_at] in Hn. injection Hn as <-. lia.
  - destruct (built_tree_plain collapsed Hpos Hmax) as [H1 _].
    destruct (H1 _ _ Hn) as (_ & Hp & _). specialize (Hp ltac:(done)). lia.
Qed.

End Drawn.

(** X18. Every frame is drawn, however narrow: for a folded text with
    positive counts that add up within the range of [int], and an image at
    least 21 pixels wide, the groups of the image are the nodes of the
    tree. The text written is the header, one group for each rectangle and
    the closing tag; every node of the tree has a rectangle at least one
    pixel wide, at the depth of its path; and every rectangle is that of a
    node. *)
Theorem GenerateSVG_draws_every_node (o : map_order) (collapsed : string)
    (opts : SVGOptions) :
  let rs := svg_records collapsed in
  let root := (parse_collapsed collapsed).1 in
  let total := (parse_collapsed collapsed).2 in
  let height := svg_height o opts root in
  let rects := frame_rects o root 10 (svg_width opts - 20) 0 in
  rs <> [] -> Forall (fun r => 0 < r.2) rs -> count_sum rs <= GoInt.max_int ->
  21 <= svg_width opts <= GoInt.max_int ->
  GenerateSVG o collapsed opts
  = (svg_header (svg_width opts) height 12 (Title opts) total +:+
     write_all (map (rect_text (height -i 20) 16 total (ColorScheme opts)) rects)
     +:+ "</svg>" +:+ nl, None) /\
  (forall path node, node_at root path = Some node ->
     exists x w, 1 <= w /\
       (node, x, w, GoInt.wrap (Z.of_nat (length path))) ∈ rects) /\
  (forall r, r ∈ rects ->
     exists path, node_at root path = Some r.1.1.1 /\
                  r.2 = GoInt.wrap (Z.of_nat (length path)) /\ 1 <= r.1.2).
Proof.
  intros rs root total height rects Hne Hpos Hmax Hw.
  destruct (built_tree_values collapsed Hne Hpos Hmax) as (Ht & Hsum & Hv).
  fold rs root total in Ht, Hsum, Hv.
  assert (svg_width opts -i 2 *i 10 = svg_width opts - 20) as Hcw.
  { change (2 *i 10) with 20. apply GoIntFacts.wrap_small.
    unfold GoInt.in_range, GoInt.min_int, GoInt.max_int in *. lia. }
  split_and!.
  - unfold GenerateSVG. unfold total, root, height.
    destruct (parse_collapsed collapsed) as [root' total'] eqn:E.
    cbn [fst snd] in *. fold total in Ht.
    replace (total' =? 0) with false by (symmetry; apply Z.eqb_neq; lia).
    rewrite Hcw, renderFrame_rects. done.
  - intros path node Hn.
    destruct (drawn_nodes o path root 10 (svg_width opts - 20) 0 node Hv)
      as (x & w & H1 & H2); [lia|done|done|].
    exists x, w. by rewrite Z.add_0_l in H2.
  - intros r Hr.
    destruct (rects_are_nodes o root 10 (svg_width opts - 20) 0 r) as (p & Hp);
      [done|done|].
    exists p. by rewrite Z.add_0_l in Hp.
Qed.

Lemma GenerateSVG_draws_every_node_witness :
  (GenerateSVG order_id tree_example DefaultSVGOptions).2 = None.
Proof.
  refine (f_equal snd (proj1 (GenerateSVG_draws_every_node order_id tree_example
                                DefaultSVGOptions _ _ _ _))).
  - by vm_compute.
  - apply (bool_decide_unpack _). by vm_compute.
  - by vm_compute.
  - by vm_compute.
Defined.

Section Vertical.

Lemma default_height_longest o collapsed :
  let longest := Z.of_nat (longest_stack (svg_records collapsed)) in
  longest <= 2 ^ 58 ->
  default_height o (parse_collapsed collapsed).1 = 16 * longest + 92.
Proof.
  intros longest Hmax. unfold default_height.
  rewrite getMaxDepth_levels; rewrite ?built_tree_levels;
    unfold GoInt.max_int; fold longest; try lia.
  assert (forall z, 0 <= z < 2 ^ 63 -> GoInt.wrap z = z) as Hw.
  { intros z Hz. apply GoIntFacts.wrap_small.
    unfold GoInt.in_range, GoInt.min_int, GoInt.max_int. lia. }
  assert (0 <= longest) by (unfold longest; lia).
  replace (0 + Z.of_nat (S (longest_stack (svg_records collapsed))) - 1)
    with longest by (unfold longest; lia).
  unfold GoInt.add, GoInt.mul.
  rewrite (Hw (longest + 2)) by lia.
  rewrite (Hw ((longest + 2) * 16)) by lia.
  rewrite (Hw ((longest + 2) * 16 + 40)) by lia.
  rewrite Hw by lia. lia.
Qed.

End Vertical.

(** X19. With the height that [GenerateSVG] chooses, every rectangle lies
    below the header and above the lower margin. Rows are 16 pixels apart
    and a rectangle is 15 pixels high, which leaves one pixel between two
    rows: the tag written for a frame at depth [d] has its upper side at
    [y = 16 * (longest - d) + 56] and [height = 15], where [longest] is
    the length of the longest stack. So the deepest frames begin 56 pixels
    below the top of the image, and the rectangle of the root ends 21
    pixels above its bottom. *)
Theorem rectangles_within_image (o : map_order) (collapsed : string)
    (opts : SVGOptions) :
  let root := (parse_collapsed collapsed).1 in
  let total := (parse_collapsed collapsed).2 in
  let longest := Z.of_nat (longest_stack (svg_records collapsed)) in
  let height := svg_height o opts root in
  Height opts = 0 ->
  height = 16 * longest + 92 /\
  forall r, r ∈ frame_rects o root 10 (svg_width opts -i 2 *i 10) 0 ->
    0 <= r.2 <= longest /\
    let top := 16 * (longest - r.2) + 56 in
    (exists rest,
       rect_text (height -i 20) 16 total (ColorScheme opts) r
       = "<g class=" +:+ quoted "func" +:+ ">" +:+ nl +:+
         "<rect x=" +:+ quoted (fmt_d r.1.1.2) +:+
         " y=" +:+ quoted (fmt_d top) +:+
         " width=" +:+ quoted (fmt_d r.1.2) +:+
         " height=" +:+ quoted "15" +:+ rest) /\
    56 <= top /\
    top + 15 = height - 21 - 16 * r.2.
Proof.
  intros root total longest height Hh.
  pose proof (longest_stack_bound collapsed) as Hmax. fold longest in Hmax.
  unfold GoStr.MaxScanTokenSize in Hmax.
  assert (height = 16 * longest + 92) as Hheight.
  { unfold height, svg_height. rewrite Hh. cbn [Z.eqb].
    apply default_height_longest. fold longest. lia. }
  split; [done|]. intros r Hr.
  destruct (rects_are_nodes o root _ _ 0 r ltac:(done) Hr) as (path & Hp & Hd & _).
  destruct (levels_longest_path root) as [Hall _].
  specialize (Hall _ _ Hp). unfold root in Hall. rewrite built_tree_levels in Hall.
  assert (forall z, 0 <= z < 2 ^ 63 -> GoInt.wrap z = z) as Hw.
  { intros z Hz. apply GoIntFacts.wrap_small.
    unfold GoInt.in_range, GoInt.min_int, GoInt.max_int. lia. }
  assert (0 <= longest) by (unfold longest; lia).
  rewrite Z.add_0_l, Hw in Hd by (fold longest in Hall; lia).
  assert (0 <= r.2 <= longest) as Hdepth by (unfold longest; lia).
  split; [done|]. intros top.
  assert (height -i 20 -i r.2 *i 16 -i 16 = top) as Htop.
  { unfold top. rewrite Hheight. unfold GoInt.sub, GoInt.mul.
    rewrite (Hw (16 * longest + 92 - 20)) by lia.
    rewrite (Hw (r.2 * 16)) by lia.
    rewrite (Hw (16 * longest + 92 - 20 - r.2 * 16)) by lia.
    rewrite Hw by lia. lia. }
  split_and!; [|unfold top; lia|unfold top; lia].
  unfold rect_text, frame_text.
  destruct (frameColor r.2 (ColorScheme opts)) as [[cr cg] cb].
  rewrite Htop. change (fmt_d (16 -i 1)) with "15".
  eexists. rewrite !append_assoc. reflexivity.
Qed.

Lemma rectangles_within_image_witness :
  svg_height order_id DefaultSVGOptions (parse_collapsed tree_example).1
  = 16 * Z.of_nat (longest_stack (svg_records tree_example)) + 92.
Proof.
  refine (proj1 (rectangles_within_image order_id tree_example
                   DefaultSVGOptions _)).
  reflexivity.
Defined.

(** ** Records of the root-first format, as [dtrace] prints them *)

Section DtraceLines.
Import GoStr GoStrIndex.

#[local] Arguments Ascii.eqb : simpl never.

Lemma has_byte_spaces c n : c <> " "%char -> has_byte c (spaces n) = false.
Proof.
  intros Hc. induction n as [|n IH]; [done|]. cbn [spaces has_byte].
  by rewrite (proj2 (Ascii.eqb_neq c " ") Hc), IH.
Qed.

(** [TrimSpace] removes the spaces before a word. *)
Lemma TrimSpace_spaces n w : word w = true -> TrimSpace (spaces n +:+ w) = w.
Proof.
  intros Hw. destruct (word_last w Hw) as (a & c & -> & Hc).
  unfold word in Hw. apply andb_prop in Hw as [Hne Hw].
  destruct (a +:+ String c "") as [|c0 rest] eqn:E; [done|].
  cbn [printable_all] in Hw. apply andb_prop in Hw as [Hc0 _].
  unfold TrimSpace. rewrite trim_front_spaces by done. rewrite <-E.
  unfold String.rev at 2. rewrite rev_app_app. cbn [String.rev_app trim_front].
  destruct (printable_plain c Hc) as (_ & Hb & _).
  unfold space_len_rev. rewrite (match_len_begins _ _ _ Hb).
  change (String c (String.rev_app a ""))
    with (String.rev_app (String c "") (String.rev_app a "")).
  rewrite <-rev_app_app. apply (rev_rev_app _ "").
Qed.

Lemma scanned_word n w : word w = true -> scanned (spaces n +:+ w) = spaces n +:+ w.
Proof.
  intros Hw. destruct (word_last w Hw) as (a & c & -> & Hc).
  rewrite <-append_assoc. apply scanned_keep.
  by destruct (printable_plain c Hc) as (_ & _ & ? & _).
Qed.

Lemma all_digits_printable s : all_digits s = true -> printable_all s = true.
Proof.
  induction s as [|c s IH]; [done|]. cbn [all_digits printable_all].
  destruct (is_digit c) eqn:E; [|done]. intros Hs. rewrite (IH Hs), andb_true_r.
  revert E. clear. destruct c as [[] [] [] [] [] [] [] []]; by vm_compute.
Qed.

(** What [%d] writes for a number that is not negative: a word of digits. *)
Lemma fmt_d_digits n :
  0 <= n -> all_digits (fmt_d n) = true /\ word (fmt_d n) = true.
Proof.
  intros Hn.
  assert (all_digits (fmt_d n) = true /\ fmt_d n <> "") as [Hd Hne].
  { unfold fmt_d. destruct n as [|p|p]; [done| |lia].
    cbn [Z.to_int NilZero.string_of_int]. unfold NilZero.string_of_uint.
    pose proof (DecimalPos.Unsigned.to_uint_nonnil p) as Hnil.
    destruct (Pos.to_uint p) eqn:E; [done|..]; rewrite <-E;
      (split; [apply all_digits_uint|]);
      rewrite E; done. }
  split; [done|]. unfold word. rewrite (all_digits_printable _ Hd).
  by destruct (fmt_d n).
Qed.

Lemma dtrace_func_module m rest :
  has_byte "`" m = false -> len m < GoInt.max_int ->
  dtrace_func (m +:+ "`" +:+ rest) = strip_offset rest.
Proof.
  intros Hm Hlen. unfold dtrace_func.
  change (m +:+ "`" +:+ rest) with (m +:+ String "`" rest).
  rewrite Index_app by done.
  replace (0 <=? len m) with true
    by (symmetry; apply Z.leb_le; unfold len; lia).
  unfold GoInt.add. rewrite GoIntFacts.wrap_small
    by (unfold GoInt.in_range, GoInt.min_int, GoInt.max_int, len in *; lia).
  unfold len. rewrite Z2Nat.inj_add, Nat2Z.id by lia.
  change (Z.to_nat 1) with 1%nat. rewrite Nat.add_1_r.
  by rewrite drop_app_cons.
Qed.

(** A frame line and a count line, as the loop of [CollapseDtrace] reads
    them. *)
Lemma dtrace_frame_text_read fr :
  dtrace_frame_ok fr = true ->
  has_byte newline (dtrace_frame_text fr) = false /\
  blank (dtrace_frame_text fr) = false /\
  count_line (dtrace_frame_text fr) = false /\
  dtrace_frame (dtrace_frame_text fr) = df_func fr.
Proof.
  unfold dtrace_frame_ok, dtrace_frame_text.
  destruct fr as [n m fn off]. cbn [df_pad df_module df_func df_off].
  intros [[[[[Hm Hq]%andb_prop Hlen]%andb_prop Hfn]%andb_prop Hplus]%andb_prop Hoff]%andb_prop.
  apply negb_true_iff in Hq, Hplus. apply Z.ltb_lt in Hlen.
  set (body := m +:+ "`" +:+ fn +:+ "+" +:+ off).
  assert (word body = true) as Hbody.
  { unfold body. apply word_app_l; [done|]. rewrite !printable_all_app.
    by rewrite (word_printable fn), Hoff. }
  assert (TrimSpace (scanned (spaces n +:+ body)) = body) as Htrim
    by (rewrite scanned_word by done; by apply TrimSpace_spaces).
  split_and!.
  - rewrite has_byte_app, has_byte_spaces by done.
    by apply printable_no_newline, word_printable.
  - unfold blank. rewrite Htrim. apply String.eqb_neq.
    unfold word in Hbody. by destruct body.
  - unfold count_line, isCountLine. rewrite Htrim.
    destruct (all_digits body) eqn:E; [|done].
    apply (all_digits_no_byte "`") in E; [|done].
    unfold body in E.
    change (m +:+ "`" +:+ fn +:+ "+" +:+ off)
      with (m +:+ String "`" (fn +:+ "+" +:+ off)) in E.
    rewrite has_byte_app in E. cbn [has_byte] in E.
    rewrite Ascii.eqb_refl in E. by destruct (has_byte "`" m).
  - unfold dtrace_frame. rewrite Htrim. unfold body.
    rewrite dtrace_func_module by done. apply strip_offset_named.
    + unfold word in Hfn. by destruct fn.
    + by apply Index_absent.
Qed.

Lemma dtrace_count_text_read pad n :
  0 <= n <= GoInt.max_int ->
  has_byte newline (dtrace_count_text pad n) = false /\
  blank (dtrace_count_text pad n) = false /\
  count_line (dtrace_count_text pad n) = true /\
  Sscanf_d (TrimSpace (scanned (dtrace_count_text pad n))) = Some n.
Proof.
  intros Hn. unfold dtrace_count_text.
  destruct (fmt_d_digits n) as [Hd Hw]; [lia|].
  assert (TrimSpace (scanned (spaces pad +:+ fmt_d n)) = fmt_d n) as Htrim
    by (rewrite scanned_word by done; by apply TrimSpace_spaces).
  split_and!.
  - rewrite has_byte_app, has_byte_spaces by done.
    by apply printable_no_newline, word_printable.
  - unfold blank. rewrite Htrim. apply String.eqb_neq.
    unfold word in Hw. by destruct (fmt_d n).
  - unfold count_line, isCountLine. rewrite Htrim, Hd. cbn [andb].
    apply Z.ltb_lt. unfold len, word in *. destruct (fmt_d n); [done|simpl; lia].
  - rewrite Htrim. apply Sscanf_fmt_d.
    unfold GoInt.in_range, GoInt.min_int, GoInt.max_int in *. lia.
Qed.

End DtraceLines.

(** X20. A record of [dtrace] is folded into its functions and its count:
    of every frame line, made of spaces and [module`function+offset] in
    printable bytes, [CollapseDtrace] keeps the function; the key of the
    record is the functions from the first line to the last, joined by
    semicolons; and the record counts for the number on its count line. *)
Theorem dtrace_record_read (frs : list dtrace_frame_desc) (pad : nat) (n : Z) :
  forallb dtrace_frame_ok frs = true -> 0 <= n <= GoInt.max_int ->
  let r := (map dtrace_frame_text frs, dtrace_count_text pad n) in
  dtrace_record r = true /\
  dtrace_key r = match frs with
                 | [] => None
                 | _ => Some (GoStr.Join (map df_func frs) ";")
                 end /\
  dtrace_count r = n.
Proof.
  intros Hok Hn r.
  destruct (dtrace_count_text_read pad n Hn) as (Hnl & Hb & Hc & Hs).
  assert (Forall (fun fr => dtrace_frame_ok fr = true) frs) as Hall.
  { apply Forall_forall. intros fr Hfr. rewrite forallb_forall in Hok.
    apply Hok. by apply list_elem_of_In. }
  assert (forallb (fun l => negb (has_byte GoStr.newline l) && negb (blank l)
                            && negb (count_line l))
                  (map dtrace_frame_text frs) = true /\
          map dtrace_frame (map dtrace_frame_text frs) = map df_func frs)
    as [Hfs Hkeys].
  { clear -Hall. induction Hall as [|fr frs Hfr _ [IH1 IH2]]; [done|].
    destruct (dtrace_frame_text_read fr Hfr) as (H1 & H2 & H3 & H4).
    cbn [map forallb]. by rewrite H1, H2, H3, H4, IH1, IH2. }
  split_and!.
  - unfold dtrace_record, r. cbn [fst snd]. by rewrite Hfs, Hnl, Hc, orb_true_r.
  - unfold dtrace_key, r. cbn [fst]. rewrite Hkeys, length_map. by destruct frs.
  - unfold dtrace_count, r. cbn [snd]. by rewrite Hb, Hs.
Qed.

Lemma dtrace_record_read_witness :
  dtrace_record
    (map dtrace_frame_text
         [DtraceFrame 14 "a.out" "main" "0x1d";
          DtraceFrame 14 "libc.so.1" "_write" "0xa"],
     dtrace_count_text 16 12) = true.
Proof.
  refine (proj1 (dtrace_record_read
                   [DtraceFrame 14 "a.out" "main" "0x1d";
                    DtraceFrame 14 "libc.so.1" "_write" "0xa"] 16 12 _ _)).
  - by vm_compute.
  - by vm_compute.
Defined.

(** ** Stacks that contain a space *)

Section Spaces.
Import GoStr GoStrIndex.

#[local] Arguments Ascii.eqb : simpl never.

(** [Sscanf] reads no number from a text that begins with a printable
    byte other than a digit and a sign. *)
Lemma Sscanf_no_number c rest :
  printable c = true -> is_digit c = false ->
  c <> "-"%char -> c <> "+"%char ->
  Sscanf_d (String c rest) = None.
Proof.
  intros Hc Hd Hm Hp. destruct (printable_plain c Hc) as (Hb & _).
  unfold Sscanf_d. cbn [trim_front].
  rewrite (match_len_begins _ _ _ (begins_line_space _ Hb)).
  rewrite (proj2 (Ascii.eqb_neq c "-") Hm), (proj2 (Ascii.eqb_neq c "+") Hp).
  cbn [scan_digits]. by rewrite Hd.
Qed.

End Spaces.

(** X21. A stack that contains a space is not read back as it was
    written: [GenerateSVG] cuts the line at its first space, so the stack
    loses everything from that space on, and the count is read from what
    follows it; when this begins with a printable byte that is neither a
    digit nor a sign, as the rest of a function name does, the record
    counts once, whatever its count. *)
Theorem stack_with_space_cut (a b : string) (c : ascii) (v : Z)
    (root : frame) (total : Z) :
  has_byte " " a = false ->
  printable c = true -> is_digit c = false -> c <> "-"%char -> c <> "+"%char ->
  let line := a +:+ " " +:+ String c b +:+ " " +:+ GoStr.fmt_d v in
  svg_record line = Some (GoStr.Split a ";", 1) /\
  svg_line (root, total) line = (add_path (GoStr.Split a ";") 1 root, total +i 1).
Proof.
  intros Ha Hc Hd Hm Hp line.
  assert (svg_record line = Some (GoStr.Split a ";", 1)) as Hr.
  { unfold line, svg_record, line_stack, line_field.
    change (a +:+ " " +:+ ?s) with (a +:+ String " " s).
    rewrite GoStrIndex.Index_app by done. unfold GoStr.len. rewrite Nat2Z.id.
    replace (Z.of_nat (String.length a) <? 0) with false
      by (symmetry; apply Z.ltb_ge; lia).
    rewrite GoStrIndex.take_app, drop_app_cons. do 2 f_equal.
    unfold record_count.
    change (String c b +:+ " " +:+ GoStr.fmt_d v)
      with (String c (b +:+ " " +:+ GoStr.fmt_d v)).
    by rewrite Sscanf_no_number. }
  split; [done|]. by rewrite svg_line_record, Hr.
Qed.

Lemma stack_with_space_cut_witness :
  svg_record ("main;operator" +:+ " " +:+ String "n" "ew" +:+ " " +:+ GoStr.fmt_d 3)
  = Some (GoStr.Split "main;operator" ";", 1).
Proof.
  refine (proj1 (stack_with_space_cut "main;operator" "ew" "n" 3
                   (newFrame "root") 0 _ _ _ _ _)).
  - reflexivity.
  - reflexivity.
  - reflexivity.
  - discriminate.
  - discriminate.
Defined.

(** ** What is drawn: the children of a frame and the colours *)

Section Drawing.
Variable o : map_order.

(** A child is given at least one pixel, so it writes its rectangle first
    unless its value is zero. *)
Lemma slot_width f x width s : s ∈ child_slots o f x width -> 1 <= s.2.
Proof.
  intros Hs.
  assert (s.2 ∈ (child_slots o f x width).*2) as Hin
    by (apply list_elem_of_fmap; by exists s).
  unfold child_slots in Hin. rewrite slots_widths in Hin.
  apply list_elem_of_fmap in Hin as (c' & -> & _). apply childWidth_ge_1.
Qed.

Lemma slot_names f x width :
  (forall k c, children f !! k = Some c -> name c = k) ->
  map (fun s : frame * Z * Z => name s.1.1) (child_slots o f x width)
  = sort_Strings (map_keys o (children f)).
Proof.
  intros Hnamed. unfold child_slots.
  trans (map name (omap (children f !!.)
                     (sort_Strings (map_keys o (children f))))).
  - rewrite <-slots_children with (width := width) (fv := value f) (x := x).
    by rewrite <-!list_fmap_compose.
  - apply names_of_children.
    intros k Hk. rewrite sort_Strings_elems in Hk.
    apply elem_of_map_keys in Hk as [c Hc]. exists c. split; [done|].
    by apply Hnamed.
Qed.

(** What [GenerateSVG] writes, by the rectangles. *)
Lemma GenerateSVG_rects collapsed opts :
  let root := (parse_collapsed collapsed).1 in
  let total := (parse_collapsed collapsed).2 in
  let height := svg_height o opts root in
  GenerateSVG o collapsed opts
  = if total =? 0 then ("", Some no_samples)
    else (svg_header (svg_width opts) height 12 (Title opts) total +:+
          write_all (map (rect_text (height -i 20) 16 total (ColorScheme opts))
                         (frame_rects o root 10 (svg_width opts -i 2 *i 10) 0))
          +:+ "</svg>" +:+ nl, None).
Proof.
  intros root total height. unfold GenerateSVG, root, total, height.
  destruct (parse_collapsed collapsed) as [root' total']. cbn [fst snd].
  destruct (total' =? 0); [done|]. by rewrite renderFrame_rects.
Qed.

End Drawing.

(** X8. In the tree that [GenerateSVG] builds the root is named [root] and
    every other node has the last name of its path. What [renderFrame]
    writes for a node is the text of its rectangles: nothing when its
    width is below one pixel or its value is zero, and otherwise its own
    rectangle followed by what its children write, these in the
    increasing order of their names, no two of which are the same. Every
    child is given at least one pixel and, when [x] is an [int], is placed
    after the widths of all the children before it, drawn or not; it
    writes nothing when its value is zero, and otherwise its own rectangle
    first, one level deeper. *)
Theorem children_drawn_by_name (o : map_order) (collapsed : string)
    (path : list string) (node : frame) (x width depth : Z) :
  let root := (parse_collapsed collapsed).1 in
  node_at root path = Some node ->
  let slots := child_slots o node x width in
  let names := map (fun s : frame * Z * Z => name s.1.1) slots in
  let below := concat (map (fun s : frame * Z * Z =>
                              frame_rects o s.1.1 s.1.2 s.2 (depth +i 1)) slots) in
  name node = List.last path "root" /\
  names ≡ₚ (map_to_list (children node)).*1 /\
  StronglySorted String.le names /\ NoDup names /\
  (forall baseY frameHeight fontSize totalSamples scheme,
     renderFrame o node x baseY width frameHeight fontSize totalSamples depth scheme
     = write_all (map (rect_text baseY frameHeight totalSamples scheme)
                      (frame_rects o node x width depth))) /\
  frame_rects o node x width depth
  = (if (width <? 1) || (value node =? 0) then []
     else (node, x, width, depth) :: below) /\
  (forall i s, slots !! i = Some s ->
     children node !! name s.1.1 = Some s.1.1 /\
     1 <= s.2 /\
     (GoInt.in_range x ->
      s.1.2 = GoInt.wrap (x + total_width (firstn i slots.*2))) /\
     (value s.1.1 = 0 -> frame_rects o s.1.1 s.1.2 s.2 (depth +i 1) = []) /\
     (value s.1.1 <> 0 ->
      exists deeper,
        frame_rects o s.1.1 s.1.2 s.2 (depth +i 1)
        = (s.1.1, s.1.2, s.2, depth +i 1) :: deeper)).
Proof.
  intros root Hnode slots names below.
  destruct (parse_named (scan_lines collapsed) (newFrame "root") 0
              (named_new "root")) as [Hnamed Hroot].
  fold (parse_collapsed collapsed) in Hnamed, Hroot. fold root in Hnamed, Hroot.
  assert (names = sort_Strings (map_keys o (children node))) as Hnames.
  { apply slot_names. intros k c. by apply (Hnamed path node). }
  split_and!.
  - destruct path as [|k path] using rev_ind; [by simplify_eq/=|].
    rewrite last_last. rewrite node_at_snoc in Hnode.
    destruct (node_at root path) as [parent|] eqn:E; [|done].
    by apply (Hnamed path parent).
  - by rewrite Hnames, sort_Strings_elems, map_keys_perm.
  - rewrite Hnames. apply sort_Strings_sorted.
  - rewrite Hnames, sort_Strings_elems. apply NoDup_map_keys.
  - intros. apply renderFrame_rects.
  - apply frame_rects_unfold.
  - intros i s Hs.
    assert (s ∈ slots) as Hin by by eapply list_elem_of_lookup_2.
    pose proof (slot_width o _ _ _ _ Hin) as Hw.
    split_and!.
    + destruct (slot_child o _ _ _ _ Hin) as [k Hk].
      by rewrite (Hnamed path node k _ Hnode Hk).
    + done.
    + intros Hx. by apply place_children_positions.
    + intros Hv. rewrite frame_rects_unfold, Hv. cbn [Z.eqb].
      by rewrite orb_true_r.
    + intros Hv. rewrite frame_rects_unfold.
      replace (s.2 <? 1) with false by (symmetry; apply Z.ltb_ge; lia).
      replace (value s.1.1 =? 0) with false by (symmetry; by apply Z.eqb_neq).
      cbn [orb]. by eexists.
Qed.

Lemma children_drawn_by_name_witness :
  name (parse_collapsed siblings_example).1 = "root".
Proof.
  refine (proj1 (children_drawn_by_name order_rev siblings_example []
                   (parse_collapsed siblings_example).1 10 1180 0 _)).
  reflexivity.
Defined.

(** C10. Every fill colour that [GenerateSVG] writes is a valid RGB
    triple. For every depth from [0] on whose multiple [depth * 40] fits an
    [int], and every scheme, the three components of [frameColor] lie
    within [0..255], and a scheme other than [cold] and [mem] gives the
    colour of [hot]. The depths that [renderFrame] passes to [frameColor]
    are those of the rectangles, and no line that the scanner yields makes
    a stack of more than [MaxScanTokenSize] frames: so, whatever the text
    and the options, every rectangle written has for its fill the colour
    of a depth within [0..65536], whose components lie within [0..255]. *)
Theorem frameColor_valid (o : map_order) (collapsed : string) (opts : SVGOptions) :
  let root := (parse_collapsed collapsed).1 in
  let total := (parse_collapsed collapsed).2 in
  let height := svg_height o opts root in
  let scheme := ColorScheme opts in
  let rects := frame_rects o root 10 (svg_width opts -i 2 *i 10) 0 in
  (forall depth sch, 0 <= depth -> depth * 40 <= GoInt.max_int ->
     valid_rgb (frameColor depth sch) /\
     (sch <> "cold" -> sch <> "mem" ->
      frameColor depth sch = frameColor depth "hot")) /\
  GenerateSVG o collapsed opts
  = (if total =? 0 then ("", Some no_samples)
     else (svg_header (svg_width opts) height 12 (Title opts) total +:+
           write_all (map (rect_text (height -i 20) 16 total scheme) rects)
           +:+ "</svg>" +:+ nl, None)) /\
  (forall r, r ∈ rects ->
     0 <= r.2 <= GoStr.MaxScanTokenSize /\
     valid_rgb (frameColor r.2 scheme) /\
     exists rest,
       rect_text (height -i 20) 16 total scheme r
       = "<g class=" +:+ quoted "func" +:+ ">" +:+ nl +:+
         "<rect x=" +:+ quoted (fmt_d r.1.1.2) +:+
         " y=" +:+ quoted (fmt_d (height -i 20 -i r.2 *i 16 -i 16)) +:+
         " width=" +:+ quoted (fmt_d r.1.2) +:+
         " height=" +:+ quoted "15" +:+
         " fill=" +:+
         quoted ("rgb(" +:+ fmt_d (frameColor r.2 scheme).1.1 +:+ "," +:+
                 fmt_d (frameColor r.2 scheme).1.2 +:+ "," +:+
                 fmt_d (frameColor r.2 scheme).2 +:+ ")") +:+ rest).
Proof.
  intros root total height scheme rects. split_and!.
  - intros depth sch Hd Hmax. split.
    + by apply frameColor_in_range.
    + by apply frameColor_default.
  - apply GenerateSVG_rects.
  - intros r Hr.
    destruct (rects_are_nodes o root _ _ 0 r ltac:(done) Hr) as (path & Hp & Hd & _).
    destruct (levels_longest_path root) as [Hall _].
    specialize (Hall _ _ Hp). unfold root in Hall. rewrite built_tree_levels in Hall.
    pose proof (longest_stack_bound collapsed) as Hmax.
    unfold GoStr.MaxScanTokenSize in *.
    rewrite Z.add_0_l, GoIntFacts.wrap_small in Hd
      by (unfold GoInt.in_range, GoInt.min_int, GoInt.max_int; lia).
    assert (0 <= r.2 <= 64 * 1024) as Hdepth by lia.
    split_and!; [lia|lia| |].
    + apply frameColor_in_range; [lia|]. unfold GoInt.max_int. lia.
    + unfold rect_text, frame_text.
      destruct (frameColor r.2 scheme) as [[cr cg] cb]. cbn [fst snd].
      change (fmt_d (16 -i 1)) with "15".
      eexists. rewrite !append_assoc. reflexivity.
Qed.
